(** * Timeline planner: the generation-and-recovery flow of [app.py]

    A shallow embedding of [app.py]: [generate_gemini_timeline], the
    handlers of [/generate], [/project/<id>] and [/history], the auth routes
    ([/register], [/login], [/logout], [/auth_status], [/google/callback]),
    the choice of the database URI, and the two library functions the flow
    leans on ([str.split] and the [json] codec); then the properties the
    specification states about them, and further properties of the code.

    Conventions.
    - A Python [str] is a list of code points ([N]).
    - A Python call either returns or raises: [outcome].
    - The generation service is an oracle [generate_content model prompt];
      the calls made and the lines printed are collected in a log.
    - [json.loads] is a parameter of the flow; [Json.loads] is the decoder of
      CPython's [json] package, used wherever a concrete decoder is needed.
    - The tables are lists of rows in the order of insertion; what the
      password hashing, the OAuth client and the database engine do during a
      request are parameters of the handlers. *)

From Stdlib Require Import List NArith ZArith Bool Lia Ascii Permutation.
From Stdlib Require String.
Import String.StringSyntax.
Import ListNotations.
Local Open Scope N_scope.

(** ** Python values, exceptions and outcomes *)

Module Py.

Definition str := list N.

(** A literal: the code points of an ASCII string. *)
Definition u (s : String.string) : str :=
  List.map N_of_ascii (String.list_ascii_of_string s).
Arguments u s%_string_scope.

Definition dq : str := [34].
Definition nl : str := [10].

Fixpoint str_eqb (a b : str) : bool :=
  match a, b with
  | [], [] => true
  | x :: a', y :: b' => (x =? y) && str_eqb a' b'
  | _, _ => false
  end.

(** A float is kept as the literal it was read from (or one of the three
    constants the decoder accepts); no floating-point arithmetic is
    modelled. *)
Inductive pyfloat : Type :=
| FNaN
| FInfinity
| FNegInfinity
| FLit (literal : str).

#[local] Unset Elimination Schemes.
Inductive pyval : Type :=
| PNone
| PBool (b : bool)
| PInt (z : Z)
| PFloat (f : pyfloat)
| PStr (s : str)
| PList (items : list pyval)
| PDict (items : list (str * pyval)).
#[local] Set Elimination Schemes.

(** The exception classes the flow tells apart: the bare [except:] catches
    everything, [except Exception] only what derives from [Exception]
    ([KeyboardInterrupt], [SystemExit] and [GeneratorExit] do not). *)
Record BaseException : Type := mkExc {
  exc_is_Exception : bool;
  exc_str : str          (* str(e) *)
}.

Definition Exception (text : str) : BaseException := mkExc true text.

Inductive outcome (A : Type) : Type :=
| Return (a : A)
| Raise (e : BaseException).
Arguments Return {A} a.
Arguments Raise {A} e.

(** [d[k] = v]: an existing key keeps its position. *)
Fixpoint dict_set (k : str) (v : pyval) (d : list (str * pyval))
  : list (str * pyval) :=
  match d with
  | [] => [(k, v)]
  | (k', v') :: d' =>
      if str_eqb k' k then (k, v) :: d' else (k', v') :: dict_set k v d'
  end.

Fixpoint dict_get (k : str) (d : list (str * pyval)) : option pyval :=
  match d with
  | [] => None
  | (k', v) :: d' => if str_eqb k' k then Some v else dict_get k d'
  end.

Definition dict_has (k : str) (d : list (str * pyval)) : bool :=
  match dict_get k d with Some _ => true | None => false end.

End Py.
Export Py.

(** ** [str] operations used by the fence stripping *)

Module Str.

Fixpoint startswith (p s : str) : bool :=
  match p, s with
  | [], _ => true
  | a :: p', b :: s' => (a =? b) && startswith p' s'
  | _ :: _, [] => false
  end.

(** [s.find(sep)]: index of the first occurrence. *)
Fixpoint find (sep s : str) : option nat :=
  if startswith sep s then Some O
  else match s with
       | [] => None
       | _ :: s' => option_map S (find sep s')
       end.

(** [sep in s]. *)
Definition contains (sep s : str) : bool :=
  match find sep s with Some _ => true | None => false end.

(** The pieces of [s] cut at each occurrence of [sep], left to right,
    occurrences not overlapping.  [fuel] bounds the number of cuts. *)
Fixpoint split_from (fuel : nat) (sep s : str) : list str :=
  match find sep s with
  | None => [s]
  | Some i =>
      match fuel with
      | O => [s]
      | S fuel' =>
          firstn i s :: split_from fuel' sep (skipn (i + length sep) s)
      end
  end.

(** [s.split(sep)]; an empty separator is a [ValueError]. *)
Definition split (s sep : str) : outcome (list str) :=
  match sep with
  | [] => Raise (Exception (u "empty separator"))
  | _ => Return (split_from (length s) sep s)
  end.

(** The part of [s] before the first occurrence of [sep] (all of [s] when
    there is none), and the part after it. *)
Definition before (sep s : str) : str :=
  match find sep s with
  | Some i => firstn i s
  | None => s
  end.

Definition after (sep s : str) : str :=
  match find sep s with
  | Some i => skipn (i + length sep) s
  | None => []
  end.

(** [s.replace(old, new, 1)] for a non-empty [old]: the first occurrence is
    replaced. *)
Definition replace_first (old new s : str) : str :=
  match find old s with
  | Some i => firstn i s ++ new ++ skipn (i + length old) s
  | None => s
  end.

(** [parts[i]] for [i >= 0]. *)
Definition getitem (parts : list str) (i : nat) : outcome str :=
  match nth_error parts i with
  | Some x => Return x
  | None => Raise (Exception (u "list index out of range"))
  end.

End Str.

(** ** The [json] codec of the Python standard library

    [loads] follows the decoder CPython runs ([json.decoder] with the [_json]
    scanner): the same values, messages and error positions.  A position is
    kept as the input left at that point.  The interpreter's resource limits
    (recursion depth, digits of an integer) are not part of the model. *)

Module Json.

(** *** Decimal and hexadecimal text *)

Fixpoint dec_digits (fuel : nat) (n : N) : str :=
  match fuel with
  | O => []
  | S fuel' =>
      if n <? 10 then [48 + n]
      else dec_digits fuel' (n / 10) ++ [48 + n mod 10]
  end.

(** ['%d' % n] for [n >= 0]: a number has no more decimal than binary
    digits. *)
Definition dec (n : N) : str := dec_digits (S (N.to_nat (N.log2 n))) n.

(** [int.__repr__]. *)
Definition int_repr (z : Z) : str :=
  if (z <? 0)%Z then 45 :: dec (Z.abs_N z) else dec (Z.abs_N z).

Definition hexdigit (n : N) : N := if n <? 10 then 48 + n else 87 + n.

(** ['\\u{0:04x}'.format(n)] for [n < 0x10000]. *)
Definition u_escape (n : N) : str :=
  [92; 117; hexdigit (n / 4096 mod 16); hexdigit (n / 256 mod 16);
   hexdigit (n / 16 mod 16); hexdigit (n mod 16)].

(** *** [JSONDecodeError] *)

(** [doc.count('\n', 0, pos) + 1] *)
Definition lineno (doc : str) (pos : nat) : nat :=
  S (count_occ N.eq_dec (firstn pos doc) 10).

Fixpoint col_after (pre : str) (col : nat) : nat :=
  match pre with
  | [] => col
  | c :: pre' => if c =? 10 then col_after pre' 1 else col_after pre' (S col)
  end.

(** [pos - doc.rfind('\n', 0, pos)] *)
Definition colno (doc : str) (pos : nat) : nat :=
  col_after (firstn pos doc) 1.

(** [str(JSONDecodeError(msg, doc, pos))] *)
Definition errmsg (msg doc : str) (pos : nat) : str :=
  msg ++ u ": line " ++ dec (N.of_nat (lineno doc pos))
      ++ u " column " ++ dec (N.of_nat (colno doc pos))
      ++ u " (char " ++ dec (N.of_nat pos) ++ u ")".

(** *** Scanner *)

Inductive scan (A : Type) : Type :=
| Scanned (a : A) (rest : str)
| Fail (msg : str) (rest : str)   (* JSONDecodeError(msg, doc, position of rest) *)
| Stop (rest : str)               (* StopIteration(position of rest) *)
| OutOfFuel.
Arguments Scanned {A} a rest.
Arguments Fail {A} msg rest.
Arguments Stop {A} rest.
Arguments OutOfFuel {A}.

Definition scan_map {A B} (f : A -> B) (r : scan A) : scan B :=
  match r with
  | Scanned a rest => Scanned (f a) rest
  | Fail m rest => Fail m rest
  | Stop rest => Stop rest
  | OutOfFuel => OutOfFuel
  end.

Definition is_ws (c : N) : bool :=
  (c =? 32) || (c =? 9) || (c =? 10) || (c =? 13).

Fixpoint skip_ws (s : str) : str :=
  match s with
  | c :: s' => if is_ws c then skip_ws s' else s
  | [] => []
  end.

Definition hexval (c : N) : option N :=
  if (48 <=? c) && (c <=? 57) then Some (c - 48)
  else if (97 <=? c) && (c <=? 102) then Some (c - 87)
  else if (65 <=? c) && (c <=? 70) then Some (c - 55)
  else None.

Definition hex4 (a b c d : N) : option N :=
  match hexval a, hexval b, hexval c, hexval d with
  | Some x, Some y, Some z, Some w =>
      Some (fold_left (fun acc h => N.lor (N.shiftl acc 4) h) [x; y; z; w] 0)
  | _, _, _, _ => None
  end.

Definition is_high (c : N) : bool := (0xd800 <=? c) && (c <=? 0xdbff).
Definition is_low (c : N) : bool := (0xdc00 <=? c) && (c <=? 0xdfff).

Definition join_surrogates (hi lo : N) : N :=
  0x10000 + N.lor (N.shiftl (hi - 0xd800) 10) (lo - 0xdc00).

(** The character a one-letter escape stands for. *)
Definition backslash (e : N) : option N :=
  if e =? 34 then Some 34
  else if e =? 92 then Some 92
  else if e =? 47 then Some 47
  else if e =? 98 then Some 8
  else if e =? 102 then Some 12
  else if e =? 110 then Some 10
  else if e =? 114 then Some 13
  else if e =? 116 then Some 9
  else None.

(** [scanstring(s, end)] in strict mode: [s] is the input after the opening
    quote, [begin] the input at that quote.  A [\u] escape is read only
    when a character follows its four digits, and a second one is looked
    for after a high surrogate under the same condition. *)
Fixpoint scanstring (begin s : str) {struct s} : scan str :=
  match s with
  | [] => Fail (u "Unterminated string starting at") begin
  | c :: s1 =>
      if c =? 34 then Scanned [] s1
      else if c =? 92 then
        match s1 with
        | [] => Fail (u "Unterminated string starting at") begin
        | e :: s2 =>
            if e =? 117 then
              match s2 with
              | h1 :: h2 :: h3 :: h4 :: ((_ :: _) as s6) =>
                  match hex4 h1 h2 h3 h4 with
                  | None => Fail (u "Invalid \uXXXX escape") s1
                  | Some uni =>
                      if is_high uni then
                        match s6 with
                        | b :: v :: g1 :: g2 :: g3 :: g4 :: ((_ :: _) as s12) =>
                            if (b =? 92) && (v =? 117) then
                              match hex4 g1 g2 g3 g4 with
                              | None =>
                                  Fail (u "Invalid \uXXXX escape")
                                       (v :: g1 :: g2 :: g3 :: g4 :: s12)
                              | Some uni2 =>
                                  if is_low uni2 then
                                    scan_map (cons (join_surrogates uni uni2))
                                             (scanstring begin s12)
                                  else scan_map (cons uni) (scanstring begin s6)
                              end
                            else scan_map (cons uni) (scanstring begin s6)
                        | _ => scan_map (cons uni) (scanstring begin s6)
                        end
                      else scan_map (cons uni) (scanstring begin s6)
                  end
              | _ => Fail (u "Invalid \uXXXX escape") s1
              end
            else
              match backslash e with
              | Some c' => scan_map (cons c') (scanstring begin s2)
              | None => Fail (u "Invalid \escape") s
              end
        end
      else if c <=? 31 then Fail (u "Invalid control character at") s
      else scan_map (cons c) (scanstring begin s1)
  end.

Definition is_digit (c : N) : bool := (48 <=? c) && (c <=? 57).

Fixpoint span_digits (s : str) : str * str :=
  match s with
  | c :: s' =>
      if is_digit c then let (ds, r) := span_digits s' in (c :: ds, r)
      else ([], s)
  | [] => ([], [])
  end.

(** [int(digits)] *)
Definition int_of_digits (ds : str) : Z :=
  fold_left (fun a d => 10 * a + Z.of_N (d - 48)%N)%Z ds 0%Z.

(** The integer part of a number: a lone zero, or a non-zero digit and more
    digits. *)
Definition scan_int (s : str) : option (str * str) :=
  match s with
  | d :: s' =>
      if (49 <=? d) && (d <=? 57)
      then let (ds, r) := span_digits s' in Some (d :: ds, r)
      else if d =? 48 then Some ([48], s') else None
  | [] => None
  end.

(** The fraction, when there is one: a dot and digits. *)
Definition scan_frac (s : str) : str * str :=
  match s with
  | d :: f :: s' =>
      if (d =? 46) && is_digit f
      then let (fs, r) := span_digits s' in (d :: f :: fs, r)
      else ([], s)
  | _ => ([], s)
  end.

(** The exponent, when there is one: e or E, an optional sign, digits. *)
Definition scan_exp (s : str) : str * str :=
  match s with
  | e :: s' =>
      if (e =? 101) || (e =? 69) then
        let (sg, s'') :=
          match s' with
          | c :: t => if (c =? 45) || (c =? 43) then ([c], t) else ([], s')
          | [] => ([], s')
          end in
        let (es, r) := span_digits s'' in
        match es with
        | [] => ([], s)
        | _ => (e :: sg ++ es, r)
        end
      else ([], s)
  | [] => ([], s)
  end.

Definition scan_sign (s : str) : str * str :=
  match s with
  | c :: s' => if c =? 45 then ([c], s') else ([], s)
  | [] => ([], s)
  end.

(** [int(literal)] for a literal of the number grammar. *)
Definition int_of_literal (l : str) : Z :=
  match l with
  | c :: ds => if c =? 45 then (- int_of_digits ds)%Z else int_of_digits l
  | [] => int_of_digits l
  end.

(** A number: an optional minus sign, an integer part, then optionally a
    fraction and an exponent.  An integer when neither fraction nor exponent
    is there, a float otherwise. *)
Definition match_number (s : str) : scan pyval :=
  let (sign, s1) := scan_sign s in
  match scan_int s1 with
  | None => Stop s
  | Some (ip, s3) =>
      let (frac, s4) := scan_frac s3 in
      let (exp, s5) := scan_exp s4 in
      match frac ++ exp with
      | [] => Scanned (PInt (int_of_literal (sign ++ ip))) s5
      | _ => Scanned (PFloat (FLit (sign ++ ip ++ frac ++ exp))) s5
      end
  end.

(** The values that are neither strings, arrays nor objects: the named
    constants and the numbers. *)
Definition scan_atom (s : str) : scan pyval :=
  if Str.startswith (u "null") s then Scanned PNone (skipn 4 s)
  else if Str.startswith (u "true") s then Scanned (PBool true) (skipn 4 s)
  else if Str.startswith (u "false") s then Scanned (PBool false) (skipn 5 s)
  else if Str.startswith (u "NaN") s then Scanned (PFloat FNaN) (skipn 3 s)
  else if Str.startswith (u "Infinity") s
       then Scanned (PFloat FInfinity) (skipn 8 s)
  else if Str.startswith (u "-Infinity") s
       then Scanned (PFloat FNegInfinity) (skipn 9 s)
  else match_number s.

(** [scan_once], with the loops of the array and of the object parser. *)
Fixpoint scan_once (fuel : nat) (s : str) {struct fuel} : scan pyval :=
  match fuel with
  | O => OutOfFuel
  | S fuel' =>
      match s with
      | [] => Stop s
      | c :: s' =>
          if c =? 34 then scan_map PStr (scanstring s s')
          else if c =? 123 then
            match skip_ws s' with
            | c1 :: r =>
                if c1 =? 125 then Scanned (PDict []) r
                else scan_map PDict (object_loop fuel' [] (c1 :: r))
            | [] => scan_map PDict (object_loop fuel' [] [])
            end
          else if c =? 91 then
            match skip_ws s' with
            | c1 :: r =>
                if c1 =? 93 then Scanned (PList []) r
                else scan_map PList (array_loop fuel' (c1 :: r))
            | [] => scan_map PList (array_loop fuel' [])
            end
          else scan_atom s
      end
  end

with array_loop (fuel : nat) (s : str) {struct fuel} : scan (list pyval) :=
  match fuel with
  | O => OutOfFuel
  | S fuel' =>
      match scan_once fuel' s with
      | Scanned v r =>
          match skip_ws r with
          | c :: r' =>
              if c =? 93 then Scanned [v] r'
              else if c =? 44
                   then scan_map (cons v) (array_loop fuel' (skip_ws r'))
                   else Fail (u "Expecting ',' delimiter") (c :: r')
          | [] => Fail (u "Expecting ',' delimiter") []
          end
      | Fail m r => Fail m r
      | Stop r => Stop r
      | OutOfFuel => OutOfFuel
      end
  end

with object_loop (fuel : nat) (d : list (str * pyval)) (s : str)
       {struct fuel} : scan (list (str * pyval)) :=
  match fuel with
  | O => OutOfFuel
  | S fuel' =>
      match s with
      | c :: s1 =>
          if c =? 34 then
            match scanstring s s1 with
            | Scanned key r =>
                match skip_ws r with
                | c1 :: r1 =>
                    if c1 =? 58 then
                      match scan_once fuel' (skip_ws r1) with
                      | Scanned v r2 =>
                          match skip_ws r2 with
                          | c2 :: r3 =>
                              if c2 =? 125 then Scanned (dict_set key v d) r3
                              else if c2 =? 44
                                   then object_loop fuel' (dict_set key v d)
                                                    (skip_ws r3)
                                   else Fail (u "Expecting ',' delimiter")
                                             (c2 :: r3)
                          | [] => Fail (u "Expecting ',' delimiter") []
                          end
                      | Fail m r2 => Fail m r2
                      | Stop r2 => Stop r2
                      | OutOfFuel => OutOfFuel
                      end
                    else Fail (u "Expecting ':' delimiter") (c1 :: r1)
                | [] => Fail (u "Expecting ':' delimiter") []
                end
            | Fail m r => Fail m r
            | Stop r => Stop r
            | OutOfFuel => OutOfFuel
            end
          else Fail (u "Expecting property name enclosed in double quotes") s
      | [] => Fail (u "Expecting property name enclosed in double quotes") s
      end
  end.

(** [JSONDecoder.decode]: a value between optional white space, nothing
    after it. *)
Definition decode (s : str) : scan pyval :=
  match scan_once (S (2 * length s)) (skip_ws s) with
  | Scanned v r =>
      match skip_ws r with
      | [] => Scanned v []
      | r' => Fail (u "Extra data") r'
      end
  | Stop r => Fail (u "Expecting value") r
  | Fail m r => Fail m r
  | OutOfFuel => OutOfFuel
  end.

Inductive json_result : Type :=
| Parsed (v : pyval)
| ParseError (text : str).   (* str(e) of the exception raised *)

(** [json.loads(s)] for a [str]. *)
Definition loads (s : str) : json_result :=
  if Str.startswith [0xfeff] s
  then ParseError
         (errmsg (u "Unexpected UTF-8 BOM (decode using utf-8-sig)") s 0)
  else match decode s with
       | Scanned v _ => Parsed v
       | Fail m r => ParseError (errmsg m s (length s - length r))
       | Stop r => ParseError (errmsg (u "Expecting value") s (length s - length r))
       | OutOfFuel => ParseError (u "maximum recursion depth exceeded")
       end.

(** *** Encoder *)

(** [py_encode_basestring_ascii]: the replacement of one character. *)
Definition escape_char (c : N) : str :=
  if c =? 92 then [92; 92]
  else if c =? 34 then [92; 34]
  else if c =? 8 then [92; 98]
  else if c =? 12 then [92; 102]
  else if c =? 10 then [92; 110]
  else if c =? 13 then [92; 114]
  else if c =? 9 then [92; 116]
  else if (32 <=? c) && (c <=? 126) then [c]
  else if c <? 0x10000 then u_escape c
  else
    let n := c - 0x10000 in
    let s1 := N.lor 0xd800 (N.land (N.shiftr n 10) 0x3ff) in
    let s2 := N.lor 0xdc00 (N.land n 0x3ff) in
    u_escape s1 ++ u_escape s2.

Definition encode_str (s : str) : str :=
  dq ++ concat (List.map escape_char s) ++ dq.

(** [floatstr]: the constants by name, any other float by a literal that
    reads back as the same float. *)
Definition floatstr (f : pyfloat) : str :=
  match f with
  | FNaN => u "NaN"
  | FInfinity => u "Infinity"
  | FNegInfinity => u "-Infinity"
  | FLit l => l
  end.

(** [json.dumps(v)] with the default separators [", "] and [": "]. *)
Fixpoint dumps (v : pyval) : str :=
  match v with
  | PNone => u "null"
  | PBool true => u "true"
  | PBool false => u "false"
  | PInt z => int_repr z
  | PFloat f => floatstr f
  | PStr s => encode_str s
  | PList [] => u "[]"
  | PList (x :: xs) =>
      u "[" ++ dumps x
        ++ concat (List.map (fun y => u ", " ++ dumps y) xs) ++ u "]"
  | PDict [] => u "{}"
  | PDict (kx :: kvs) =>
      u "{" ++ encode_str (fst kx) ++ u ": " ++ dumps (snd kx)
        ++ concat (List.map
                     (fun ky => u ", " ++ encode_str (fst ky) ++ u ": "
                                  ++ dumps (snd ky)) kvs)
        ++ u "}"
  end.

End Json.

(** ** The application: [app.py] *)

Module App.

(** *** Effects: calls to the generation service and printed lines *)

Inductive event : Type :=
| Call (model prompt : str)  (* GenerativeModel(model).generate_content(prompt) *)
| Print (line : str).

(** A computation returns or raises, and leaves a log. *)
Definition M (A : Type) : Type := (outcome A * list event)%type.

Definition ret {A} (a : A) : M A := (Return a, []).

Definition lift {A} (o : outcome A) : M A := (o, []).

Definition bind {A B} (m : M A) (k : A -> M B) : M B :=
  match m with
  | (Return a, l) => let (r, l') := k a in (r, l ++ l')
  | (Raise e, l) => (Raise e, l)
  end.

Definition print (line : str) : M unit := (Return tt, [Print line]).

(** [try: m / except: h] *)
Definition try_except {A} (m : M A) (h : M A) : M A :=
  match m with
  | (Raise _, l) => let (r, l') := h in (r, l ++ l')
  | ok => ok
  end.

(** [try: m / except Exception as e: h e] *)
Definition try_except_Exception {A} (m : M A) (h : BaseException -> M A)
  : M A :=
  match m with
  | (Raise e, l) =>
      if exc_is_Exception e
      then let (r, l') := h e in (r, l ++ l')
      else (Raise e, l)
  | ok => ok
  end.

Definition obind {A B} (o : outcome A) (k : A -> outcome B) : outcome B :=
  match o with
  | Return a => k a
  | Raise e => Raise e
  end.

Declare Scope py_scope.
Delimit Scope py_scope with py.
Notation "x <- m ;; k" := (bind m (fun x => k))
  (at level 61, m at next level, right associativity) : py_scope.
Notation "m ;; k" := (bind m (fun _ => k))
  (at level 61, right associativity) : py_scope.
Notation "'let*' x := o 'in' k" := (obind o (fun x => k))
  (at level 61, x name, o at next level, right associativity) : py_scope.
Local Open Scope py_scope.

(** *** Values as the handlers use them *)

(** [type(v).__name__] *)
Definition type_name (v : pyval) : str :=
  match v with
  | PNone => u "NoneType"
  | PBool _ => u "bool"
  | PInt _ => u "int"
  | PFloat _ => u "float"
  | PStr _ => u "str"
  | PList _ => u "list"
  | PDict _ => u "dict"
  end.

Definition is_dict (v : pyval) : bool :=
  match v with PDict _ => true | _ => false end.

Definition TypeError_not_iterable (v : pyval) : BaseException :=
  Exception (u "argument of type '" ++ type_name v ++ u "' is not iterable").

Definition AttributeError_get (v : pyval) : BaseException :=
  Exception (u "'" ++ type_name v ++ u "' object has no attribute 'get'").

(** [needle in v] for a [str] needle: a key of a dict, an item of a list, a
    substring of a string; a [TypeError] on anything else. *)
Definition py_in (needle : str) (v : pyval) : outcome bool :=
  match v with
  | PDict d => Return (dict_has needle d)
  | PList l =>
      Return (existsb (fun x => match x with
                                | PStr s => str_eqb s needle
                                | _ => false
                                end) l)
  | PStr s => Return (Str.contains needle s)
  | _ => Raise (TypeError_not_iterable v)
  end.

(** [v.get(k, default)]: only a dict has the method. *)
Definition py_get (v : pyval) (k : str) (default : pyval) : outcome pyval :=
  match v with
  | PDict d =>
      Return (match dict_get k d with Some x => x | None => default end)
  | _ => Raise (AttributeError_get v)
  end.

(** *** The service, the codec and the database engine *)

(** What the service returns: [response.text] is a property that yields the
    text or raises. *)
Record Response : Type := mkResponse { text : outcome str }.

Record Project : Type := mkProject {
  id : nat;
  title : pyval;       (* the value bound to the column; a string is stored
                          as it is *)
  data : str;          (* JSON string *)
  date : N;
  user_id : nat
}.

Inductive http_response : Type :=
| Json (status : nat) (body : pyval)   (* jsonify(body), status *)
| RedirectToLogin                      (* login_required, anonymous *)
| NotFound.                            (* get_or_404 *)

Definition primary_model : str := u "gemini-2.5-flash-lite".
Definition fallback_model : str := u "gemini-1.5-pro".
Definition fence_json : str := u "```json".
Definition fence : str := u "```".
Definition fallback_notice : str :=
  u "Fallback to gemini-1.5-pro triggered due to primary model failure.".

Definition q (s : String.string) : str := dq ++ u s ++ dq.
Arguments q s%_string_scope.

Fixpoint lines (ls : list str) : str :=
  match ls with
  | [] => []
  | [l] => l
  | l :: ls' => l ++ nl ++ lines ls'
  end.

(** The f-string of lines 96-123. *)
Definition prompt (project_desc deadline_str : str) : str :=
  lines [
      [];
      u "        You are an expert Senior Technical Project Manager. ";
      u "        Create a detailed project timeline for: " ++ dq ++ project_desc ++ dq ++ u ".";
      u "        Target Deadline: " ++ deadline_str ++ u ".";
      u "        ";
      u "        Output stricly VALID JSON with this structure:";
      u "        {";
      u "            " ++ q "project_title" ++ u ": " ++ q "string" ++ u ",";
      u "            " ++ q "executive_summary" ++ u ": " ++ q "string" ++ u ",";
      u "            " ++ q "risk_assessment" ++ u ": {";
      u "                " ++ q "level" ++ u ": " ++ q "Low/Medium/High" ++ u ",";
      u "                " ++ q "message" ++ u ": " ++ q "string" ++ u ",";
      u "                " ++ q "mitigation" ++ u ": " ++ q "string";
      u "            },";
      u "            " ++ q "phases" ++ u ": [";
      u "                {";
      u "                    " ++ q "name" ++ u ": " ++ q "Phase Name" ++ u ",";
      u "                    " ++ q "duration" ++ u ": " ++ q "e.g. 1 Week" ++ u ",";
      u "                    " ++ q "color" ++ u ": " ++ q "blue|purple|green|orange" ++ u ",";
      u "                    " ++ q "description" ++ u ": " ++ q "Short phase description" ++ u ",";
      u "                    " ++ q "tasks" ++ u ": [";
      u "                        { " ++ q "name" ++ u ": " ++ q "Task Name" ++ u ", " ++ q "status" ++ u ": " ++ q "Pending" ++ u ", " ++ q "dependencies" ++ u ": " ++ q "e.g. Task A" ++ u " }";
      u "                    ],";
      u "                    " ++ q "ai_insight" ++ u ": " ++ q "Specific technical advice for this phase.";
      u "                }";
      u "            ]";
      u "        }";
      u "        "
    ].

(** Lines 136-140: the text between the code fences, when there are any. *)
Definition strip_fences (text : str) : outcome str :=
  if Str.contains fence_json text then
    let* parts := Str.split text fence_json in
    let* after := Str.getitem parts 1 in
    let* parts' := Str.split after fence in
    Str.getitem parts' 0
  else if Str.contains fence text then
    let* parts := Str.split text fence in
    let* after := Str.getitem parts 1 in
    let* parts' := Str.split after fence in
    Str.getitem parts' 0
  else Return text.

Definition error_dict (message : str) : pyval :=
  PDict [(u "error", PStr message)].

(** Truth value of what [os.getenv] returns: [None] and the empty string are
    false. *)
Definition env_truthy (x : option str) : bool :=
  match x with
  | Some (_ :: _) => true
  | _ => false
  end.

(** Lines 28-37: the database URI, from the environment variables
    [DATABASE_URL] and [POSTGRES_URL]. *)
Definition database_uri (DATABASE_URL POSTGRES_URL : option str) : str :=
  let db_url := if env_truthy DATABASE_URL then DATABASE_URL else POSTGRES_URL in
  match db_url with
  | Some ((_ :: _) as db_url) =>
      if Str.startswith (u "postgres://") db_url
      then Str.replace_first (u "postgres://") (u "postgresql://") db_url
      else db_url
  | _ => u "sqlite:///database_v2.db"
  end.

(** The calls in a log. *)
Definition is_call (e : event) : bool :=
  match e with Call _ _ => true | Print _ => false end.

Definition calls (log : list event) : list event := List.filter is_call log.

Section Service.

(** [genai.GenerativeModel(model).generate_content(prompt)] *)
Variable generate_content : str -> str -> outcome Response.

(** [json.loads] and [json.dumps] *)
Variable json_loads : str -> Json.json_result.
Variable json_dumps : pyval -> str.

(** What the engine's constraints make of an INSERT: [None] when the row
    is stored, the error text when [commit] raises. *)
Variable commit_error : Project -> option str.

Definition call (model prompt : str) : M Response :=
  (generate_content model prompt, [Call model prompt]).

Definition loads (s : str) : outcome pyval :=
  match json_loads s with
  | Json.Parsed v => Return v
  | Json.ParseError e => Raise (Exception e)
  end.

(** Lines 136-142: from the answer of a model to the parsed value. *)
Definition extract_json (response : Response) : M pyval :=
  text <- lift (text response) ;;
  text <- lift (strip_fences text) ;;
  lift (loads text).

(** Lines 144-146: the body of [except Exception as e]. *)
Definition on_exception (e : BaseException) : M pyval :=
  print (u "Gemini Error: " ++ exc_str e) ;;
  ret (error_dict (exc_str e)).

(** Lines 90-146. *)
Definition generate_gemini_timeline (project_desc deadline_str : str)
  : M pyval :=
  try_except_Exception
    (let prompt := prompt project_desc deadline_str in
     response <-
       try_except
         (call primary_model prompt)
         (print fallback_notice ;;
          call fallback_model prompt) ;;
     extract_json response)
    on_exception.

(** What the flow makes of an answer, whichever model gave it. *)
Definition post_process (response : Response) : M pyval :=
  try_except_Exception (extract_json response) on_exception.

(** [response] is the answer the flow works on: that of the primary
    model, or that of the fallback model when the primary call raised. *)
Definition answered (project_desc deadline_str : str)
           (response : Response) : Prop :=
  let prompt := prompt project_desc deadline_str in
  generate_content primary_model prompt = Return response \/
  (exists e, generate_content primary_model prompt = Raise e /\
             generate_content fallback_model prompt = Return response).

(** [not x] for a field of the request body: absent or empty. *)
Definition falsy (x : option str) : bool :=
  match x with
  | Some (_ :: _) => false
  | _ => true
  end.

Definition field (x : option str) : str :=
  match x with Some s => s | None => [] end.

(** A fresh primary key. *)
Definition next_id (db : list Project) : nat :=
  S (fold_right (fun p m => Nat.max (id p) m) O db).

(** Lines 154-175: the [/generate] handler.  The request body is a JSON
    object whose two fields, when present, are strings. *)
Definition generate (db : list Project) (current_user : option nat)
           (utcnow : N) (description deadline : option str)
  : M http_response * list Project :=
  if falsy description || falsy deadline then
    (ret (Json 400 (error_dict (u "Missing input"))), db)
  else
    let (result, log) :=
      generate_gemini_timeline (field description) (field deadline) in
    match result with
    | Raise e => ((Raise e, log), db)
    | Return result =>
        match current_user with
        | None => ((Return (Json 200 result), log), db)
        | Some uid =>
            match py_in (u "error") result with
            | Raise e => ((Raise e, log), db)
            | Return true => ((Return (Json 200 result), log), db)
            | Return false =>
                match py_get result (u "project_title")
                             (PStr (u "Untitled Project")) with
                | Raise e => ((Raise e, log), db)
                | Return t =>
                    let new_project :=
                      mkProject (next_id db) t (json_dumps result)
                                utcnow uid in
                    match commit_error new_project with
                    | Some err => ((Raise (Exception err), log), db)
                    | None =>
                        ((Return (Json 200 result), log),
                         db ++ [new_project])
                    end
                end
            end
        end
    end.

(** Lines 276-282: the [/project/<id>] handler. *)
Definition get_project (db : list Project) (current_user : option nat)
           (project_id : nat) : outcome http_response :=
  match current_user with
  | None => Return RedirectToLogin
  | Some uid =>
      match List.find (fun p => Nat.eqb (id p) project_id) db with
      | None => Return NotFound
      | Some project =>
          if negb (Nat.eqb (user_id project) uid)
          then Return (Json 403 (error_dict (u "Unauthorized")))
          else let* v := loads (data project) in
               Return (Json 200 v)
      end
  end.

(** *** The [/history] handler *)

(** [p.date.strftime('%Y-%m-%d')], and the rows of a query in the order
    [ORDER BY date DESC] gives them. *)
Variable strftime_ymd : N -> str.
Variable order_by_date_desc : list Project -> list Project.

(** [v[:100] + "..."]: only a [str] can be sliced and then joined to a
    [str]. *)
Definition summary_of (v : pyval) : outcome pyval :=
  match v with
  | PStr s => Return (PStr (firstn 100 s ++ u "..."))
  | PList _ =>
      Raise (Exception (u "can only concatenate list (not " ++ q "str"
                          ++ u ") to list"))
  | PDict _ => Raise (Exception (u "unhashable type: 'slice'"))
  | _ =>
      Raise (Exception (u "'" ++ type_name v
                          ++ u "' object is not subscriptable"))
  end.

(** Lines 268-273: the entry of one project. *)
Definition history_entry (p : Project) : outcome pyval :=
  let date := strftime_ymd (date p) in
  let* plan := loads (data p) in
  let* summary := py_get plan (u "executive_summary") (PStr []) in
  let* summary := summary_of summary in
  Return (PDict [(u "id", PInt (Z.of_nat (id p)));
                 (u "title", title p);
                 (u "date", PStr date);
                 (u "summary", summary)]).

(** Lines 266-273: the loop. *)
Fixpoint history_loop (projects : list Project) (history_data : list pyval)
  : outcome (list pyval) :=
  match projects with
  | [] => Return history_data
  | p :: projects' =>
      let* entry := history_entry p in
      history_loop projects' (history_data ++ [entry])
  end.

(** Lines 262-274. *)
Definition get_history (db : list Project) (current_user : option nat)
  : outcome http_response :=
  match current_user with
  | None => Return RedirectToLogin
  | Some uid =>
      let projects :=
        order_by_date_desc
          (List.filter (fun p => Nat.eqb (user_id p) uid) db) in
      let* history_data := history_loop projects [] in
      Return (Json 200 (PList history_data))
  end.

End Service.

End App.

(** ** Accounts and sessions: the auth routes of [app.py] *)

Module Auth.

Notation "'let*' x := o 'in' k" := (App.obind o (fun x => k))
  (at level 61, x name, o at next level, right associativity).

(** Lines 70-76: a row of the table [user]. *)
Record User : Type := mkUser {
  id : nat;
  username : str;               (* nullable=False, unique=True *)
  password : option str;        (* nullable=True *)
  google_id : option str;       (* unique=True, nullable=True *)
  profile_pic : option str
}.

Inductive response : Type :=
| Json (status : nat) (body : pyval)   (* jsonify(body), status *)
| Text (status : nat) (body : str)
| RedirectToIndex                      (* redirect(url_for('index')) *)
| RedirectToLogin.                     (* login_required, anonymous *)

(** The table, and the user id that the session holds after [login_user]
    ([None] after [logout_user], or when nobody has logged in). *)
Record state : Type := mkState {
  users : list User;
  session : option nat
}.

(** A field of a JSON body, or of a row, as a value. *)
Definition py_opt (x : option str) : pyval :=
  match x with
  | Some s => PStr s
  | None => PNone
  end.

(** A fresh primary key. *)
Definition next_id (users : list User) : nat :=
  S (fold_right (fun x m => Nat.max (id x) m) O users).

(** [User.query.filter_by(username=username).first()]; [None] compares
    with [IS NULL], which no row satisfies. *)
Definition by_username (users : list User) (name : option str)
  : option User :=
  match name with
  | Some n => List.find (fun x => str_eqb (username x) n) users
  | None => None
  end.

(** [User.query.filter_by(google_id=google_id).first()] for a string. *)
Definition by_google_id (users : list User) (g : str) : option User :=
  List.find (fun x => match google_id x with
                      | Some g' => str_eqb g' g
                      | None => false
                      end) users.

(** Lines 85-87: [User.query.get(int(user_id))]. *)
Definition load_user (users : list User) (user_id : nat) : option User :=
  List.find (fun x => Nat.eqb (id x) user_id) users.

(** [current_user]: the user the session names, if the table has it. *)
Definition current_user (st : state) : option User :=
  match session st with
  | Some user_id => load_user (users st) user_id
  | None => None
  end.

(** An UPDATE of the row of [user]. *)
Definition update (user : User) (users : list User) : list User :=
  List.map (fun x => if Nat.eqb (id x) (id user) then user else x) users.

(** What [userinfo] holds: a JSON object whose fields, when present, are
    strings. *)
Record UserInfo : Type := mkUserInfo {
  info_email : option str;
  info_name : option str;
  info_id : option str;
  info_picture : option str
}.

(** [d[key]]: a [KeyError] when the key is absent. *)
Definition getitem (field : option str) (key : str) : outcome str :=
  match field with
  | Some v => Return v
  | None => Raise (Exception (u "'" ++ key ++ u "'"))
  end.

Section Engine.

(** [bcrypt.generate_password_hash(password).decode('utf-8')] and
    [bcrypt.check_password_hash(pw_hash, password)]; either may raise. *)
Variable generate_password_hash : option str -> outcome str.
Variable check_password_hash : str -> option str -> outcome bool.

(** What the engine makes of the INSERT or UPDATE of a row: [None] when
    it is stored, the error text when [commit] raises; and the text of the
    error for a row without [username]. *)
Variable commit_error : User -> option str.
Variable null_username_error : str.

(** Lines 224-239: [/register].  The request body is a JSON object whose
    two fields, when present, are strings. *)
Definition register (st : state) (username password : option str)
  : outcome response * state :=
  match by_username (users st) username with
  | Some _ =>
      (Return (Json 400 (App.error_dict (u "User already exists"))), st)
  | None =>
      match generate_password_hash password with
      | Raise e => (Raise e, st)
      | Return hashed_password =>
          match username with
          | None => (Raise (Exception null_username_error), st)
          | Some name =>
              let new_user :=
                mkUser (next_id (users st)) name (Some hashed_password)
                       None None in
              match commit_error new_user with
              | Some err => (Raise (Exception err), st)
              | None =>
                  (Return
                     (Json 200
                        (PDict [(u "message",
                                 PStr (u "Registered successfully"));
                                (u "username", py_opt username)])),
                   mkState (users st ++ [new_user]) (Some (id new_user)))
              end
          end
      end
  end.

(** Lines 241-252: [/login]. *)
Definition login (st : state) (username password : option str)
  : outcome response * state :=
  let invalid :=
    (Return (Json 401 (App.error_dict (u "Invalid credentials"))), st) in
  match by_username (users st) username with
  | Some user =>
      match Auth.password user with
      | Some ((_ :: _) as pw_hash) =>
          match check_password_hash pw_hash password with
          | Raise e => (Raise e, st)
          | Return true =>
              (Return
                 (Json 200
                    (PDict [(u "message", PStr (u "Login successful"));
                            (u "username", py_opt username)])),
               mkState (users st) (Some (id user)))
          | Return false => invalid
          end
      | _ => invalid
      end
  | None => invalid
  end.

(** Lines 185-217: the body of the [try] of [/google/callback]; [token] is
    what [google.authorize_access_token()] does, [user_info] what
    [google.get('userinfo').json()] gives. *)
Definition google_sign_in (st : state) (token : outcome unit)
           (user_info : outcome UserInfo) : outcome state :=
  let* _ := token in
  let* user_info := user_info in
  let* email := getitem (info_email user_info) (u "email") in
  let* name := getitem (info_name user_info) (u "name") in
  let* google_id := getitem (info_id user_info) (u "id") in
  let picture := info_picture user_info in
  let commit user users' :=
    match commit_error user with
    | Some err => Raise (Exception err)
    | None => Return (mkState users' (Some (id user)))
    end in
  match by_google_id (users st) google_id with
  | None =>
      match by_username (users st) (Some email) with
      | Some email_user =>
          let user :=
            mkUser (id email_user) (username email_user)
                   (Auth.password email_user) (Some google_id) picture in
          commit user (update user (users st))
      | None =>
          let user :=
            mkUser (next_id (users st)) email (Some []) (Some google_id)
                   picture in
          commit user (users st ++ [user])
      end
  | Some user =>
      let user :=
        mkUser (id user) (username user) (Auth.password user)
               (Auth.google_id user) picture in
      commit user (update user (users st))
  end.

(** Lines 183-221: [/google/callback], with the lines it prints. *)
Definition google_authorize (st : state) (token : outcome unit)
           (user_info : outcome UserInfo)
  : (outcome response * list str) * state :=
  match google_sign_in st token user_info with
  | Return st' => ((Return RedirectToIndex, []), st')
  | Raise e =>
      if exc_is_Exception e
      then ((Return (Text 400 (u "Authentication failed.")),
             [u "Google Auth Error: " ++ exc_str e]), st)
      else ((Raise e, []), st)
  end.

End Engine.

(** Lines 254-260: [/logout]. *)
Definition logout (st : state) (method : str) : response * state :=
  match current_user st with
  | None => (RedirectToLogin, st)
  | Some _ =>
      let st' := mkState (users st) None in
      if str_eqb method (u "GET") then (RedirectToIndex, st')
      else (Json 200 (PDict [(u "message", PStr (u "Logged out"))]), st')
  end.

(** Lines 285-293: [/auth_status]. *)
Definition auth_status (st : state) : response :=
  match current_user st with
  | Some user =>
      Json 200 (PDict [(u "logged_in", PBool true);
                       (u "username", PStr (username user));
                       (u "profile_pic", py_opt (profile_pic user))])
  | None => Json 200 (PDict [(u "logged_in", PBool false)])
  end.

(** [current_user.is_authenticated] and [current_user.id], as the handlers
    of the projects use them. *)
Definition current_user_id (st : state) : option nat :=
  option_map id (current_user st).

(** A request to one of the auth routes, with what the libraries do during
    it. *)
Inductive request : Type :=
| Register (generate_password_hash : option str -> outcome str)
           (commit_error : User -> option str) (null_username_error : str)
           (username password : option str)
| Login (check_password_hash : str -> option str -> outcome bool)
        (username password : option str)
| GoogleCallback (commit_error : User -> option str)
                 (token : outcome unit) (user_info : outcome UserInfo)
| Logout (method : str).

(** The state after a request. *)
Definition after (st : state) (r : request) : state :=
  match r with
  | Register h c n username password =>
      snd (register h c n st username password)
  | Login c username password => snd (login c st username password)
  | GoogleCallback c token user_info =>
      snd (google_authorize c st token user_info)
  | Logout method => snd (logout st method)
  end.

(** The states that requests lead to, from the empty table. *)
Inductive reachable : state -> Prop :=
| reach_init : reachable (mkState [] None)
| reach_after st r : reachable st -> reachable (after st r).

End Auth.

(** ** Vocabulary for the properties of the codec *)

Module JsonInv.

Import Json.

(** What may follow a value in a document: white space, a comma, a closing
    bracket or brace, the end of the text. *)
Definition is_stop (c : N) : bool :=
  is_ws c || (c =? 44) || (c =? 93) || (c =? 125).

Definition stop_head (t : str) : bool :=
  match t with
  | [] => true
  | c :: _ => is_stop c
  end.

(** The two readings [scanstring] makes after a backslash and [u]: four
    hexadecimal digits that a character follows, and, after a high surrogate,
    a second escape. *)
Definition read_hex4 (s : str) : option (N * str) :=
  match s with
  | h1 :: h2 :: h3 :: h4 :: ((_ :: _) as r) =>
      match hex4 h1 h2 h3 h4 with
      | Some uni => Some (uni, r)
      | None => None
      end
  | _ => None
  end.

Inductive look : Type :=
| NoPair
| BadPair (rest : str)
| Pair (uni2 : N) (rest : str).

Definition lookahead (s : str) : look :=
  match s with
  | b :: v :: g1 :: g2 :: g3 :: g4 :: ((_ :: _) as r) =>
      if (b =? 92) && (v =? 117) then
        match hex4 g1 g2 g3 g4 with
        | Some uni2 => Pair uni2 r
        | None => BadPair (v :: g1 :: g2 :: g3 :: g4 :: r)
        end
      else NoPair
  | _ => NoPair
  end.

(** After a high surrogate, the text goes on with the escape of a low one (or
    with a second escape that does not read). *)
Definition low_follows (s : str) : bool :=
  match lookahead s with
  | Pair uni2 _ => is_low uni2
  | BadPair _ => true
  | NoPair => false
  end.

(** Code points: every character of a [str] is below [0x110000]; a text
    decoded from UTF-8 holds no surrogate. *)
Definition in_range (c : N) : bool := c <? 0x110000.

Definition is_surrogate (c : N) : bool := (0xd800 <=? c) && (c <=? 0xdfff).

Definition is_scalar (c : N) : bool := in_range c && negb (is_surrogate c).

Definition valid_text (t : str) : bool := forallb is_scalar t.

(** No high surrogate is directly followed by a low one. *)
Fixpoint no_pair (s : str) : bool :=
  match s with
  | a :: s' =>
      match s' with
      | b :: _ => negb (is_high a && is_low b)
      | [] => true
      end && no_pair s'
  | [] => true
  end.

Definition str_ok (s : str) : bool := forallb in_range s && no_pair s.

(** The forms the encoder gives to one character. *)
Inductive esc_shape (c : N) : str -> Prop :=
| esc_short (e : N) :
    backslash e = Some c -> e <> 117 -> esc_shape c [92; e]
| esc_raw :
    (c =? 34) = false -> (c =? 92) = false -> (c <=? 31) = false ->
    is_high c = false -> esc_shape c [c]
| esc_u : c < 0x10000 -> esc_shape c (u_escape c)
| esc_pair (s1 s2 : N) :
    is_high s1 = true -> is_low s2 = true ->
    s1 < 0x10000 -> s2 < 0x10000 -> join_surrogates s1 s2 = c ->
    esc_shape c (u_escape s1 ++ u_escape s2).

(** A float literal reads back as itself. *)
Definition float_ok (f : pyfloat) : Prop :=
  match f with
  | FLit l => scan_atom l = Scanned (PFloat (FLit l)) []
  | _ => True
  end.

(** The values the decoder builds from a valid text: strings are sequences of
    code points without surrogate pairs, float literals read back, the keys of
    a dict are distinct. *)
Inductive wf : pyval -> Prop :=
| wf_None : wf PNone
| wf_Bool b : wf (PBool b)
| wf_Int z : wf (PInt z)
| wf_Float f : float_ok f -> wf (PFloat f)
| wf_Str s : str_ok s = true -> wf (PStr s)
| wf_List l : wf_all l -> wf (PList l)
| wf_Dict d : wf_items d -> NoDup (List.map fst d) -> wf (PDict d)
with wf_all : list pyval -> Prop :=
| wf_all_nil : wf_all []
| wf_all_cons v l : wf v -> wf_all l -> wf_all (v :: l)
with wf_items : list (str * pyval) -> Prop :=
| wf_items_nil : wf_items []
| wf_items_cons k v d :
    str_ok k = true -> wf v -> wf_items d -> wf_items ((k, v) :: d).

(** The text of a string between its quotes, and what follows. *)
Definition enc (s rest : str) : str :=
  concat (List.map escape_char s) ++ 34 :: rest.

(** What may follow a run of digits. *)
Definition nondigit_head (t : str) : bool :=
  match t with
  | [] => true
  | c :: _ => negb (is_digit c)
  end.

(** What may follow an integer part that has no fraction. *)
Definition nodot_head (t : str) : bool :=
  match t with
  | [] => true
  | c :: _ => negb (c =? 46)
  end.

(** The fuel that scanning a value takes. *)
Fixpoint size (v : pyval) : nat :=
  match v with
  | PList l => S (fold_right (fun x n => S (size x + n)) O l)
  | PDict d => S (fold_right (fun kx n => S (size (snd kx) + n)) O d)
  | _ => 1
  end.

Definition size_all (l : list pyval) : nat :=
  fold_right (fun x n => S (size x + n)) O l.

Definition size_items (d : list (str * pyval)) : nat :=
  fold_right (fun kx n => S (size (snd kx) + n)) O d.

(** The text of the items of a non-empty list, and of a non-empty dict,
    between the brackets. *)
Definition items_text (l : list pyval) : str :=
  match l with
  | [] => []
  | x :: xs => dumps x ++ concat (List.map (fun y => u ", " ++ dumps y) xs)
  end.

Definition pairs_text (d : list (str * pyval)) : str :=
  match d with
  | [] => []
  | kx :: kvs =>
      encode_str (fst kx) ++ u ": " ++ dumps (snd kx)
        ++ concat (List.map
                     (fun ky => u ", " ++ encode_str (fst ky) ++ u ": "
                                  ++ dumps (snd ky)) kvs)
  end.

(** The invariant of a scanned string: its characters are code points, no
    surrogate pair is left unjoined, and it starts with a low surrogate only
    when the text starts with the escape of one. *)
Definition scanned_ok (s a r : str) : Prop :=
  forallb in_range a = true /\ no_pair a = true /\ valid_text r = true /\
  match a with
  | c0 :: _ => is_low c0 = true -> low_follows s = true
  | [] => True
  end.

End JsonInv.

(** ** Vocabulary for the properties of the handlers *)

Module AppInv.

Import Json JsonInv.

(** The answers of the service are texts decoded from UTF-8. *)
Definition service_texts_valid
           (generate_content : str -> str -> outcome App.Response) : Prop :=
  forall model prompt resp t,
    generate_content model prompt = Return resp ->
    App.text resp = Return t -> valid_text t = true.

(** The tables that requests to [/generate] build from the empty one, each
    request with the answers the service gives at that time and with what
    the engine makes of the INSERT. *)
Inductive reachable : list App.Project -> Prop :=
| reach_init : reachable []
| reach_generate db generate_content commit_error current_user utcnow
                 description deadline :
    reachable db ->
    service_texts_valid generate_content ->
    reachable (snd (App.generate generate_content loads dumps commit_error
                      db current_user utcnow description deadline)).

(** A row written by [/generate]: the serialised form of an object that has
    no key ["error"]. *)
Definition row_ok (p : App.Project) : Prop :=
  exists items,
    App.data p = dumps (PDict items) /\ wf (PDict items) /\
    dict_has (u "error") items = false.

End AppInv.

(** ** Vocabulary for the properties of the auth routes *)

Module AuthInv.

Import Auth.

(** The Google ids the rows hold. *)
Definition google_ids (users : list User) : list str :=
  flat_map (fun x => match google_id x with
                     | Some g => [g]
                     | None => []
                     end) users.

(** The constraints of the table, and a session that names one of its
    rows. *)
Definition table_ok (st : state) : Prop :=
  NoDup (List.map id (users st)) /\
  NoDup (List.map username (users st)) /\
  NoDup (google_ids (users st)) /\
  match session st with
  | Some user_id => In user_id (List.map id (users st))
  | None => True
  end.

End AuthInv.

(** ** The fence stripping in the specification's words *)

Module Spec.

(** A fenced block is a span of text delimited by fences: an opening fence
    and, after it, a closing one. *)
Definition has_block (opening text : str) : bool :=
  Str.contains opening text
  && Str.contains App.fence (Str.after opening text).

(** The content between the first opening fence and the next closing
    fence. *)
Definition block_content (opening text : str) : str :=
  Str.before App.fence (Str.after opening text).

(** Steps 2 to 4 of the post-processing. *)
Definition strip_fences (text : str) : str :=
  if has_block App.fence_json text then block_content App.fence_json text
  else if has_block App.fence text then block_content App.fence text
  else text.

End Spec.

(** ** Scenarios

    Concrete services and answers, used to run the flow. *)

Module Scenario.

Import App.

(** A service that answers the primary model with [primary] and the
    fallback model with [fallback], whatever the prompt. *)
Definition service (primary fallback : outcome Response)
  : str -> str -> outcome Response :=
  fun model _ => if str_eqb model primary_model then primary else fallback.

Definition answers (t : str) : outcome Response :=
  Return (mkResponse (Return t)).

Definition unavailable : outcome Response :=
  Raise (Exception (u "503 Service Unavailable")).


(** [SystemExit] and [KeyboardInterrupt] do not derive from [Exception]. *)
Definition interrupted : outcome Response :=
  Raise (mkExc false (u "KeyboardInterrupt")).

(** An engine that stores every row whose title is a string. *)
Definition string_titles (p : Project) : option str :=
  match title p with
  | PStr _ => None
  | _ => Some (u "(sqlite3.IntegrityError) NOT NULL constraint failed: project.title")
  end.

Definition description : str := u "Build a mobile app".
Definition deadline : str := u "3 weeks".

(** The answer of the end-to-end scenario of the specification. *)
Definition plan_json : str :=
  u "{" ++ q "project_title" ++ u ":" ++ q "Mobile App" ++ u ","
    ++ q "executive_summary" ++ u ":" ++ q "..." ++ u ","
    ++ q "risk_assessment" ++ u ":{" ++ q "level" ++ u ":" ++ q "Low" ++ u ","
    ++ q "message" ++ u ":" ++ q "..." ++ u ","
    ++ q "mitigation" ++ u ":" ++ q "..." ++ u "},"
    ++ q "phases" ++ u ":[]}".

Definition plan : pyval :=
  PDict [(u "project_title", PStr (u "Mobile App"));
         (u "executive_summary", PStr (u "..."));
         (u "risk_assessment",
          PDict [(u "level", PStr (u "Low"));
                 (u "message", PStr (u "..."));
                 (u "mitigation", PStr (u "..."))]);
         (u "phases", PList [])].

Definition fenced (body : str) : str :=
  fence_json ++ nl ++ body ++ nl ++ fence.

(** A plan that speaks of code fences in its summary. *)
Definition docs_json : str :=
  u "{" ++ q "project_title" ++ u ": " ++ q "Docs" ++ u ", "
    ++ q "executive_summary" ++ u ": " ++ q "Wrap code in ``` fences"
    ++ u "}".

Definition docs : pyval :=
  PDict [(u "project_title", PStr (u "Docs"));
         (u "executive_summary", PStr (u "Wrap code in ``` fences"))].

(** A service whose primary model answers with the plan, and the row that a
    request of user 1 then stores in an empty table. *)
Definition planner : str -> str -> outcome Response :=
  service (answers plan_json) unavailable.

Definition stored : Project :=
  mkProject 1 (PStr (u "Mobile App")) (Json.dumps plan) 0 1.


(** A plan whose summary is [null], as stored for user 1. *)
Definition vague : pyval :=
  PDict [(u "project_title", PStr (u "Vague"));
         (u "executive_summary", PNone)].

Definition vague_row : Project :=
  mkProject 2 (PStr (u "Vague")) (Json.dumps vague) 7 1.

(** A table whose rows were inserted in the order of their dates, read
    newest first; every day is the same day. *)
Definition newest_first (l : list Project) : list Project := rev l.

Definition same_day (date : N) : str := u "2025-01-01".

(** Stand-ins for the password hashing and for the engine, to run the auth
    routes: a hash is the password after a prefix, every row is stored. *)
Definition toy_hash (password : option str) : outcome str :=
  match password with
  | Some ((_ :: _) as p) => Return (u "$2b$" ++ p)
  | _ => Raise (Exception (u "Password must be non-empty."))
  end.

Definition toy_check (pw_hash : str) (password : option str) : outcome bool :=
  match password with
  | Some p => Return (str_eqb pw_hash (u "$2b$" ++ p))
  | None => Raise (Exception (u "password is None"))
  end.

Definition stores_all (row : Auth.User) : option str := None.

Definition ada : Auth.User :=
  Auth.mkUser 1 (u "ada@example.org") (Some (u "$2b$lovelace")) None None.

Definition ada_info : Auth.UserInfo :=
  Auth.mkUserInfo (Some (u "ada@example.org")) (Some (u "Ada"))
                  (Some (u "1093")) (Some (u "https://example.org/ada.png")).

Definition register_ada : Auth.request :=
  Auth.Register toy_hash stores_all (u "NOT NULL constraint failed")
                (Some (u "ada@example.org")) (Some (u "lovelace")).

End Scenario.

(** * Properties *)

(** ** Occurrences, [find] and [split] *)

Lemma startswith_app (p t : str) : Str.startswith p (p ++ t) = true.
Proof.
  induction p as [|a p IH]; simpl; [reflexivity|].
  now rewrite N.eqb_refl, IH.
Qed.

Lemma startswith_inv (p s : str) :
  Str.startswith p s = true -> exists t, s = p ++ t.
Proof.
  revert s; induction p as [|a p IH]; intros s H; simpl in *.
  - now exists s.
  - destruct s as [|b s]; [discriminate|].
    apply andb_true_iff in H as [Hab Hps].
    apply N.eqb_eq in Hab; subst b.
    destruct (IH _ Hps) as [t ->]. now exists t.
Qed.

Lemma startswith_length (p s : str) :
  Str.startswith p s = true -> (length p <= length s)%nat.
Proof.
  intros H. destruct (startswith_inv _ _ H) as [t ->].
  rewrite length_app. lia.
Qed.

Lemma startswith_short (p s : str) :
  (length s < length p)%nat -> Str.startswith p s = false.
Proof.
  intros H. destruct (Str.startswith p s) eqn:E; [|reflexivity].
  apply startswith_length in E. lia.
Qed.

(** Whether [p] starts [s] only depends on the first [length p] characters. *)
Lemma startswith_firstn (p s : str) (k : nat) :
  (length p <= k)%nat -> Str.startswith p (firstn k s) = Str.startswith p s.
Proof.
  revert s k; induction p as [|a p IH]; intros s k H; simpl in *.
  - reflexivity.
  - destruct k as [|k]; [lia|]. destruct s as [|b s]; simpl; [reflexivity|].
    rewrite IH by lia. reflexivity.
Qed.

Lemma startswith_trans (p p' s : str) :
  Str.startswith (p ++ p') s = true -> Str.startswith p s = true.
Proof.
  intros H. destruct (startswith_inv _ _ H) as [t ->].
  rewrite <- app_assoc. apply startswith_app.
Qed.

(** [find] returns the first position at which [sep] starts. *)
Lemma find_Some (sep s : str) (i : nat) :
  Str.find sep s = Some i ->
  Str.startswith sep (skipn i s) = true /\
  (forall j, (j < i)%nat -> Str.startswith sep (skipn j s) = false).
Proof.
  revert i; induction s as [|c s IH]; intros i; simpl.
  - destruct (Str.startswith sep []) eqn:E; [|discriminate].
    intros [= <-]. split; [exact E | intros j Hj; lia].
  - destruct (Str.startswith sep (c :: s)) eqn:E.
    + intros [= <-]. split; [exact E | intros j Hj; lia].
    + destruct (Str.find sep s) as [k|] eqn:F; [|discriminate].
      simpl. intros [= <-]. destruct (IH k eq_refl) as [H1 H2].
      split; [exact H1|]. intros [|j] Hj; [exact E|].
      simpl. apply H2. lia.
Qed.

Lemma find_None (sep s : str) (j : nat) :
  Str.find sep s = None -> Str.startswith sep (skipn j s) = false.
Proof.
  revert j; induction s as [|c s IH]; intros j; simpl.
  - destruct (Str.startswith sep []) eqn:E; [discriminate|].
    intros _. now destruct j.
  - destruct (Str.startswith sep (c :: s)) eqn:E; [discriminate|].
    destruct (Str.find sep s) eqn:F; [discriminate|].
    intros _. destruct j as [|j]; [exact E|]. simpl. now apply IH.
Qed.

Lemma find_first (sep s : str) (i : nat) :
  Str.startswith sep (skipn i s) = true ->
  (i <= length s)%nat ->
  (forall j, (j < i)%nat -> Str.startswith sep (skipn j s) = false) ->
  Str.find sep s = Some i.
Proof.
  revert i; induction s as [|c s IH]; intros i H Hlen Hmin.
  - simpl in Hlen. assert (i = O) by lia. subst i. simpl in *.
    now rewrite H.
  - destruct i as [|i].
    + simpl in H. unfold Str.find; fold Str.find. now rewrite H.
    + unfold Str.find; fold Str.find.
      assert (H0 := Hmin O ltac:(lia)). simpl in H0. rewrite H0.
      rewrite (IH i); [reflexivity | exact H | simpl in Hlen; lia |].
      intros j Hj. apply (Hmin (S j)). lia.
Qed.

Lemma find_bound (sep s : str) (i : nat) :
  Str.find sep s = Some i -> (i + length sep <= length s)%nat.
Proof.
  intros H. destruct (find_Some _ _ _ H) as [H1 _].
  apply startswith_length in H1. rewrite length_skipn in H1.
  destruct (Nat.le_gt_cases i (length s)); [lia|].
  exfalso. clear H1. revert i H H0.
  induction s as [|c s IH]; intros i H Hi; simpl in *.
  - destruct (Str.startswith sep []); [injection H as <-; lia | discriminate].
  - destruct (Str.startswith sep (c :: s)); [injection H as <-; lia|].
    destruct (Str.find sep s) as [k|] eqn:F; [|discriminate].
    injection H as <-. apply (IH k eq_refl). lia.
Qed.

(** The text splits around the first occurrence. *)
Lemma find_split (sep s : str) (i : nat) :
  Str.find sep s = Some i ->
  s = firstn i s ++ sep ++ skipn (i + length sep) s.
Proof.
  intros H. destruct (find_Some _ _ _ H) as [H1 _].
  destruct (startswith_inv _ _ H1) as [t Ht].
  rewrite <- (firstn_skipn i s) at 1. f_equal.
  rewrite Nat.add_comm, <- skipn_skipn, Ht.
  f_equal. now rewrite skipn_app, skipn_all, Nat.sub_diag.
Qed.

Lemma contains_find (sep s : str) :
  Str.contains sep s = true <-> exists i, Str.find sep s = Some i.
Proof.
  unfold Str.contains. destruct (Str.find sep s) as [i|].
  - split; [now exists i | reflexivity].
  - split; [discriminate | intros [i Hi]; discriminate].
Qed.

Lemma contains_false (sep s : str) :
  Str.contains sep s = false <-> Str.find sep s = None.
Proof.
  unfold Str.contains. destruct (Str.find sep s); split; congruence.
Qed.

Lemma startswith_firstn_true (p s : str) (k : nat) :
  Str.startswith p (firstn k s) = true -> Str.startswith p s = true.
Proof.
  intros H. destruct (startswith_inv _ _ H) as [t Ht].
  rewrite <- (firstn_skipn k s), Ht, <- app_assoc. apply startswith_app.
Qed.

Lemma skipn_firstn_swap {A} (j k : nat) (s : list A) :
  skipn j (firstn k s) = firstn (k - j) (skipn j s).
Proof.
  revert k s; induction j as [|j IH]; intros k s; simpl.
  - now rewrite Nat.sub_0_r.
  - destruct k as [|k]; simpl; [reflexivity|].
    destruct s as [|c s]; simpl; [now rewrite firstn_nil | apply IH].
Qed.

(** What comes before the first occurrence holds no occurrence. *)
Lemma find_before (sep s : str) :
  sep <> [] -> Str.find sep (Str.before sep s) = None.
Proof.
  intros Hsep. unfold Str.before.
  destruct (Str.find sep s) as [i|] eqn:F; [|exact F].
  destruct (Str.find sep (firstn i s)) as [j|] eqn:G; [exfalso|reflexivity].
  pose proof (find_bound _ _ _ G) as Hb.
  destruct (find_Some _ _ _ G) as [G1 _].
  destruct (find_Some _ _ _ F) as [_ F2].
  rewrite skipn_firstn_swap in G1. apply startswith_firstn_true in G1.
  rewrite length_firstn in Hb.
  assert (0 < length sep)%nat by (destruct sep; [congruence | simpl; lia]).
  rewrite F2 in G1 by lia. discriminate.
Qed.

Lemma before_idem (sep s : str) :
  sep <> [] -> Str.before sep (Str.before sep s) = Str.before sep s.
Proof.
  intros Hsep. unfold Str.before at 1. now rewrite find_before.
Qed.

Lemma before_after (sep s : str) :
  Str.contains sep s = true ->
  s = Str.before sep s ++ sep ++ Str.after sep s.
Proof.
  intros H. apply contains_find in H as [i Hi].
  unfold Str.before, Str.after. rewrite Hi. now apply find_split.
Qed.

(** The first piece of a split is what comes before the first occurrence. *)
Lemma split_from_head (fuel : nat) (sep s : str) :
  sep <> [] -> (length s <= fuel)%nat ->
  exists tl, Str.split_from fuel sep s = Str.before sep s :: tl.
Proof.
  intros Hsep Hlen. unfold Str.before.
  destruct fuel as [|fuel]; simpl; destruct (Str.find sep s) as [i|] eqn:F;
    try (eexists; reflexivity).
  exfalso. apply find_bound in F.
  destruct sep; [congruence | simpl in F; lia].
Qed.

Lemma split_getitem_0 (sep s : str) :
  sep <> [] ->
  App.obind (Str.split s sep) (fun parts => Str.getitem parts 0)
  = Return (Str.before sep s).
Proof.
  intros Hsep. unfold Str.split. destruct sep as [|c sep]; [congruence|].
  destruct (split_from_head (length s) (c :: sep) s Hsep (Nat.le_refl _))
    as [tl ->].
  reflexivity.
Qed.

Lemma split_nonempty (sep s : str) :
  sep <> [] -> Str.split s sep = Return (Str.split_from (length s) sep s).
Proof. destruct sep; [congruence | reflexivity]. Qed.

Lemma split_getitem_1 (sep s : str) :
  sep <> [] -> Str.contains sep s = true ->
  App.obind (Str.split s sep) (fun parts => Str.getitem parts 1)
  = Return (Str.before sep (Str.after sep s)).
Proof.
  intros Hsep H. apply contains_find in H as [i Hi].
  rewrite split_nonempty by assumption.
  unfold Str.after. rewrite Hi.
  pose proof (find_bound _ _ _ Hi) as Hb.
  assert (0 < length sep)%nat by (destruct sep; [congruence | simpl; lia]).
  destruct (length s) as [|n] eqn:Hn; [lia|].
  simpl App.obind. unfold Str.split_from; fold Str.split_from. rewrite Hi.
  destruct (split_from_head n sep (skipn (i + length sep) s) Hsep) as [tl ->].
  - rewrite length_skipn. lia.
  - reflexivity.
Qed.

(** The fence stripping never raises, and cuts at first occurrences. *)
Lemma strip_fences_eq (text : str) :
  App.strip_fences text =
  Return
    (if Str.contains App.fence_json text
     then Str.before App.fence
            (Str.before App.fence_json (Str.after App.fence_json text))
     else if Str.contains App.fence text
          then Str.before App.fence (Str.after App.fence text)
          else text).
Proof.
  assert (Hj : App.fence_json <> []) by discriminate.
  assert (Hf : App.fence <> []) by discriminate.
  unfold App.strip_fences.
  destruct (Str.contains App.fence_json text) eqn:Ej.
  - pose proof (split_getitem_1 _ _ Hj Ej) as H1.
    destruct (Str.split text App.fence_json) as [parts|e]; [|discriminate].
    cbn [App.obind] in H1 |- *. rewrite H1. cbn [App.obind].
    apply split_getitem_0, Hf.
  - destruct (Str.contains App.fence text) eqn:Ef; [|reflexivity].
    pose proof (split_getitem_1 _ _ Hf Ef) as H1.
    destruct (Str.split text App.fence) as [parts|e]; [|discriminate].
    cbn [App.obind] in H1 |- *. rewrite H1. cbn [App.obind].
    rewrite (split_getitem_0 _ _ Hf). now rewrite before_idem.
Qed.

Lemma fence_json_fence : App.fence_json = App.fence ++ u "json".
Proof. reflexivity. Qed.

Lemma startswith_fence_nth (s : str) (k : nat) :
  Str.startswith App.fence (skipn k s) = true ->
  nth_error s k = Some 96 /\ nth_error s (k + 1) = Some 96 /\
  nth_error s (k + 2) = Some 96.
Proof.
  intros H. destruct (startswith_inv _ _ H) as [t Ht].
  rewrite <- (Nat.add_0_r k) at 1.
  rewrite <- !nth_error_skipn, Ht. repeat split.
Qed.

(** The content of a block: when the first fence in [rest] is at [j] and no
    backtick follows it, cutting [rest] at the next json fence and then at the
    first fence gives the first [j] characters. *)
Lemma block_content (rest : str) (j : nat) :
  Str.find App.fence rest = Some j ->
  nth_error rest (j + 3) <> Some 96 ->
  Str.before App.fence (Str.before App.fence_json rest) = firstn j rest.
Proof.
  intros Hj Hnext.
  assert (Hf : App.fence <> []) by discriminate.
  destruct (find_Some _ _ _ Hj) as [Hj1 Hj2].
  unfold Str.before at 2.
  destruct (Str.find App.fence_json rest) as [k|] eqn:Hk.
  2:{ unfold Str.before. now rewrite Hj. }
  destruct (find_Some _ _ _ Hk) as [Hk1 _].
  rewrite fence_json_fence in Hk1. apply startswith_trans in Hk1.
  assert (Hjk : (j <= k)%nat).
  { destruct (Nat.le_gt_cases j k) as [|Hlt]; [assumption|].
    rewrite (Hj2 k Hlt) in Hk1. discriminate. }
  destruct (startswith_fence_nth _ _ Hk1) as (K0 & K1 & K2).
  assert (Hcase : k = j \/ (j + 3 <= k)%nat).
  { destruct (Nat.eq_dec k j) as [|Hne]; [now left|]. right.
    destruct (Nat.eq_dec k (j + 1)) as [->|].
    { exfalso. apply Hnext. rewrite <- K2. f_equal. lia. }
    destruct (Nat.eq_dec k (j + 2)) as [->|].
    { exfalso. apply Hnext. rewrite <- K1. f_equal. lia. }
    lia. }
  destruct Hcase as [-> | Hfar].
  - replace (firstn j rest) with (Str.before App.fence rest)
      by (unfold Str.before; now rewrite Hj).
    now apply before_idem.
  - assert (Hx : Str.find App.fence (firstn k rest) = Some j).
    { apply find_first.
      - rewrite skipn_firstn_swap, startswith_firstn; [exact Hj1|].
        simpl. lia.
      - rewrite length_firstn. apply find_bound in Hk. lia.
      - intros j' Hj'. specialize (Hj2 j' Hj').
        destruct (Str.startswith App.fence (skipn j' (firstn k rest))) eqn:E;
          [|reflexivity].
        rewrite skipn_firstn_swap in E. apply startswith_firstn_true in E.
        congruence. }
    unfold Str.before. rewrite Hx, firstn_firstn.
    f_equal. lia.
Qed.

(** ** The flow of [generate_gemini_timeline] *)

Lemma skipn_two {A} (a b c : list A) :
  skipn (length a + length b) (a ++ b ++ c) = c.
Proof.
  rewrite Nat.add_comm, <- skipn_skipn.
  rewrite skipn_app, skipn_all, Nat.sub_diag, app_nil_l. simpl skipn at 2.
  now rewrite skipn_app, skipn_all, Nat.sub_diag.
Qed.

Lemma strip_block (pre content post : str) :
  Str.find App.fence_json
           (pre ++ App.fence_json ++ content ++ App.fence ++ post)
  = Some (length pre) ->
  Str.find App.fence (content ++ App.fence ++ post) = Some (length content) ->
  hd_error post <> Some 96 ->
  App.strip_fences (pre ++ App.fence_json ++ content ++ App.fence ++ post)
  = Return content.
Proof.
  intros Hopen Hclose Hpost.
  rewrite strip_fences_eq.
  assert (Hc : Str.contains App.fence_json
                 (pre ++ App.fence_json ++ content ++ App.fence ++ post) = true)
    by (apply contains_find; eauto).
  rewrite Hc. unfold Str.after. rewrite Hopen.
  rewrite (skipn_two pre App.fence_json).
  rewrite (block_content _ _ Hclose).
  - now rewrite firstn_app, firstn_all, Nat.sub_diag, app_nil_r.
  - rewrite nth_error_app2 by lia.
    replace (length content + 3 - length content)%nat with 3%nat by lia.
    destruct post; simpl in *; congruence.
Qed.

Section Flow.

Variable generate_content : str -> str -> outcome App.Response.
Variable json_loads : str -> Json.json_result.

Local Abbreviation gen := (App.generate_gemini_timeline generate_content json_loads).
Local Abbreviation post := (App.post_process json_loads).

Lemma flow_primary (d dl : str) (resp : App.Response) :
  generate_content App.primary_model (App.prompt d dl) = Return resp ->
  gen d dl
  = (fst (post resp),
     App.Call App.primary_model (App.prompt d dl) :: snd (post resp)).
Proof.
  intros H. unfold App.generate_gemini_timeline, App.post_process, App.call.
  cbn zeta. rewrite H. cbn [App.try_except App.bind].
  destruct (App.extract_json json_loads resp) as [[v|e] l];
    cbn [App.try_except_Exception app fst snd]; [reflexivity|].
  destruct (exc_is_Exception e); [|reflexivity].
  destruct (App.on_exception e) as [r l']. reflexivity.
Qed.

Lemma flow_fallback (d dl : str) (e : BaseException) (resp : App.Response) :
  generate_content App.primary_model (App.prompt d dl) = Raise e ->
  generate_content App.fallback_model (App.prompt d dl) = Return resp ->
  gen d dl
  = (fst (post resp),
     App.Call App.primary_model (App.prompt d dl)
       :: App.Print App.fallback_notice
       :: App.Call App.fallback_model (App.prompt d dl)
       :: snd (post resp)).
Proof.
  intros H1 H2.
  unfold App.generate_gemini_timeline, App.post_process, App.call.
  cbn zeta. rewrite H1.
  cbn [App.try_except App.bind App.print app]. rewrite H2.
  cbn [App.bind app].
  destruct (App.extract_json json_loads resp) as [[v|e'] l];
    cbn [App.try_except_Exception app fst snd]; [reflexivity|].
  destruct (exc_is_Exception e'); [|reflexivity].
  destruct (App.on_exception e') as [r l']. reflexivity.
Qed.

Lemma flow_both_fail (d dl : str) (e1 e2 : BaseException) :
  generate_content App.primary_model (App.prompt d dl) = Raise e1 ->
  generate_content App.fallback_model (App.prompt d dl) = Raise e2 ->
  gen d dl
  = if exc_is_Exception e2
    then (Return (App.error_dict (exc_str e2)),
          [App.Call App.primary_model (App.prompt d dl);
           App.Print App.fallback_notice;
           App.Call App.fallback_model (App.prompt d dl);
           App.Print (u "Gemini Error: " ++ exc_str e2)])
    else (Raise e2,
          [App.Call App.primary_model (App.prompt d dl);
           App.Print App.fallback_notice;
           App.Call App.fallback_model (App.prompt d dl)]).
Proof.
  intros H1 H2.
  unfold App.generate_gemini_timeline, App.call.
  cbn zeta. rewrite H1.
  cbn [App.try_except App.bind App.print app]. rewrite H2.
  cbn [App.bind app App.try_except_Exception].
  destruct (exc_is_Exception e2); reflexivity.
Qed.

(** The answer is parsed: the value is returned as it is. *)
Lemma post_parsed (resp : App.Response) (t t' : str) (v : pyval) :
  App.text resp = Return t ->
  App.strip_fences t = Return t' ->
  json_loads t' = Json.Parsed v ->
  post resp = (Return v, []).
Proof.
  intros Ht Hs Hv.
  unfold App.post_process, App.extract_json, App.lift, App.loads.
  rewrite Ht. cbn [App.bind]. rewrite Hs. cbn [App.bind]. rewrite Hv.
  reflexivity.
Qed.


(** Whichever model answered, a parsed answer is what the flow returns. *)
Lemma gen_parsed (d dl : str) (resp : App.Response) (t t' : str) (v : pyval) :
  App.answered generate_content d dl resp ->
  App.text resp = Return t ->
  App.strip_fences t = Return t' ->
  json_loads t' = Json.Parsed v ->
  fst (gen d dl) = Return v.
Proof.
  intros Hans Ht Hs Hv.
  pose proof (post_parsed _ _ _ _ Ht Hs Hv) as Hp.
  destruct Hans as [H | (e & H1 & H2)].
  - rewrite (flow_primary _ _ _ H), Hp. reflexivity.
  - rewrite (flow_fallback _ _ _ _ H1 H2), Hp. reflexivity.
Qed.

End Flow.
(** ** Claims on the flow *)

Section FlowClaims.

Variable generate_content : str -> str -> outcome App.Response.
Variable json_loads : str -> Json.json_result.

Local Abbreviation gen :=
  (App.generate_gemini_timeline generate_content json_loads).
Local Abbreviation post := (App.post_process json_loads).

(** C1, as amended. When the primary model answers with a json-tagged fenced
    block whose content holds no fence (it runs to the closing one) and is
    valid JSON, the flow returns the value that content parses to, after one
    call, whatever the description and the deadline. *)
Theorem C1_fenced_json_returned (d dl content : str) (resp : App.Response)
        (v : pyval) :
  generate_content App.primary_model (App.prompt d dl) = Return resp ->
  App.text resp = Return (App.fence_json ++ content ++ App.fence) ->
  Str.find App.fence (content ++ App.fence) = Some (length content) ->
  json_loads content = Json.Parsed v ->
  gen d dl = (Return v, [App.Call App.primary_model (App.prompt d dl)]).
Proof.
  intros Hcall Htext Hclose Hjson.
  rewrite (flow_primary _ _ _ _ _ Hcall).
  assert (Hstrip : App.strip_fences (App.fence_json ++ content ++ App.fence)
                   = Return content).
  { pose proof (strip_block [] content []) as H.
    rewrite !app_nil_r in H. apply H.
    - reflexivity.
    - exact Hclose.
    - discriminate. }
  now rewrite (post_parsed _ _ _ _ _ Htext Hstrip Hjson).
Qed.

(** C2. Whatever the primary call raises, the fallback model is called next,
    with the prompt the primary model was given; when it answers, the result
    and the rest of the log are those of its answer alone. *)
Theorem C2_fallback_same_prompt (d dl : str) (e : BaseException) :
  generate_content App.primary_model (App.prompt d dl) = Raise e ->
  exists r l,
    gen d dl
    = (r, App.Call App.primary_model (App.prompt d dl)
            :: App.Print App.fallback_notice
            :: App.Call App.fallback_model (App.prompt d dl) :: l) /\
    forall resp,
      generate_content App.fallback_model (App.prompt d dl) = Return resp ->
      (r, l) = post resp.
Proof.
  intros H1.
  destruct (generate_content App.fallback_model (App.prompt d dl))
    as [resp|e2] eqn:H2.
  - exists (fst (post resp)), (snd (post resp)). split.
    + now apply flow_fallback with (e := e).
    + intros resp' [= <-]. now destruct (post resp).
  - rewrite (flow_both_fail _ _ _ _ _ _ H1 H2).
    destruct (exc_is_Exception e2); eexists; eexists;
      (split; [reflexivity | intros resp' Hr; discriminate]).
Qed.



(** C7. When the text left by the fence stripping parses, the flow returns the
    parsed value, whatever its shape: nothing looks inside it. *)
Theorem C7_no_schema_validation (d dl : str) (resp : App.Response)
        (t t' : str) (v : pyval) :
  App.answered generate_content d dl resp ->
  App.text resp = Return t ->
  App.strip_fences t = Return t' ->
  json_loads t' = Json.Parsed v ->
  fst (gen d dl) = Return v.
Proof.
  apply gen_parsed.
Qed.

End FlowClaims.

(** C1 as stated fails: valid JSON that holds a fence inside a string is cut
    there, and the flow returns the dict of the parse error. *)
Lemma C1_counterexample :
  let gc := Scenario.service
              (Scenario.answers (Scenario.fenced Scenario.docs_json))
              Scenario.unavailable in
  Json.loads Scenario.docs_json = Json.Parsed Scenario.docs /\
  Json.loads (nl ++ Scenario.docs_json ++ nl) = Json.Parsed Scenario.docs /\
  gc App.primary_model (App.prompt Scenario.description Scenario.deadline)
  = Return (App.mkResponse
              (Return (App.fence_json ++ (nl ++ Scenario.docs_json ++ nl)
                         ++ App.fence))) /\
  fst (App.generate_gemini_timeline gc Json.loads
         Scenario.description Scenario.deadline)
  = Return (App.error_dict
              (u "Unterminated string starting at: line 2 column 48 (char 48)"))
  /\
  fst (App.generate_gemini_timeline gc Json.loads
         Scenario.description Scenario.deadline)
  <> Return Scenario.docs.
Proof.
  cbv zeta. repeat split; try (vm_compute; reflexivity).
  vm_compute. discriminate.
Qed.

(** The end-to-end scenario of the specification. *)
Lemma C1_witness :
  App.generate_gemini_timeline
    (Scenario.service (Scenario.answers (Scenario.fenced Scenario.plan_json))
                      Scenario.unavailable)
    Json.loads Scenario.description Scenario.deadline
  = (Return Scenario.plan,
     [App.Call App.primary_model
               (App.prompt Scenario.description Scenario.deadline)]).
Proof.
  apply (C1_fenced_json_returned _ _ _ _ (nl ++ Scenario.plan_json ++ nl)
           (App.mkResponse (Return (Scenario.fenced Scenario.plan_json))));
    vm_compute; reflexivity.
Defined.

Lemma C2_witness :
  exists r l,
    App.generate_gemini_timeline
      (Scenario.service Scenario.unavailable
                        (Scenario.answers (Scenario.fenced Scenario.plan_json)))
      Json.loads Scenario.description Scenario.deadline
    = (r, App.Call App.primary_model
                   (App.prompt Scenario.description Scenario.deadline)
            :: App.Print App.fallback_notice
            :: App.Call App.fallback_model
                        (App.prompt Scenario.description Scenario.deadline)
            :: l) /\
    forall resp,
      Scenario.service Scenario.unavailable
                       (Scenario.answers (Scenario.fenced Scenario.plan_json))
                       App.fallback_model
                       (App.prompt Scenario.description Scenario.deadline)
      = Return resp ->
      (r, l) = App.post_process Json.loads resp.
Proof.
  apply (C2_fallback_same_prompt _ _ _ _ (Exception (u "503 Service Unavailable"))).
  vm_compute; reflexivity.
Defined.




(** A parsed object with no [phases] and a number for a title is returned as
    it is. *)
Lemma C7_witness :
  fst (App.generate_gemini_timeline
         (Scenario.service
            Scenario.unavailable
            (Scenario.answers (u "{" ++ App.q "project_title" ++ u ": 5}")))
         Json.loads Scenario.description Scenario.deadline)
  = Return (PDict [(u "project_title", PInt 5)]).
Proof.
  apply (C7_no_schema_validation _ _ _ _
           (App.mkResponse
              (Return (u "{" ++ App.q "project_title" ++ u ": 5}")))
           (u "{" ++ App.q "project_title" ++ u ": 5}")
           (u "{" ++ App.q "project_title" ++ u ": 5}"));
    try (vm_compute; reflexivity).
  right. exists (Exception (u "503 Service Unavailable")).
  split; vm_compute; reflexivity.
Defined.

(** ** Claims on the fence stripping *)

Lemma contains_fence_json_fence (text : str) :
  Str.contains App.fence_json text = true -> Str.contains App.fence text = true.
Proof.
  intros H. apply contains_find in H as [k Hk].
  destruct (find_Some _ _ _ Hk) as [Hk1 _].
  rewrite fence_json_fence in Hk1. apply startswith_trans in Hk1.
  destruct (Str.contains App.fence text) eqn:E; [reflexivity|].
  apply contains_false in E. rewrite (find_None _ _ k E) in Hk1. discriminate.
Qed.

(** C4 as stated fails: an opening fence that is never closed delimits no
    block, yet the text after it is extracted. *)
Lemma C4_counterexample :
  let t := u "```json" ++ nl ++ u "[1, 2]" in
  Spec.has_block App.fence_json t = false /\
  Spec.has_block App.fence t = false /\
  Spec.strip_fences t = t /\
  App.strip_fences t = Return (nl ++ u "[1, 2]") /\
  App.strip_fences t <> Return (Spec.strip_fences t).
Proof.
  cbv zeta. repeat split; try (vm_compute; reflexivity).
  vm_compute. discriminate.
Qed.

(** C4, as amended. The opening marker alone selects the case.  When the json
    marker occurs, the result is the text after its first occurrence, up to
    the next json marker if there is one, cut at the first fence it holds;
    otherwise, when a fence occurs, the text after the first fence up to the
    next fence, or up to the end; otherwise the text itself.  No case raises. *)
Theorem C4_strip_fences_cases (text : str) :
  (Str.contains App.fence_json text = true /\
   exists pre rest,
     text = pre ++ App.fence_json ++ rest /\
     Str.find App.fence_json text = Some (length pre) /\
     App.strip_fences text
     = Return (Str.before App.fence (Str.before App.fence_json rest)))
  \/
  (Str.contains App.fence_json text = false /\
   Str.contains App.fence text = true /\
   exists pre rest,
     text = pre ++ App.fence ++ rest /\
     Str.find App.fence text = Some (length pre) /\
     App.strip_fences text = Return (Str.before App.fence rest))
  \/
  (Str.contains App.fence text = false /\
   App.strip_fences text = Return text).
Proof.
  rewrite strip_fences_eq.
  destruct (Str.contains App.fence_json text) eqn:Ej.
  - left. split; [reflexivity|].
    pose proof (before_after _ _ Ej) as Hs.
    exists (Str.before App.fence_json text), (Str.after App.fence_json text).
    split; [exact Hs|]. split; [|reflexivity].
    apply contains_find in Ej as [i Hi].
    unfold Str.before. rewrite Hi, length_firstn.
    apply find_bound in Hi. f_equal. lia.
  - destruct (Str.contains App.fence text) eqn:Ef.
    + right; left. repeat split.
      pose proof (before_after _ _ Ef) as Hs.
      exists (Str.before App.fence text), (Str.after App.fence text).
      split; [exact Hs|]. split; [|reflexivity].
      apply contains_find in Ef as [i Hi].
      unfold Str.before. rewrite Hi, length_firstn.
      apply find_bound in Hi. f_equal. lia.
    + right; right. split; reflexivity.
Qed.

(** Where the block is closed and no backtick follows the closing fence, the
    code extracts what the specification describes. *)
Lemma strip_fences_closed_block (text : str) (j : nat) :
  Str.contains App.fence_json text = true ->
  Str.find App.fence (Str.after App.fence_json text) = Some j ->
  nth_error (Str.after App.fence_json text) (j + 3) <> Some 96 ->
  App.strip_fences text = Return (Spec.strip_fences text).
Proof.
  intros Hc Hj Hn. rewrite strip_fences_eq, Hc.
  unfold Spec.strip_fences, Spec.has_block, Spec.block_content.
  rewrite Hc. unfold Str.contains at 1. rewrite Hj. cbn [andb].
  rewrite (block_content _ _ Hj Hn). unfold Str.before. now rewrite Hj.
Qed.

(** A text with no fence is parsed as it is. *)
Lemma strip_fences_no_fence (text : str) :
  Str.contains App.fence text = false -> App.strip_fences text = Return text.
Proof.
  intros H. rewrite strip_fences_eq, H.
  destruct (Str.contains App.fence_json text) eqn:E; [|reflexivity].
  apply contains_fence_json_fence in E. congruence.
Qed.

(** ** Claims on the [/generate] handler *)

Section HandlerClaims.

Variable generate_content : str -> str -> outcome App.Response.
Variable json_loads : str -> Json.json_result.
Variable json_dumps : pyval -> str.
Variable commit_error : App.Project -> option str.

Local Abbreviation gen :=
  (App.generate_gemini_timeline generate_content json_loads).
Local Abbreviation generate :=
  (App.generate generate_content json_loads json_dumps commit_error).

Lemma falsy_field (x : option str) :
  App.falsy x = false -> exists c s, x = Some (c :: s).
Proof. destruct x as [[|c s]|]; try discriminate. now exists c, s. Qed.

(** C9. Success and failure are told apart by the key ["error"] alone: an
    error dict has it, and a parsed object that has it is, like a failure,
    sent back without being stored. *)
Theorem C9_error_key_not_persisted
        (db : list App.Project) (user : option nat) (now : N)
        (description deadline : option str) (resp : App.Response)
        (t t' : str) (items : list (str * pyval)) :
  App.falsy description = false ->
  App.falsy deadline = false ->
  App.answered generate_content (App.field description) (App.field deadline)
               resp ->
  App.text resp = Return t ->
  App.strip_fences t = Return t' ->
  json_loads t' = Json.Parsed (PDict items) ->
  dict_has (u "error") items = true ->
  (forall m, App.py_in (u "error") (App.error_dict m) = Return true) /\
  fst (gen (App.field description) (App.field deadline))
  = Return (PDict items) /\
  fst (fst (generate db user now description deadline))
  = Return (App.Json 200 (PDict items)) /\
  snd (generate db user now description deadline) = db.
Proof.
  intros Hd Hdl Hans Ht Hs Hv Herr.
  pose proof (gen_parsed _ _ _ _ _ _ _ _ Hans Ht Hs Hv) as Hgen.
  split; [intros m; reflexivity|]. split; [exact Hgen|].
  unfold App.generate. rewrite Hd, Hdl. cbn [orb].
  destruct (gen (App.field description) (App.field deadline)) as [r log].
  cbn [fst] in Hgen. subst r.
  destruct user as [uid|]; [|split; reflexivity].
  cbn [App.py_in]. rewrite Herr. split; reflexivity.
Qed.

(** C10. A parsed value that is not an object is returned as it is, and for a
    logged-in user the handler applies ['error' not in result] to it: a
    [TypeError] on a number, a boolean or [None]; on a string or a list, the
    value is sent back when it holds ["error"], and the handler fails at
    [result.get] when it does not.  Nothing is stored in any of these
    cases. *)
Theorem C10_non_object_result
        (db : list App.Project) (uid : nat) (now : N)
        (description deadline : option str) (resp : App.Response)
        (t t' : str) (v : pyval) :
  App.falsy description = false ->
  App.falsy deadline = false ->
  App.answered generate_content (App.field description) (App.field deadline)
               resp ->
  App.text resp = Return t ->
  App.strip_fences t = Return t' ->
  json_loads t' = Json.Parsed v ->
  App.is_dict v = false ->
  fst (gen (App.field description) (App.field deadline)) = Return v /\
  fst (fst (generate db (Some uid) now description deadline))
  = match App.py_in (u "error") v with
    | Raise e => Raise e
    | Return true => Return (App.Json 200 v)
    | Return false => Raise (App.AttributeError_get v)
    end /\
  (match v with
   | PStr _ | PList _ => True
   | _ => App.py_in (u "error") v
          = Raise (App.TypeError_not_iterable v)
   end) /\
  snd (generate db (Some uid) now description deadline) = db.
Proof.
  intros Hd Hdl Hans Ht Hs Hv Hnd.
  pose proof (gen_parsed _ _ _ _ _ _ _ _ Hans Ht Hs Hv) as Hgen.
  split; [exact Hgen|].
  unfold App.generate. rewrite Hd, Hdl. cbn [orb].
  destruct (gen (App.field description) (App.field deadline)) as [r log].
  cbn [fst] in Hgen. subst r.
  destruct v as [| b | z | f | s | l | items]; try discriminate;
    cbn [App.py_in App.py_get fst snd];
    try (repeat split; reflexivity).
  - destruct (Str.contains (u "error") s); repeat split; reflexivity.
  - destruct (existsb _ l); repeat split; reflexivity.
Qed.

End HandlerClaims.

Lemma C9_witness :
  let answer := u "{" ++ App.q "error" ++ u ": " ++ App.q "quota" ++ u "}" in
  let gc := Scenario.service (Scenario.answers answer) Scenario.unavailable in
  let items := [(u "error", PStr (u "quota"))] in
  (forall m, App.py_in (u "error") (App.error_dict m) = Return true) /\
  fst (App.generate_gemini_timeline gc Json.loads
         Scenario.description Scenario.deadline)
  = Return (PDict items) /\
  fst (fst (App.generate gc Json.loads Json.dumps Scenario.string_titles
              [] (Some 1%nat) 0
              (Some Scenario.description) (Some Scenario.deadline)))
  = Return (App.Json 200 (PDict items)) /\
  snd (App.generate gc Json.loads Json.dumps Scenario.string_titles
         [] (Some 1%nat) 0
         (Some Scenario.description) (Some Scenario.deadline)) = [].
Proof.
  cbv zeta.
  refine (C9_error_key_not_persisted
            (Scenario.service
               (Scenario.answers
                  (u "{" ++ App.q "error" ++ u ": " ++ App.q "quota" ++ u "}"))
               Scenario.unavailable)
            Json.loads Json.dumps Scenario.string_titles
            [] (Some 1%nat) 0
            (Some Scenario.description) (Some Scenario.deadline)
            (App.mkResponse
               (Return (u "{" ++ App.q "error" ++ u ": " ++ App.q "quota" ++ u "}")))
            (u "{" ++ App.q "error" ++ u ": " ++ App.q "quota" ++ u "}")
            (u "{" ++ App.q "error" ++ u ": " ++ App.q "quota" ++ u "}")
            [(u "error", PStr (u "quota"))] _ _ _ _ _ _ _);
    try (vm_compute; reflexivity).
  left. vm_compute; reflexivity.
Defined.

Lemma C10_witness :
  let gc := Scenario.service (Scenario.answers (u "42")) Scenario.unavailable in
  fst (App.generate_gemini_timeline gc Json.loads
         Scenario.description Scenario.deadline)
  = Return (PInt 42) /\
  fst (fst (App.generate gc Json.loads Json.dumps Scenario.string_titles
              [] (Some 1%nat) 0
              (Some Scenario.description) (Some Scenario.deadline)))
  = Raise (Exception (u "argument of type 'int' is not iterable")) /\
  App.py_in (u "error") (PInt 42)
  = Raise (App.TypeError_not_iterable (PInt 42)) /\
  snd (App.generate gc Json.loads Json.dumps Scenario.string_titles
         [] (Some 1%nat) 0
         (Some Scenario.description) (Some Scenario.deadline)) = [].
Proof.
  cbv zeta.
  refine (C10_non_object_result
            (Scenario.service (Scenario.answers (u "42")) Scenario.unavailable)
            Json.loads Json.dumps Scenario.string_titles
            [] 1%nat 0
            (Some Scenario.description) (Some Scenario.deadline)
            (App.mkResponse (Return (u "42"))) (u "42") (u "42") (PInt 42)
            _ _ _ _ _ _ _);
    try (vm_compute; reflexivity).
  left. vm_compute; reflexivity.
Defined.

(** ** The decoder and what follows a value *)

Import Json JsonInv.

Lemma skip_ws_app (s t : str) :
  skip_ws s <> [] -> skip_ws (s ++ t) = skip_ws s ++ t.
Proof.
  induction s as [|c s IH]; simpl; [congruence|].
  destruct (is_ws c); [exact IH | reflexivity].
Qed.

Lemma skip_ws_nil_app (s t : str) :
  skip_ws s = [] -> skip_ws (s ++ t) = skip_ws t.
Proof.
  induction s as [|c s IH]; simpl; [reflexivity|].
  destruct (is_ws c); [exact IH | discriminate].
Qed.

Lemma skip_ws_head (s : str) (c : N) (r : str) :
  skip_ws s = c :: r -> is_ws c = false.
Proof.
  induction s as [|x s IH]; simpl; [discriminate|].
  destruct (is_ws x) eqn:E; [exact IH|]. now intros [= <- <-].
Qed.

Lemma skip_ws_idem (s : str) : skip_ws (skip_ws s) = skip_ws s.
Proof.
  induction s as [|x s IH]; simpl; [reflexivity|].
  destruct (is_ws x) eqn:E; [exact IH|]. simpl. now rewrite E.
Qed.

Lemma stop_not_digit (c : N) : is_stop c = true -> is_digit c = false.
Proof.
  unfold is_stop, is_ws, is_digit. intros H.
  repeat (apply orb_true_iff in H as [H|H]); apply N.eqb_eq in H; subst;
    reflexivity.
Qed.

Lemma span_digits_app (s t : str) :
  stop_head t = true ->
  span_digits (s ++ t) = (fst (span_digits s), snd (span_digits s) ++ t).
Proof.
  intros Ht. induction s as [|c s IH]; simpl.
  - destruct t as [|x t]; [reflexivity|]. simpl in Ht |- *.
    now rewrite (stop_not_digit _ Ht).
  - destruct (is_digit c); [|reflexivity].
    rewrite IH. now destruct (span_digits s).
Qed.

Lemma scan_int_app (s t ip r : str) :
  scan_int s = Some (ip, r) -> stop_head t = true ->
  scan_int (s ++ t) = Some (ip, r ++ t).
Proof.
  intros H Ht. destruct s as [|d s]; [discriminate|]. simpl in *.
  destruct ((49 <=? d) && (d <=? 57)).
  - rewrite (span_digits_app _ _ Ht). destruct (span_digits s).
    now injection H as <- <-.
  - destruct (d =? 48); [|discriminate]. now injection H as <- <-.
Qed.

Lemma scan_frac_app (s t : str) :
  stop_head t = true ->
  scan_frac (s ++ t) = (fst (scan_frac s), snd (scan_frac s) ++ t).
Proof.
  intros Ht. unfold scan_frac.
  destruct s as [|c [|f s]]; simpl.
  - destruct t as [|x [|y t]]; try reflexivity. simpl in Ht.
    destruct (N.eqb_spec x 46) as [->|]; [discriminate|reflexivity].
  - destruct t as [|x t]; [reflexivity|]. simpl in Ht.
    rewrite (stop_not_digit _ Ht). now rewrite andb_false_r.
  - destruct ((c =? 46) && is_digit f); [|reflexivity].
    rewrite (span_digits_app _ _ Ht). now destruct (span_digits s).
Qed.

Lemma stop_not_sign (c : N) :
  is_stop c = true -> (c =? 45) || (c =? 43) = false.
Proof.
  unfold is_stop, is_ws. intros H.
  repeat (apply orb_true_iff in H as [H|H]); apply N.eqb_eq in H; subst;
    reflexivity.
Qed.

Lemma stop_not_e (c : N) :
  is_stop c = true -> (c =? 101) || (c =? 69) = false.
Proof.
  unfold is_stop, is_ws. intros H.
  repeat (apply orb_true_iff in H as [H|H]); apply N.eqb_eq in H; subst;
    reflexivity.
Qed.

Lemma scan_exp_app (s t : str) :
  stop_head t = true ->
  scan_exp (s ++ t) = (fst (scan_exp s), snd (scan_exp s) ++ t).
Proof.
  intros Ht. unfold scan_exp.
  destruct s as [|e s]; simpl.
  - destruct t as [|x t]; [reflexivity|]. simpl in Ht.
    now rewrite (stop_not_e _ Ht).
  - destruct ((e =? 101) || (e =? 69)); [|reflexivity].
    destruct s as [|c s]; cbn [app].
    + destruct t as [|x t]; [reflexivity|]. simpl in Ht.
      rewrite (stop_not_sign _ Ht). simpl.
      now rewrite (stop_not_digit _ Ht).
    + destruct ((c =? 45) || (c =? 43)).
      * rewrite (span_digits_app _ _ Ht).
        destruct (span_digits s) as [[|d ds] r]; reflexivity.
      * change (c :: s ++ t) with ((c :: s) ++ t).
        rewrite (span_digits_app (c :: s) _ Ht).
        destruct (span_digits (c :: s)) as [[|d ds] r]; reflexivity.
Qed.

Lemma match_number_app (s t : str) (v : pyval) (r : str) :
  match_number s = Scanned v r -> stop_head t = true ->
  match_number (s ++ t) = Scanned v (r ++ t).
Proof.
  unfold match_number. intros H Ht.
  assert (Hsign : scan_sign (s ++ t) = (fst (scan_sign s), snd (scan_sign s) ++ t)
                  \/ scan_int (snd (scan_sign s)) = None).
  { destruct s as [|c s]; [right; reflexivity|].
    left. simpl. now destruct (c =? 45). }
  destruct Hsign as [Hsign | Hnone].
  2:{ destruct (scan_sign s) as [sign s1]. simpl in Hnone.
      rewrite Hnone in H. discriminate. }
  rewrite Hsign. destruct (scan_sign s) as [sign s1]. cbn [fst snd].
  destruct (scan_int s1) as [[ip s3]|] eqn:Hint; [|discriminate].
  rewrite (scan_int_app _ _ _ _ Hint Ht).
  rewrite (scan_frac_app _ _ Ht). destruct (scan_frac s3) as [frac s4].
  cbn [fst snd].
  rewrite (scan_exp_app _ _ Ht). destruct (scan_exp s4) as [exp s5].
  cbn [fst snd].
  destruct (frac ++ exp); injection H as <- <-; reflexivity.
Qed.

(** A literal that holds no stop character starts [s ++ t] exactly when it
    starts [s]. *)
Lemma startswith_app_stop (p s t : str) :
  forallb (fun c => negb (is_stop c)) p = true ->
  stop_head t = true ->
  Str.startswith p (s ++ t) = Str.startswith p s.
Proof.
  intros Hp Ht. revert s; induction p as [|a p IH]; intros s; simpl.
  - reflexivity.
  - simpl in Hp. apply andb_true_iff in Hp as [Ha Hp].
    destruct s as [|b s]; simpl.
    + destruct t as [|x t]; [reflexivity|]. simpl in Ht.
      destruct (N.eqb_spec a x) as [->|]; [|reflexivity].
      rewrite Ht in Ha. discriminate.
    + now rewrite IH.
Qed.

Lemma skipn_startswith_app (p s t : str) :
  Str.startswith p s = true ->
  skipn (length p) (s ++ t) = skipn (length p) s ++ t.
Proof.
  intros H. apply startswith_length in H.
  rewrite skipn_app. replace (length p - length s)%nat with O by lia.
  reflexivity.
Qed.

(** One step of [scanstring]. *)
Lemma scanstring_cons (b : str) (c : N) (s1 : str) :
  scanstring b (c :: s1) =
  if c =? 34 then Scanned [] s1
  else if c =? 92 then
    match s1 with
    | [] => Fail (u "Unterminated string starting at") b
    | e :: s2 =>
        if e =? 117 then
          match read_hex4 s2 with
          | None => Fail (u "Invalid \uXXXX escape") s1
          | Some (uni, s6) =>
              if is_high uni then
                match lookahead s6 with
                | Pair uni2 s12 =>
                    if is_low uni2
                    then scan_map (cons (join_surrogates uni uni2))
                                  (scanstring b s12)
                    else scan_map (cons uni) (scanstring b s6)
                | BadPair r => Fail (u "Invalid \uXXXX escape") r
                | NoPair => scan_map (cons uni) (scanstring b s6)
                end
              else scan_map (cons uni) (scanstring b s6)
          end
        else
          match backslash e with
          | Some c' => scan_map (cons c') (scanstring b s2)
          | None => Fail (u "Invalid \escape") (c :: s1)
          end
    end
  else if c <=? 31 then Fail (u "Invalid control character at") (c :: s1)
  else scan_map (cons c) (scanstring b s1).
Proof.
  cbn [scanstring].
  destruct (c =? 34); [reflexivity|].
  destruct (c =? 92); [|reflexivity].
  destruct s1 as [|e s2]; [reflexivity|].
  destruct (e =? 117); [|reflexivity].
  destruct s2 as [|h1 [|h2 [|h3 [|h4 [|x s6]]]]]; try reflexivity.
  cbn [read_hex4].
  destruct (hex4 h1 h2 h3 h4) as [uni|]; [|reflexivity].
  destruct (is_high uni); [|reflexivity].
  destruct s6 as [|v [|g1 [|g2 [|g3 [|g4 [|y s12]]]]]]; try reflexivity.
  cbn [lookahead].
  destruct ((x =? 92) && (v =? 117)); [|reflexivity].
  destruct (hex4 g1 g2 g3 g4); reflexivity.
Qed.

Lemma scan_map_Scanned {A B} (f : A -> B) (x : scan A) (b : B) (r : str) :
  scan_map f x = Scanned b r -> exists a, x = Scanned a r /\ b = f a.
Proof.
  destruct x as [a r'| | |]; simpl; try discriminate.
  intros [= <- <-]. now exists a.
Qed.

Lemma read_hex4_inv (s r : str) (uni : N) :
  read_hex4 s = Some (uni, r) ->
  exists h1 h2 h3 h4,
    s = h1 :: h2 :: h3 :: h4 :: r /\ hex4 h1 h2 h3 h4 = Some uni /\ r <> [].
Proof.
  destruct s as [|h1 [|h2 [|h3 [|h4 [|x s6]]]]]; try discriminate. simpl.
  destruct (hex4 h1 h2 h3 h4) as [n|] eqn:E; [|discriminate].
  intros [= <- <-]. exists h1, h2, h3, h4. repeat split; congruence.
Qed.

Lemma read_hex4_app (s t r : str) (uni : N) :
  read_hex4 s = Some (uni, r) -> read_hex4 (s ++ t) = Some (uni, r ++ t).
Proof.
  intros H. destruct (read_hex4_inv _ _ _ H) as (h1 & h2 & h3 & h4 & -> & E & Hr).
  destruct r as [|x r]; [congruence|]. simpl. now rewrite E.
Qed.

Lemma lookahead_Pair_inv (s r : str) (uni2 : N) :
  lookahead s = Pair uni2 r ->
  exists g1 g2 g3 g4,
    s = 92 :: 117 :: g1 :: g2 :: g3 :: g4 :: r /\
    hex4 g1 g2 g3 g4 = Some uni2 /\ r <> [].
Proof.
  destruct s as [|b [|v [|g1 [|g2 [|g3 [|g4 [|y s12]]]]]]]; try discriminate.
  simpl. destruct (N.eqb_spec b 92) as [->|]; [|discriminate].
  destruct (N.eqb_spec v 117) as [->|]; [|discriminate]. simpl.
  destruct (hex4 g1 g2 g3 g4) as [n|] eqn:E; [|discriminate].
  intros [= <- <-]. exists g1, g2, g3, g4. repeat split; congruence.
Qed.

Lemma lookahead_Pair_app (s t r : str) (uni2 : N) :
  lookahead s = Pair uni2 r -> lookahead (s ++ t) = Pair uni2 (r ++ t).
Proof.
  intros H.
  destruct (lookahead_Pair_inv _ _ _ H) as (g1 & g2 & g3 & g4 & -> & E & Hr).
  destruct r as [|x r]; [congruence|]. simpl. now rewrite E.
Qed.

Lemma lookahead_not_backslash (x : N) (s : str) :
  x <> 92 -> lookahead (x :: s) = NoPair.
Proof.
  intros Hx. destruct s as [|v [|g1 [|g2 [|g3 [|g4 [|y s12]]]]]];
    try reflexivity.
  cbn [lookahead]. destruct (N.eqb_spec x 92); [congruence | reflexivity].
Qed.

Lemma lookahead_not_u (x v : N) (s : str) :
  v <> 117 -> lookahead (x :: v :: s) = NoPair.
Proof.
  intros Hv. destruct s as [|g1 [|g2 [|g3 [|g4 [|y s12]]]]]; try reflexivity.
  cbn [lookahead]. destruct (N.eqb_spec v 117); [congruence|].
  now rewrite andb_false_r.
Qed.

(** When no second escape is read after a high surrogate and the string still
    scans, none is read either with more text after it. *)
Lemma lookahead_NoPair_app (b s t a r : str) :
  lookahead s = NoPair -> scanstring b s = Scanned a r ->
  lookahead (s ++ t) = NoPair.
Proof.
  intros Hl Hs.
  destruct s as [|x s]; [discriminate|].
  rewrite scanstring_cons in Hs. cbn [app].
  destruct (N.eqb_spec x 92) as [->|Hx];
    [|now apply lookahead_not_backslash].
  destruct s as [|v s]; [discriminate|]. cbn [app].
  destruct (N.eqb_spec v 117) as [->|Hv]; [|now apply lookahead_not_u].
  destruct (read_hex4 s) as [[uni s6]|] eqn:E; [|discriminate].
  destruct (read_hex4_inv _ _ _ E) as (h1 & h2 & h3 & h4 & -> & E' & Hr).
  destruct s6 as [|y s6]; [congruence|].
  cbn [lookahead N.eqb Pos.eqb andb] in Hl. rewrite E' in Hl. discriminate.
Qed.

(** What a string scan returns does not depend on the text after the closing
    quote. *)
Lemma scanstring_app (t : str) (n : nat) :
  forall b b' s a r,
    (length s <= n)%nat ->
    scanstring b s = Scanned a r ->
    scanstring b' (s ++ t) = Scanned a (r ++ t).
Proof.
  induction n as [|n IH]; intros b b' s a r Hlen H.
  - destruct s; [discriminate | simpl in Hlen; lia].
  - destruct s as [|c s1]; [discriminate|].
    cbn [app]. rewrite scanstring_cons in H |- *. simpl in Hlen.
    assert (step : forall f s' a' r',
               (length s' <= n)%nat ->
               scan_map (cons f) (scanstring b s') = Scanned a' r' ->
               scan_map (cons f) (scanstring b' (s' ++ t))
               = Scanned a' (r' ++ t)).
    { intros f s' a' r' Hl Hm.
      destruct (scan_map_Scanned _ _ _ _ Hm) as (a0 & E & ->).
      now rewrite (IH _ b' _ _ _ Hl E). }
    destruct (c =? 34); [now injection H as <- <-|].
    destruct (c =? 92).
    + destruct s1 as [|e s2]; [discriminate|]. cbn [app]. simpl in Hlen.
      destruct (e =? 117).
      * destruct (read_hex4 s2) as [[uni s6]|] eqn:E; [|discriminate].
        rewrite (read_hex4_app _ t _ _ E).
        destruct (read_hex4_inv _ _ _ E) as (h1 & h2 & h3 & h4 & -> & _ & _).
        simpl in Hlen.
        destruct (is_high uni); [|apply step; [lia|exact H]].
        destruct (lookahead s6) as [|bad|uni2 s12] eqn:L.
        -- destruct (scan_map_Scanned _ _ _ _ H) as (a0 & E0 & ->).
           rewrite (lookahead_NoPair_app _ _ t _ _ L E0).
           apply step; [lia|]. now rewrite E0.
        -- discriminate.
        -- rewrite (lookahead_Pair_app _ t _ _ L).
           destruct (lookahead_Pair_inv _ _ _ L)
             as (g1 & g2 & g3 & g4 & -> & _ & _).
           simpl in Hlen.
           destruct (is_low uni2); apply step; try exact H; simpl; lia.
      * destruct (backslash e); [|discriminate]. apply step; [lia|exact H].
    + destruct (c <=? 31); [discriminate|]. apply step; [lia|exact H].
Qed.

(** One step of the three scanners. *)
Lemma scan_once_S (fuel : nat) (s : str) :
  scan_once (S fuel) s =
  match s with
  | [] => Stop s
  | c :: s' =>
      if c =? 34 then scan_map PStr (scanstring s s')
      else if c =? 123 then
        match skip_ws s' with
        | c1 :: r =>
            if c1 =? 125 then Scanned (PDict []) r
            else scan_map PDict (object_loop fuel [] (c1 :: r))
        | [] => scan_map PDict (object_loop fuel [] [])
        end
      else if c =? 91 then
        match skip_ws s' with
        | c1 :: r =>
            if c1 =? 93 then Scanned (PList []) r
            else scan_map PList (array_loop fuel (c1 :: r))
        | [] => scan_map PList (array_loop fuel [])
        end
      else scan_atom s
  end.
Proof. reflexivity. Qed.

Lemma array_loop_S (fuel : nat) (s : str) :
  array_loop (S fuel) s =
  match scan_once fuel s with
  | Scanned v r =>
      match skip_ws r with
      | c :: r' =>
          if c =? 93 then Scanned [v] r'
          else if c =? 44
               then scan_map (cons v) (array_loop fuel (skip_ws r'))
               else Fail (u "Expecting ',' delimiter") (c :: r')
      | [] => Fail (u "Expecting ',' delimiter") []
      end
  | Fail m r => Fail m r
  | Stop r => Stop r
  | OutOfFuel => OutOfFuel
  end.
Proof. reflexivity. Qed.

Lemma object_loop_S (fuel : nat) (d : list (str * pyval)) (s : str) :
  object_loop (S fuel) d s =
  match s with
  | c :: s1 =>
      if c =? 34 then
        match scanstring s s1 with
        | Scanned key r =>
            match skip_ws r with
            | c1 :: r1 =>
                if c1 =? 58 then
                  match scan_once fuel (skip_ws r1) with
                  | Scanned v r2 =>
                      match skip_ws r2 with
                      | c2 :: r3 =>
                          if c2 =? 125 then Scanned (dict_set key v d) r3
                          else if c2 =? 44
                               then object_loop fuel (dict_set key v d)
                                                (skip_ws r3)
                               else Fail (u "Expecting ',' delimiter")
                                         (c2 :: r3)
                      | [] => Fail (u "Expecting ',' delimiter") []
                      end
                  | Fail m r2 => Fail m r2
                  | Stop r2 => Stop r2
                  | OutOfFuel => OutOfFuel
                  end
                else Fail (u "Expecting ':' delimiter") (c1 :: r1)
            | [] => Fail (u "Expecting ':' delimiter") []
            end
        | Fail m r => Fail m r
        | Stop r => Stop r
        | OutOfFuel => OutOfFuel
        end
      else Fail (u "Expecting property name enclosed in double quotes") s
  | [] => Fail (u "Expecting property name enclosed in double quotes") s
  end.
Proof. reflexivity. Qed.

Lemma scan_atom_app (s t : str) (v : pyval) (r : str) :
  scan_atom s = Scanned v r -> stop_head t = true ->
  scan_atom (s ++ t) = Scanned v (r ++ t).
Proof.
  unfold scan_atom. intros H Ht.
  repeat
    (match goal with
     | |- context [Str.startswith ?p (s ++ t)] =>
         rewrite (startswith_app_stop p s t eq_refl Ht);
         destruct (Str.startswith p s) eqn:?;
         [injection H as <- <-; f_equal;
          now apply (skipn_startswith_app p) |]
     end).
  now apply match_number_app.
Qed.

(** A scanner that stops never had a value: no value is scanned from the
    empty text. *)
Lemma scan_once_nil (fuel : nat) (v : pyval) (r : str) :
  scan_once fuel [] <> Scanned v r.
Proof. destruct fuel; discriminate. Qed.

Lemma array_loop_nil (fuel : nat) (vs : list pyval) (r : str) :
  array_loop fuel [] <> Scanned vs r.
Proof.
  destruct fuel as [|fuel]; [discriminate|].
  rewrite array_loop_S. destruct fuel; discriminate.
Qed.

Lemma object_loop_nil (fuel : nat) (d kv : list (str * pyval)) (r : str) :
  object_loop fuel d [] <> Scanned kv r.
Proof. destruct fuel; discriminate. Qed.

Lemma skip_ws_cons_app (s t : str) (c : N) (r : str) :
  skip_ws s = c :: r -> skip_ws (s ++ t) = c :: r ++ t.
Proof.
  intros H. rewrite skip_ws_app by congruence. now rewrite H.
Qed.

(** What the scanners return does not depend on the text after the value, as
    long as that text starts with something that may follow a value. *)
Lemma scan_app (t : str) :
  stop_head t = true ->
  forall fuel,
    (forall s v r,
        scan_once fuel s = Scanned v r ->
        scan_once fuel (s ++ t) = Scanned v (r ++ t)) /\
    (forall s vs r,
        array_loop fuel s = Scanned vs r ->
        array_loop fuel (s ++ t) = Scanned vs (r ++ t)) /\
    (forall d s kv r,
        object_loop fuel d s = Scanned kv r ->
        object_loop fuel d (s ++ t) = Scanned kv (r ++ t)).
Proof.
  intros Ht. induction fuel as [|fuel (IHs & IHa & IHo)].
  { repeat split; intros; discriminate. }
  repeat split.
  - intros s v r H. rewrite scan_once_S in H |- *.
    destruct s as [|c s']; [discriminate|]. cbn [app].
    destruct (c =? 34).
    { destruct (scan_map_Scanned _ _ _ _ H) as (a & E & ->).
      change (c :: s' ++ t) with ((c :: s') ++ t) at 1.
      now rewrite (scanstring_app t _ _ ((c :: s') ++ t) _ _ _ (Nat.le_refl _) E). }
    destruct (c =? 123).
    { destruct (skip_ws s') as [|c1 r1] eqn:W.
      - destruct (scan_map_Scanned _ _ _ _ H) as (a & E & _).
        now apply object_loop_nil in E.
      - rewrite (skip_ws_cons_app _ t _ _ W).
        destruct (c1 =? 125); [now injection H as <- <-|].
        destruct (scan_map_Scanned _ _ _ _ H) as (a & E & ->).
        change (c1 :: r1 ++ t) with ((c1 :: r1) ++ t).
        now rewrite (IHo _ _ _ _ E). }
    destruct (c =? 91).
    { destruct (skip_ws s') as [|c1 r1] eqn:W.
      - destruct (scan_map_Scanned _ _ _ _ H) as (a & E & _).
        now apply array_loop_nil in E.
      - rewrite (skip_ws_cons_app _ t _ _ W).
        destruct (c1 =? 93); [now injection H as <- <-|].
        destruct (scan_map_Scanned _ _ _ _ H) as (a & E & ->).
        change (c1 :: r1 ++ t) with ((c1 :: r1) ++ t).
        now rewrite (IHa _ _ _ E). }
    change (c :: s' ++ t) with ((c :: s') ++ t).
    now apply scan_atom_app.
  - intros s vs r H. rewrite array_loop_S in H |- *.
    destruct (scan_once fuel s) as [v r0| | |] eqn:E; try discriminate.
    rewrite (IHs _ _ _ E).
    destruct (skip_ws r0) as [|c r'] eqn:W; [discriminate|].
    rewrite (skip_ws_cons_app _ t _ _ W).
    destruct (c =? 93); [now injection H as <- <-|].
    destruct (c =? 44); [|discriminate].
    destruct (scan_map_Scanned _ _ _ _ H) as (a & E' & ->).
    destruct (skip_ws r') as [|c2 r2] eqn:W2.
    { now apply array_loop_nil in E'. }
    rewrite (skip_ws_cons_app _ t _ _ W2).
    change (c2 :: r2 ++ t) with ((c2 :: r2) ++ t).
    now rewrite (IHa _ _ _ E').
  - intros d s kv r H. rewrite object_loop_S in H |- *.
    destruct s as [|c s1]; [discriminate|]. cbn [app].
    destruct (c =? 34); [|discriminate].
    destruct (scanstring (c :: s1) s1) as [key r0| | |] eqn:E;
      try discriminate.
    rewrite (scanstring_app t _ _ (c :: s1 ++ t) _ _ _ (Nat.le_refl _) E).
    destruct (skip_ws r0) as [|c1 r1] eqn:W; [discriminate|].
    rewrite (skip_ws_cons_app _ t _ _ W).
    destruct (c1 =? 58); [|discriminate].
    destruct (scan_once fuel (skip_ws r1)) as [v r2| | |] eqn:E2;
      try discriminate.
    destruct (skip_ws r1) as [|c3 r3] eqn:W3.
    { now apply scan_once_nil in E2. }
    rewrite (skip_ws_cons_app _ t _ _ W3).
    change (c3 :: r3 ++ t) with ((c3 :: r3) ++ t).
    rewrite (IHs _ _ _ E2).
    destruct (skip_ws r2) as [|c2 r4] eqn:W4; [discriminate|].
    rewrite (skip_ws_cons_app _ t _ _ W4).
    destruct (c2 =? 125); [now injection H as <- <-|].
    destruct (c2 =? 44); [|discriminate].
    destruct (skip_ws r4) as [|c5 r5] eqn:W5.
    { now apply object_loop_nil in H. }
    rewrite (skip_ws_cons_app _ t _ _ W5).
    change (c5 :: r5 ++ t) with ((c5 :: r5) ++ t).
    now apply IHo.
Qed.

(** More fuel does not change a value that was scanned. *)
Lemma scan_fuel_S :
  forall fuel,
    (forall s v r,
        scan_once fuel s = Scanned v r -> scan_once (S fuel) s = Scanned v r) /\
    (forall s vs r,
        array_loop fuel s = Scanned vs r ->
        array_loop (S fuel) s = Scanned vs r) /\
    (forall d s kv r,
        object_loop fuel d s = Scanned kv r ->
        object_loop (S fuel) d s = Scanned kv r).
Proof.
  induction fuel as [|fuel (IHs & IHa & IHo)].
  { repeat split; intros; discriminate. }
  repeat split.
  - intros s v r H. rewrite scan_once_S in H. rewrite scan_once_S.
    destruct s as [|c s']; [discriminate|].
    destruct (c =? 34); [exact H|].
    destruct (c =? 123).
    { destruct (skip_ws s') as [|c1 r1]; [|destruct (c1 =? 125); [exact H|]];
        destruct (scan_map_Scanned _ _ _ _ H) as (a & E & ->);
        now rewrite (IHo _ _ _ _ E). }
    destruct (c =? 91); [|exact H].
    destruct (skip_ws s') as [|c1 r1]; [|destruct (c1 =? 93); [exact H|]];
      destruct (scan_map_Scanned _ _ _ _ H) as (a & E & ->);
      now rewrite (IHa _ _ _ E).
  - intros s vs r H. rewrite array_loop_S in H. rewrite array_loop_S.
    destruct (scan_once fuel s) as [v r0| | |] eqn:E; try discriminate.
    rewrite (IHs _ _ _ E).
    destruct (skip_ws r0) as [|c r']; [discriminate|].
    destruct (c =? 93); [exact H|].
    destruct (c =? 44); [|discriminate].
    destruct (scan_map_Scanned _ _ _ _ H) as (a & E' & ->).
    now rewrite (IHa _ _ _ E').
  - intros d s kv r H. rewrite object_loop_S in H. rewrite object_loop_S.
    destruct s as [|c s1]; [discriminate|].
    destruct (c =? 34); [|discriminate].
    destruct (scanstring (c :: s1) s1) as [key r0| | |]; try discriminate.
    destruct (skip_ws r0) as [|c1 r1]; [discriminate|].
    destruct (c1 =? 58); [|discriminate].
    destruct (scan_once fuel (skip_ws r1)) as [v r2| | |] eqn:E2;
      try discriminate.
    rewrite (IHs _ _ _ E2).
    destruct (skip_ws r2) as [|c2 r4]; [discriminate|].
    destruct (c2 =? 125); [exact H|].
    destruct (c2 =? 44); [|discriminate].
    now apply IHo.
Qed.

Lemma scan_once_fuel_le (fuel fuel' : nat) (s : str) (v : pyval) (r : str) :
  (fuel <= fuel')%nat ->
  scan_once fuel s = Scanned v r -> scan_once fuel' s = Scanned v r.
Proof.
  induction 1 as [|m Hle IH]; [trivial|].
  intros H. apply (proj1 (scan_fuel_S m)). now apply IH.
Qed.

Lemma loads_Parsed (s : str) (v : pyval) :
  loads s = Parsed v <->
  Str.startswith [0xfeff] s = false /\
  exists r, scan_once (S (2 * length s)) (skip_ws s) = Scanned v r /\
            skip_ws r = [].
Proof.
  unfold loads, decode. split.
  - destruct (Str.startswith [0xfeff] s); [discriminate|].
    intros H. split; [reflexivity|].
    destruct (scan_once (S (2 * length s)) (skip_ws s)) as [v' r| | |];
      try discriminate.
    exists r. destruct (skip_ws r); [|discriminate].
    injection H as <-. now split.
  - intros (-> & r & -> & ->). reflexivity.
Qed.

Lemma forallb_ws_skip (w : str) : forallb is_ws w = true -> skip_ws w = [].
Proof.
  induction w as [|c w IH]; simpl; [reflexivity|].
  intros H. apply andb_true_iff in H as [-> H]. now apply IH.
Qed.

(** White space around a document does not change what it parses to. *)
Lemma loads_ws (w1 body w2 : str) (v : pyval) :
  forallb is_ws w1 = true -> forallb is_ws w2 = true ->
  loads body = Parsed v -> loads (w1 ++ body ++ w2) = Parsed v.
Proof.
  intros H1 H2 H. apply loads_Parsed in H as (Hbom & r & Hscan & Hr).
  apply loads_Parsed.
  assert (Hne : skip_ws body <> []).
  { intros E. rewrite E in Hscan. discriminate. }
  split.
  - destruct w1 as [|c w1].
    + destruct body as [|b body]; [now elim Hne|].
      cbn [app Str.startswith] in Hbom |- *.
      now destruct (65279 =? b).
    + cbn [forallb] in H1. apply andb_true_iff in H1 as [Hc _].
      cbn [app Str.startswith].
      destruct (N.eqb_spec 65279 c) as [<-|]; [discriminate|reflexivity].
  - exists (r ++ w2). split.
    + rewrite (skip_ws_nil_app w1) by now apply forallb_ws_skip.
      rewrite skip_ws_app by exact Hne.
      apply (proj1 (scan_app w2 ltac:(
               destruct w2 as [|c w2]; [reflexivity|];
               simpl in H2 |- *; apply andb_true_iff in H2 as [Hc _];
               unfold is_stop; now rewrite Hc) _)).
      eapply scan_once_fuel_le; [|exact Hscan].
      rewrite !length_app. lia.
    + rewrite (skip_ws_nil_app r) by exact Hr. now apply forallb_ws_skip.
Qed.

(** ** Claim on fenced and unfenced answers *)

(** Text that holds no json marker, put before one, does not move its first
    occurrence. *)
Lemma find_fence_json_after (pre rest : str) :
  Str.contains App.fence_json pre = false ->
  Str.find App.fence_json (pre ++ App.fence_json ++ rest) = Some (length pre).
Proof.
  induction pre as [|c p IH]; intros H; [reflexivity|].
  apply contains_false in H.
  cbn [Str.find] in H.
  destruct (Str.startswith App.fence_json (c :: p)) eqn:E; [discriminate|].
  destruct (Str.find App.fence_json p) eqn:F; [discriminate|].
  cbn [app Str.find].
  assert (E' : Str.startswith App.fence_json
                 (c :: p ++ App.fence_json ++ rest) = false).
  { clear - E. unfold App.fence_json, u in *. cbn [String.list_ascii_of_string List.map] in *.
    change (N_of_ascii "`") with 96 in *.
    change (N_of_ascii "j") with 106 in *.
    change (N_of_ascii "s") with 115 in *.
    change (N_of_ascii "o") with 111 in *.
    change (N_of_ascii "n") with 110 in *.
    destruct p as [|p0 [|p1 [|p2 [|p3 [|p4 [|p5 p']]]]]];
      cbn [Str.startswith app] in E |- *;
      try exact E;
      change (106 =? 96) with false; change (115 =? 96) with false;
      change (111 =? 96) with false; change (110 =? 96) with false;
      cbn [andb]; now rewrite ?andb_false_r. }
  rewrite E'. rewrite IH; [reflexivity|].
  now apply contains_false.
Qed.

(** A body that holds no fence, between two newlines: the fence after it is
    the first one. *)
Lemma find_fence_after_nl (body post : str) :
  Str.contains App.fence body = false ->
  Str.find App.fence (body ++ 10 :: App.fence ++ post)
  = Some (S (length body)).
Proof.
  induction body as [|c b IH]; intros H; [reflexivity|].
  apply contains_false in H. cbn [Str.find] in H.
  destruct (Str.startswith App.fence (c :: b)) eqn:E; [discriminate|].
  destruct (Str.find App.fence b) eqn:F; [discriminate|].
  cbn [app Str.find].
  assert (E' : Str.startswith App.fence
                 (c :: b ++ 10 :: App.fence ++ post) = false).
  { clear - E. unfold App.fence, u in *.
    cbn [String.list_ascii_of_string List.map] in *.
    change (N_of_ascii "`") with 96 in *.
    destruct b as [|b0 [|b1 b']];
      cbn [Str.startswith app] in E |- *;
      try exact E;
      change (96 =? 10) with false; cbn [andb]; now rewrite ?andb_false_r. }
  rewrite E'. rewrite IH; [reflexivity|].
  now apply contains_false.
Qed.

Lemma strip_fenced_body (prefix body suffix : str) :
  Str.contains App.fence body = false ->
  Str.contains App.fence_json prefix = false ->
  hd_error suffix <> Some 96 ->
  App.strip_fences
    (prefix ++ App.fence_json ++ nl ++ body ++ nl ++ App.fence ++ suffix)
  = Return (nl ++ body ++ nl).
Proof.
  intros Hb Hp Hs.
  replace (prefix ++ App.fence_json ++ nl ++ body ++ nl ++ App.fence ++ suffix)
    with (prefix ++ App.fence_json ++ (nl ++ body ++ nl) ++ App.fence ++ suffix)
    by (now rewrite <- !app_assoc).
  apply strip_block.
  - now apply find_fence_json_after.
  - rewrite <- !app_assoc.
    change (nl ++ body ++ nl ++ App.fence ++ suffix)
      with (10 :: body ++ 10 :: App.fence ++ suffix).
    cbn [Str.find].
    change (Str.startswith App.fence (10 :: body ++ 10 :: App.fence ++ suffix))
      with false. cbv iota.
    rewrite (find_fence_after_nl _ _ Hb). cbn [option_map].
    f_equal. change (nl ++ body ++ nl) with (10 :: body ++ [10]).
    cbn [length]. rewrite length_app. simpl. lia.
  - exact Hs.
Qed.

(** C5 as stated fails: a body that holds a fence inside a string is cut
    there. *)
Lemma C5_counterexample :
  let body := u "{" ++ App.q "a" ++ u ":" ++ App.q "```" ++ u "}" in
  let text := u "Here you go: " ++ App.fence_json ++ nl ++ body ++ nl
                ++ App.fence ++ u " Enjoy!" in
  Json.loads body = Parsed (PDict [(u "a", PStr (u "```"))]) /\
  App.strip_fences text = Return (nl ++ u "{" ++ App.q "a" ++ u ":" ++ dq) /\
  App.extract_json Json.loads (App.mkResponse (Return text))
  = (Raise (Exception
              (u "Unterminated string starting at: line 2 column 6 (char 6)")),
     []) /\
  App.extract_json Json.loads (App.mkResponse (Return text))
  <> App.lift (App.loads Json.loads body).
Proof.
  cbv zeta. repeat split; try (vm_compute; reflexivity).
  vm_compute. discriminate.
Qed.

(** C5, as amended. For a body that parses and holds no fence, a prefix that
    holds no json marker and a suffix that does not start with a backtick,
    the answer [prefix```json\nbody\n```suffix] parses to what the body parses
    to; and an answer that holds no fence parses as the raw text does. *)
Theorem C5_fence_stripping_transparent
        (prefix body suffix : str) (v : pyval) :
  Json.loads body = Parsed v ->
  Str.contains App.fence body = false ->
  Str.contains App.fence_json prefix = false ->
  hd_error suffix <> Some 96 ->
  App.extract_json Json.loads
    (App.mkResponse
       (Return (prefix ++ App.fence_json ++ nl ++ body ++ nl
                  ++ App.fence ++ suffix)))
  = App.lift (App.loads Json.loads body) /\
  App.lift (App.loads Json.loads body) = (Return v, []) /\
  forall text,
    Str.contains App.fence text = false ->
    App.extract_json Json.loads (App.mkResponse (Return text))
    = App.lift (App.loads Json.loads text).
Proof.
  intros Hv Hb Hp Hs.
  assert (Hbody : App.lift (App.loads Json.loads body) = (Return v, []))
    by (unfold App.lift, App.loads; now rewrite Hv).
  repeat split.
  - rewrite Hbody.
    unfold App.extract_json, App.lift, App.text. cbn [App.bind].
    rewrite (strip_fenced_body _ _ _ Hb Hp Hs). cbn [App.bind app].
    unfold App.loads.
    rewrite (loads_ws nl body nl v eq_refl eq_refl Hv). reflexivity.
  - exact Hbody.
  - intros text Ht.
    unfold App.extract_json, App.lift, App.text. cbn [App.bind].
    rewrite (strip_fences_no_fence _ Ht). cbn [App.bind app].
    now destruct (App.loads Json.loads text).
Qed.

Lemma C5_witness :
  App.extract_json Json.loads
    (App.mkResponse
       (Return (u "Here you go: " ++ App.fence_json ++ nl ++ Scenario.plan_json
                  ++ nl ++ App.fence ++ u " Enjoy!")))
  = App.lift (App.loads Json.loads Scenario.plan_json) /\
  App.lift (App.loads Json.loads Scenario.plan_json)
  = (Return Scenario.plan, []) /\
  forall text,
    Str.contains App.fence text = false ->
    App.extract_json Json.loads (App.mkResponse (Return text))
    = App.lift (App.loads Json.loads text).
Proof.
  refine (C5_fence_stripping_transparent
            (u "Here you go: ") Scenario.plan_json (u " Enjoy!") Scenario.plan
            _ _ _ _);
    try (vm_compute; reflexivity).
  vm_compute. discriminate.
Defined.

(** ** Arithmetic of escapes *)

Lemma lor_shiftl_add (a b k : N) :
  b < 2 ^ k -> N.lor (N.shiftl a k) b = a * 2 ^ k + b.
Proof.
  intros Hb. rewrite N.shiftl_mul_pow2.
  assert (Hland : N.land (a * 2 ^ k) b = 0).
  { apply N.bits_inj. intros n. rewrite N.land_spec, N.bits_0.
    destruct (N.lt_ge_cases n k) as [Hn|Hn].
    - now rewrite N.mul_pow2_bits_low.
    - destruct (N.eq_dec b 0) as [->|Hb0]; [now rewrite N.bits_0, andb_false_r|].
      rewrite (N.bits_above_log2 b n), andb_false_r; [reflexivity|].
      apply N.log2_lt_pow2; [lia|].
      eapply N.lt_le_trans; [exact Hb|]. now apply N.pow_le_mono_r. }
  rewrite <- N.lxor_lor by exact Hland.
  symmetry. now apply N.add_nocarry_lxor.
Qed.

Lemma hexval_hexdigit (d : N) : d < 16 -> hexval (hexdigit d) = Some d.
Proof.
  intros H. unfold hexdigit, hexval.
  destruct (N.ltb_spec d 10).
  - replace ((48 <=? 48 + d) && (48 + d <=? 57)) with true
      by (symmetry; apply andb_true_iff; split; apply N.leb_le; lia).
    f_equal. lia.
  - replace ((48 <=? 87 + d) && (87 + d <=? 57)) with false
      by (symmetry; apply andb_false_iff; right; apply N.leb_gt; lia).
    replace ((97 <=? 87 + d) && (87 + d <=? 102)) with true
      by (symmetry; apply andb_true_iff; split; apply N.leb_le; lia).
    f_equal. lia.
Qed.

Lemma hex4_value (x y z w : N) :
  x < 16 -> y < 16 -> z < 16 -> w < 16 ->
  fold_left (fun acc h => N.lor (N.shiftl acc 4) h) [x; y; z; w] 0
  = x * 4096 + y * 256 + z * 16 + w.
Proof.
  intros Hx Hy Hz Hw. cbn [fold_left].
  rewrite (lor_shiftl_add 0 x 4) by (change (2 ^ 4) with 16; lia).
  rewrite (lor_shiftl_add _ y 4) by (change (2 ^ 4) with 16; lia).
  rewrite (lor_shiftl_add _ z 4) by (change (2 ^ 4) with 16; lia).
  rewrite (lor_shiftl_add _ w 4) by (change (2 ^ 4) with 16; lia).
  change (2 ^ 4) with 16. lia.
Qed.

Lemma hex4_lt (a b c d n : N) : hex4 a b c d = Some n -> n < 0x10000.
Proof.
  unfold hex4.
  assert (Hv : forall c v, hexval c = Some v -> v < 16).
  { intros c0 v. unfold hexval.
    destruct ((48 <=? c0) && (c0 <=? 57)) eqn:E1.
    { apply andb_true_iff in E1 as [E1 E2].
      apply N.leb_le in E1, E2. intros [= <-]. lia. }
    destruct ((97 <=? c0) && (c0 <=? 102)) eqn:E2.
    { apply andb_true_iff in E2 as [E2 E3].
      apply N.leb_le in E2, E3. intros [= <-]. lia. }
    destruct ((65 <=? c0) && (c0 <=? 70)) eqn:E3; [|discriminate].
    apply andb_true_iff in E3 as [E3 E4].
    apply N.leb_le in E3, E4. intros [= <-]. lia. }
  destruct (hexval a) as [x|] eqn:Ea; [|discriminate].
  destruct (hexval b) as [y|] eqn:Eb; [|discriminate].
  destruct (hexval c) as [z|] eqn:Ec; [|discriminate].
  destruct (hexval d) as [w|] eqn:Ed; [|discriminate].
  pose proof (Hv _ _ Ea). pose proof (Hv _ _ Eb).
  pose proof (Hv _ _ Ec). pose proof (Hv _ _ Ed).
  rewrite hex4_value by assumption.
  intros [= <-]. lia.
Qed.

(** The four digits of an escape read back as the number they print. *)
Lemma hex4_u_escape (n : N) :
  n < 0x10000 ->
  hex4 (hexdigit (n / 4096 mod 16)) (hexdigit (n / 256 mod 16))
       (hexdigit (n / 16 mod 16)) (hexdigit (n mod 16)) = Some n.
Proof.
  intros Hn. unfold hex4.
  rewrite !hexval_hexdigit by (apply N.mod_lt; discriminate).
  rewrite hex4_value by (apply N.mod_lt; discriminate).
  f_equal.
  pose proof (N.Div0.div_mod n 16) as E0.
  pose proof (N.Div0.div_mod (n / 16) 16) as E1.
  pose proof (N.Div0.div_mod (n / 16 / 16) 16) as E2.
  rewrite !N.Div0.div_div in E1, E2. change (16 * 16) with 256 in *.
  rewrite N.Div0.div_div in E2. change (256 * 16) with 4096 in *.
  assert (n / 4096 < 16) by (apply N.Div0.div_lt_upper_bound; lia).
  rewrite (N.mod_small (n / 4096) 16) by assumption.
  pose proof (N.mod_lt n 16 ltac:(discriminate)).
  pose proof (N.mod_lt (n / 16) 16 ltac:(discriminate)).
  pose proof (N.mod_lt (n / 256) 16 ltac:(discriminate)).
  lia.
Qed.

(** A character beyond the basic plane splits into a high and a low surrogate
    that join back into it. *)
Lemma surrogates_join (c : N) :
  0x10000 <= c -> c < 0x110000 ->
  let n := c - 0x10000 in
  let s1 := N.lor 0xd800 (N.land (N.shiftr n 10) 0x3ff) in
  let s2 := N.lor 0xdc00 (N.land n 0x3ff) in
  is_high s1 = true /\ is_low s2 = true /\
  s1 < 0x10000 /\ s2 < 0x10000 /\ join_surrogates s1 s2 = c.
Proof.
  intros Hlo Hhi n s1 s2.
  assert (Hn : n < 0x100000) by (unfold n; lia).
  assert (E1 : s1 = 0xd800 + n / 1024).
  { unfold s1. change 0x3ff with (N.ones 10).
    rewrite N.land_ones, N.shiftr_div_pow2. change (2 ^ 10) with 1024.
    assert (n / 1024 < 1024) by (apply N.Div0.div_lt_upper_bound; lia).
    rewrite N.mod_small by assumption.
    change 0xd800 with (N.shiftl 54 10).
    rewrite lor_shiftl_add by (change (2 ^ 10) with 1024; lia).
    reflexivity. }
  assert (E2 : s2 = 0xdc00 + n mod 1024).
  { unfold s2. change 0x3ff with (N.ones 10).
    rewrite N.land_ones. change (2 ^ 10) with 1024.
    change 0xdc00 with (N.shiftl 55 10).
    rewrite lor_shiftl_add; [reflexivity|].
    change (2 ^ 10) with 1024. apply N.mod_lt. discriminate. }
  assert (H1 : n / 1024 < 1024) by (apply N.Div0.div_lt_upper_bound; lia).
  assert (H2 : n mod 1024 < 1024) by (apply N.mod_lt; discriminate).
  assert (En : c = 0x10000 + n) by (unfold n; lia).
  pose proof (N.Div0.div_mod n 1024) as Edm.
  clearbody s1 s2. clearbody n.
  set (q := n / 1024) in *. set (m := n mod 1024) in *. clearbody q m.
  rewrite E1, E2. unfold is_high, is_low, join_surrogates.
  repeat split.
  - apply andb_true_iff; split; apply N.leb_le; lia.
  - apply andb_true_iff; split; apply N.leb_le; lia.
  - lia.
  - lia.
  - replace (0xd800 + q - 0xd800) with q by lia.
    replace (0xdc00 + m - 0xdc00) with m by lia.
    rewrite lor_shiftl_add by (change (2 ^ 10) with 1024; lia).
    change (2 ^ 10) with 1024. lia.
Qed.

(** ** Strings: what the encoder writes, the decoder reads back *)

Lemma escape_char_shape (c : N) :
  in_range c = true -> esc_shape c (escape_char c).
Proof.
  unfold in_range. intros Hc. apply N.ltb_lt in Hc. unfold escape_char.
  destruct (N.eqb_spec c 92) as [->|H92]; [now apply (esc_short 92 92)|].
  destruct (N.eqb_spec c 34) as [->|H34]; [now apply (esc_short 34 34)|].
  destruct (N.eqb_spec c 8) as [->|H8]; [now apply (esc_short 8 98)|].
  destruct (N.eqb_spec c 12) as [->|H12]; [now apply (esc_short 12 102)|].
  destruct (N.eqb_spec c 10) as [->|H10]; [now apply (esc_short 10 110)|].
  destruct (N.eqb_spec c 13) as [->|H13]; [now apply (esc_short 13 114)|].
  destruct (N.eqb_spec c 9) as [->|H9]; [now apply (esc_short 9 116)|].
  destruct ((32 <=? c) && (c <=? 126)) eqn:Hp.
  { apply andb_true_iff in Hp as [Hp1 Hp2].
    apply N.leb_le in Hp1, Hp2.
    apply esc_raw.
    - now apply N.eqb_neq.
    - now apply N.eqb_neq.
    - apply N.leb_gt. lia.
    - unfold is_high. apply andb_false_iff. left. apply N.leb_gt. lia. }
  destruct (N.ltb_spec c 0x10000) as [Hlt|Hge]; [now apply esc_u|].
  destruct (surrogates_join c Hge Hc) as (Hh & Hl & H1 & H2 & Hj).
  now apply esc_pair.
Qed.

Lemma read_hex4_u_escape (n : N) (x : N) (X : str) :
  n < 0x10000 ->
  read_hex4 (hexdigit (n / 4096 mod 16) :: hexdigit (n / 256 mod 16)
               :: hexdigit (n / 16 mod 16) :: hexdigit (n mod 16) :: x :: X)
  = Some (n, x :: X).
Proof.
  intros Hn. cbn [read_hex4]. now rewrite hex4_u_escape.
Qed.

Lemma lookahead_u_escape (n : N) (x : N) (X : str) :
  n < 0x10000 ->
  lookahead (92 :: 117 :: hexdigit (n / 4096 mod 16)
                :: hexdigit (n / 256 mod 16) :: hexdigit (n / 16 mod 16)
                :: hexdigit (n mod 16) :: x :: X)
  = Pair n (x :: X).
Proof.
  intros Hn. cbn [lookahead N.eqb Pos.eqb andb].
  now rewrite hex4_u_escape.
Qed.

Lemma high_not_low (c : N) : is_high c = true -> is_low c = false.
Proof.
  unfold is_high, is_low. intros H. apply andb_true_iff in H as [_ H].
  apply N.leb_le in H. apply andb_false_iff. left. apply N.leb_gt. lia.
Qed.

Lemma backslash_not_surrogate (e c : N) :
  backslash e = Some c -> is_high c = false /\ is_low c = false.
Proof.
  unfold backslash.
  repeat (match goal with
          | |- context [if ?b then _ else _] => destruct b
          end; [now intros [= <-]|]).
  discriminate.
Qed.

Lemma join_not_surrogate (hi lo : N) :
  is_high (join_surrogates hi lo) = false /\
  is_low (join_surrogates hi lo) = false.
Proof.
  unfold join_surrogates, is_high, is_low.
  split; apply andb_false_iff; right; apply N.leb_gt; lia.
Qed.

(** Scanning the escape of one character. *)
Lemma scanstring_shape (b : str) (c : N) (e X : str) :
  esc_shape c e -> X <> [] ->
  (is_high c = true -> low_follows X = false) ->
  scanstring b (e ++ X) = scan_map (cons c) (scanstring b X).
Proof.
  intros Hshape HX Hlow. destruct X as [|x X]; [congruence|].
  destruct Hshape as [e He Hne | H34 H92 H31 Hh | Hc
                     | s1 s2 Hh1 Hl2 Hs1 Hs2 Hj].
  - cbn [app]. rewrite scanstring_cons. cbn [N.eqb Pos.eqb].
    destruct (N.eqb_spec e 117); [congruence|]. now rewrite He.
  - cbn [app]. rewrite scanstring_cons. now rewrite H34, H92, H31.
  - unfold u_escape. cbn [app]. rewrite scanstring_cons.
    cbn [N.eqb Pos.eqb].
    rewrite (read_hex4_u_escape c x X Hc).
    destruct (is_high c) eqn:Hh; [|reflexivity].
    specialize (Hlow eq_refl). unfold low_follows in Hlow.
    destruct (lookahead (x :: X)) as [|bad|uni2 s12]; try discriminate.
    + reflexivity.
    + now rewrite Hlow.
  - unfold u_escape. cbn [app].
    rewrite scanstring_cons. cbn [N.eqb Pos.eqb].
    rewrite (read_hex4_u_escape s1 92 _ Hs1).
    rewrite Hh1, (lookahead_u_escape s2 x X Hs2), Hl2, Hj. reflexivity.
Qed.

Lemma low_follows_shape (c : N) (e X : str) :
  esc_shape c e -> X <> [] -> is_low c = false -> low_follows (e ++ X) = false.
Proof.
  intros Hshape HX Hlow. destruct X as [|x X]; [congruence|].
  unfold low_follows.
  destruct Hshape as [e He Hne | H34 H92 H31 Hh | Hc
                     | s1 s2 Hh1 Hl2 Hs1 Hs2 Hj].
  - cbn [app]. now rewrite lookahead_not_u.
  - cbn [app]. rewrite lookahead_not_backslash; [reflexivity|].
    now apply N.eqb_neq.
  - unfold u_escape. cbn [app]. now rewrite (lookahead_u_escape c x X Hc).
  - unfold u_escape. cbn [app]. rewrite (lookahead_u_escape s1 92 _ Hs1).
    now apply high_not_low.
Qed.

Lemma enc_cons (c : N) (s rest : str) :
  enc (c :: s) rest = escape_char c ++ enc s rest.
Proof. unfold enc. cbn [List.map concat]. now rewrite <- app_assoc. Qed.

Lemma enc_not_nil (s rest : str) : enc s rest <> [].
Proof. unfold enc. destruct (concat (List.map escape_char s)); discriminate. Qed.

(** The decoder reads an encoded string back, whatever comes after the
    closing quote. *)
Lemma scanstring_enc (b : str) (s rest : str) :
  str_ok s = true -> scanstring b (enc s rest) = Scanned s rest.
Proof.
  unfold str_ok. intros H. apply andb_true_iff in H as [Hr Hp].
  induction s as [|c s IH].
  - unfold enc. cbn [List.map concat app]. now rewrite scanstring_cons.
  - cbn [forallb] in Hr. apply andb_true_iff in Hr as [Hc Hr].
    cbn [no_pair] in Hp. apply andb_true_iff in Hp as [Hcp Hp].
    rewrite enc_cons.
    rewrite (scanstring_shape b c _ _ (escape_char_shape c Hc)
                              (enc_not_nil s rest)).
    + now rewrite (IH Hr Hp).
    + intros Hh. destruct s as [|c' s'].
      * unfold enc. cbn [List.map concat app]. unfold low_follows.
        now rewrite lookahead_not_backslash.
      * rewrite enc_cons.
        cbn [forallb] in Hr. apply andb_true_iff in Hr as [Hc' _].
        apply (low_follows_shape c' _ _ (escape_char_shape c' Hc')
                                 (enc_not_nil s' rest)).
        rewrite Hh in Hcp. cbn [andb] in Hcp.
        now destruct (is_low c').
Qed.

(** ** Numbers *)

Lemma span_digits_spec (s ds r : str) :
  span_digits s = (ds, r) ->
  s = ds ++ r /\ forallb is_digit ds = true /\ nondigit_head r = true.
Proof.
  revert ds r; induction s as [|c s IH]; intros ds r; simpl.
  - intros [= <- <-]. repeat split.
  - destruct (is_digit c) eqn:E.
    + destruct (span_digits s) as [ds' r'].
      intros [= <- <-]. destruct (IH _ _ eq_refl) as (-> & H1 & H2).
      repeat split; [|exact H2]. simpl. now rewrite E.
    + intros [= <- <-]. repeat split. simpl. now rewrite E.
Qed.

Lemma span_digits_all (ds X : str) :
  forallb is_digit ds = true -> nondigit_head X = true ->
  span_digits (ds ++ X) = (ds, X).
Proof.
  intros Hd HX. induction ds as [|d ds IH]; simpl.
  - destruct X as [|x X]; [reflexivity|]. simpl in HX |- *.
    now destruct (is_digit x).
  - simpl in Hd. apply andb_true_iff in Hd as [-> Hd]. now rewrite IH.
Qed.

Lemma int_of_digits_snoc (ds : str) (d : N) :
  int_of_digits (ds ++ [d])
  = (10 * int_of_digits ds + Z.of_N (d - 48))%Z.
Proof. unfold int_of_digits. now rewrite fold_left_app. Qed.

Lemma is_digit_char (m : N) : m < 10 -> is_digit (48 + m) = true.
Proof.
  intros H. unfold is_digit. apply andb_true_iff; split; apply N.leb_le; lia.
Qed.

Lemma int_of_digits_one (m : N) : int_of_digits [48 + m] = Z.of_N m.
Proof. unfold int_of_digits. cbn [fold_left]. lia. Qed.

Lemma dec_digits_S (fuel : nat) (n : N) :
  dec_digits (S fuel) n
  = if n <? 10 then [48 + n]
    else dec_digits fuel (n / 10) ++ [48 + n mod 10].
Proof. reflexivity. Qed.

(** The decimal digits of a number: at least one, no leading zero, and they
    read back as the number. *)
Lemma dec_digits_spec (fuel : nat) :
  forall n, N.lt n (N.pow 2 (N.of_nat (S fuel))) ->
  exists d ds,
    dec_digits (S fuel) n = d :: ds /\
    forallb is_digit (d :: ds) = true /\
    int_of_digits (d :: ds) = Z.of_N n /\
    (n = 0 -> d = 48 /\ ds = []) /\
    (0 < n -> ((49 <=? d) && (d <=? 57)) = true).
Proof.
  induction fuel as [|fuel IH]; intros n Hn.
  - change (2 ^ N.of_nat 1) with 2 in Hn.
    assert (Hlt : (n <? 10) = true) by (apply N.ltb_lt; lia).
    exists (48 + n), []. rewrite dec_digits_S, Hlt.
    split; [|split; [|split; [|split]]].
    + reflexivity.
    + cbn [forallb]. rewrite andb_true_r. apply is_digit_char. lia.
    + apply int_of_digits_one.
    + intros ->. now split.
    + intros H0. apply andb_true_iff; split; apply N.leb_le; lia.
  - rewrite dec_digits_S. destruct (N.ltb_spec n 10) as [Hlt|Hge].
    + exists (48 + n), []. split; [|split; [|split; [|split]]].
      * reflexivity.
      * cbn [forallb]. rewrite andb_true_r. now apply is_digit_char.
      * apply int_of_digits_one.
      * intros ->. now split.
      * intros H0. apply andb_true_iff; split; apply N.leb_le; lia.
    + pose proof (N.Div0.div_mod n 10) as Edm.
      pose proof (N.mod_lt n 10 ltac:(discriminate)) as Hm.
      assert (Hq : n / 10 < 2 ^ N.of_nat (S fuel)).
      { apply N.Div0.div_lt_upper_bound.
        replace (N.of_nat (S (S fuel))) with (N.succ (N.of_nat (S fuel)))
          in Hn by lia.
        rewrite N.pow_succ_r' in Hn. lia. }
      assert (Hq0 : 0 < n / 10).
      { destruct (N.eq_dec (n / 10) 0) as [E|]; [|lia].
        rewrite E in Edm. lia. }
      destruct (IH _ Hq) as (d & ds & E & Hd & Hv & _ & Hnz).
      rewrite E. exists d, (ds ++ [48 + n mod 10]).
      set (q := n / 10) in *. set (m := n mod 10) in *. clearbody q m.
      split; [|split; [|split; [|split]]].
      * reflexivity.
      * change (d :: ds ++ [48 + m]) with ((d :: ds) ++ [48 + m]).
        rewrite forallb_app, Hd. cbn [forallb andb]. rewrite andb_true_r.
        now apply is_digit_char.
      * change (d :: ds ++ [48 + m]) with ((d :: ds) ++ [48 + m]).
        rewrite int_of_digits_snoc, Hv.
        replace (48 + m - 48) with m by lia. lia.
      * intros H0. lia.
      * intros _. now apply Hnz.
Qed.

Lemma dec_spec (n : N) :
  exists d ds,
    dec n = d :: ds /\
    forallb is_digit (d :: ds) = true /\
    int_of_digits (d :: ds) = Z.of_N n /\
    (n = 0 -> d = 48 /\ ds = []) /\
    (0 < n -> ((49 <=? d) && (d <=? 57)) = true).
Proof.
  unfold dec. apply dec_digits_spec.
  destruct (N.eq_dec n 0) as [->|Hn]; [reflexivity|].
  rewrite Nat2N.inj_succ, N2Nat.id.
  apply N.log2_spec. lia.
Qed.

Lemma scan_int_dec (n : N) (X : str) :
  nondigit_head X = true -> scan_int (dec n ++ X) = Some (dec n, X).
Proof.
  intros HX. destruct (dec_spec n) as (d & ds & -> & Hd & _ & H0 & Hnz).
  cbn [app scan_int].
  destruct (N.eq_dec n 0) as [->|Hn].
  - destruct (H0 eq_refl) as [-> ->]. reflexivity.
  - rewrite Hnz by lia. cbn [forallb] in Hd.
    apply andb_true_iff in Hd as [_ Hd].
    now rewrite (span_digits_all _ _ Hd HX).
Qed.

(** A text that starts like a number is scanned as a number. *)
Lemma scan_atom_number (c : N) (s : str) :
  is_digit c = true \/
  (c = 45 /\ match s with d :: _ => is_digit d = true | [] => True end) ->
  scan_atom (c :: s) = match_number (c :: s).
Proof.
  intros H. unfold scan_atom.
  change (Str.startswith (u "null") (c :: s))
    with ((110 =? c) && Str.startswith [117; 108; 108] s).
  change (Str.startswith (u "true") (c :: s))
    with ((116 =? c) && Str.startswith [114; 117; 101] s).
  change (Str.startswith (u "false") (c :: s))
    with ((102 =? c) && Str.startswith [97; 108; 115; 101] s).
  change (Str.startswith (u "NaN") (c :: s))
    with ((78 =? c) && Str.startswith [97; 78] s).
  change (Str.startswith (u "Infinity") (c :: s))
    with ((73 =? c) && Str.startswith [110; 102; 105; 110; 105; 116; 121] s).
  change (Str.startswith (u "-Infinity") (c :: s))
    with ((45 =? c)
          && Str.startswith [73; 110; 102; 105; 110; 105; 116; 121] s).
  assert (Hc : (110 =? c) = false /\ (116 =? c) = false /\
               (102 =? c) = false /\ (78 =? c) = false /\
               (73 =? c) = false).
  { destruct H as [H | [-> _]]; [|repeat split].
    unfold is_digit in H. apply andb_true_iff in H as [H1 H2].
    apply N.leb_le in H1, H2.
    repeat split; apply N.eqb_neq; lia. }
  destruct Hc as (-> & -> & -> & -> & ->). cbn [andb].
  destruct H as [H | [-> H]].
  - replace (45 =? c) with false; [reflexivity|].
    symmetry. apply N.eqb_neq. unfold is_digit in H.
    apply andb_true_iff in H as [H1 H2]. apply N.leb_le in H1, H2. lia.
  - destruct s as [|d s]; [reflexivity|].
    change (Str.startswith [73; 110; 102; 105; 110; 105; 116; 121] (d :: s))
      with ((73 =? d)
            && Str.startswith [110; 102; 105; 110; 105; 116; 121] s).
    replace (73 =? d) with false; [reflexivity|].
    symmetry. apply N.eqb_neq. unfold is_digit in H.
    apply andb_true_iff in H as [H1 H2]. apply N.leb_le in H1, H2. lia.
Qed.

(** An integer reads back from its decimal text. *)
Lemma scan_atom_int_repr (z : Z) :
  scan_atom (int_repr z) = Scanned (PInt z) [].
Proof.
  unfold int_repr.
  destruct (dec_spec (Z.abs_N z)) as (d & ds & E & Hd & Hv & H0 & Hnz).
  assert (Hdig : is_digit d = true)
    by (cbn [forallb] in Hd; now apply andb_true_iff in Hd as [? _]).
  assert (Hd45 : (d =? 45) = false).
  { apply N.eqb_neq. unfold is_digit in Hdig.
    apply andb_true_iff in Hdig as [H1 H2]. apply N.leb_le in H1, H2. lia. }
  pose proof (scan_int_dec (Z.abs_N z) [] eq_refl) as Hint.
  rewrite app_nil_r in Hint.
  destruct (Z.ltb_spec z 0) as [Hneg|Hpos].
  - rewrite scan_atom_number by (right; rewrite E; now split).
    unfold match_number. cbn [scan_sign N.eqb Pos.eqb].
    rewrite Hint. cbn [scan_frac scan_exp app].
    rewrite E in *. cbn [app int_of_literal N.eqb Pos.eqb].
    rewrite Hv. f_equal. f_equal. lia.
  - rewrite E. rewrite scan_atom_number by now left.
    unfold match_number. cbn [scan_sign]. rewrite Hd45.
    rewrite <- E, Hint. cbn [scan_frac scan_exp app].
    rewrite E in *. cbn [int_of_literal]. rewrite Hd45, Hv.
    f_equal. f_equal. lia.
Qed.

Lemma scan_int_inv (s ip r : str) :
  scan_int s = Some (ip, r) ->
  s = ip ++ r /\
  (exists d ds, ip = d :: ds /\ is_digit d = true) /\
  (forall X, nondigit_head X = true -> scan_int (ip ++ X) = Some (ip, X)).
Proof.
  destruct s as [|d s]; [discriminate|]. cbn [scan_int].
  destruct ((49 <=? d) && (d <=? 57)) eqn:E.
  - destruct (span_digits s) as [ds r'] eqn:Es. intros [= <- <-].
    destruct (span_digits_spec _ _ _ Es) as (-> & Hd & _).
    split; [reflexivity|]. split.
    + exists d, ds. split; [reflexivity|].
      apply andb_true_iff in E as [E1 E2]. apply N.leb_le in E1, E2.
      unfold is_digit. apply andb_true_iff; split; apply N.leb_le; lia.
    + intros X HX. cbn [app scan_int]. rewrite E.
      now rewrite (span_digits_all _ _ Hd HX).
  - destruct (N.eqb_spec d 48) as [->|]; [|discriminate].
    intros [= <- <-]. split; [reflexivity|]. split.
    + now exists 48, [].
    + intros X HX. reflexivity.
Qed.

Lemma scan_frac_inv (s fr r : str) :
  scan_frac s = (fr, r) ->
  s = fr ++ r /\
  (fr = [] \/ exists t, fr = 46 :: t) /\
  (forall X, nondigit_head X = true -> nodot_head X = true ->
             scan_frac (fr ++ X) = (fr, X)).
Proof.
  unfold scan_frac.
  assert (Hnil : forall X, nodot_head X = true ->
                           match X with
                           | d :: f :: s' =>
                               if (d =? 46) && is_digit f
                               then let (fs, r0) := span_digits s' in
                                    (d :: f :: fs, r0)
                               else ([], X)
                           | _ => ([], X)
                           end = ([], X)).
  { intros [|d [|f X]] HX; try reflexivity. cbn [nodot_head] in HX.
    destruct (d =? 46); [discriminate|reflexivity]. }
  destruct s as [|d [|f s]]; try (intros [= <- <-]; repeat split; auto).
  destruct ((d =? 46) && is_digit f) eqn:E.
  - apply andb_true_iff in E as [E1 E2]. apply N.eqb_eq in E1. subst d.
    destruct (span_digits s) as [fs r'] eqn:Es. intros [= <- <-].
    destruct (span_digits_spec _ _ _ Es) as (-> & Hd & _).
    split; [reflexivity|]. split; [right; eauto|].
    intros X HX _. cbn [app N.eqb Pos.eqb andb]. rewrite E2.
    now rewrite (span_digits_all _ _ Hd HX).
  - intros [= <- <-]. repeat split; auto.
Qed.

Lemma scan_exp_inv (s ex r : str) :
  scan_exp s = (ex, r) ->
  s = ex ++ r /\ scan_exp ex = (ex, []) /\
  nondigit_head ex = true /\ nodot_head ex = true.
Proof.
  unfold scan_exp.
  destruct s as [|e s]; [intros [= <- <-]; now repeat split|].
  destruct ((e =? 101) || (e =? 69)) eqn:Ee.
  2:{ intros [= <- <-]. now repeat split. }
  assert (He : nondigit_head [e] = true /\ nodot_head [e] = true).
  { cbn. apply orb_true_iff in Ee as [Ee|Ee]; apply N.eqb_eq in Ee; subst e;
      now split. }
  assert (Hhead : forall t, nondigit_head (e :: t) = true /\
                            nodot_head (e :: t) = true) by (intros; exact He).
  destruct s as [|c t].
  { cbn [span_digits]. intros [= <- <-]. now repeat split. }
  destruct ((c =? 45) || (c =? 43)) eqn:Ec.
  - destruct (span_digits t) as [es r'] eqn:Es.
    destruct (span_digits_spec _ _ _ Es) as (-> & Hd & _).
    destruct es as [|d es]; intros [= <- <-]; [now repeat split|].
    split; [reflexivity|]. split; [|apply Hhead].
    cbn [app]. rewrite Ee, Ec.
    rewrite <- (app_nil_r (d :: es)) at 1.
    now rewrite (span_digits_all _ [] Hd eq_refl).
  - destruct (span_digits (c :: t)) as [es r'] eqn:Es.
    destruct (span_digits_spec _ _ _ Es) as (Hs & Hd & _).
    destruct es as [|d es]; intros [= <- <-]; [now repeat split|].
    injection Hs as <- ->.
    split; [reflexivity|]. split; [|apply Hhead].
    cbn [app]. rewrite Ee, Ec.
    rewrite <- (app_nil_r (c :: es)) at 1.
    now rewrite (span_digits_all _ [] Hd eq_refl).
Qed.

Lemma digit_not_minus (d : N) : is_digit d = true -> (d =? 45) = false.
Proof.
  unfold is_digit. intros H. apply andb_true_iff in H as [H1 H2].
  apply N.leb_le in H1, H2. apply N.eqb_neq. lia.
Qed.

Lemma match_number_literal (sign ip frac ex : str) :
  scan_sign (sign ++ ip ++ frac ++ ex) = (sign, ip ++ frac ++ ex) ->
  scan_int (ip ++ frac ++ ex) = Some (ip, frac ++ ex) ->
  scan_frac (frac ++ ex) = (frac, ex) ->
  scan_exp ex = (ex, []) ->
  match_number (sign ++ ip ++ frac ++ ex)
  = match frac ++ ex with
    | [] => Scanned (PInt (int_of_literal (sign ++ ip))) []
    | _ :: _ => Scanned (PFloat (FLit (sign ++ ip ++ frac ++ ex))) []
    end.
Proof.
  intros H1 H2 H3 H4. unfold match_number. now rewrite H1, H2, H3, H4.
Qed.

Lemma digit_not_ws (x : N) :
  is_digit x = true -> is_ws x = false /\ x <> 0xfeff.
Proof.
  intros Hx. unfold is_digit in Hx. apply andb_true_iff in Hx as [H1 H2].
  apply N.leb_le in H1, H2. unfold is_ws.
  split; [|lia].
  repeat (apply orb_false_iff; split); apply N.eqb_neq; lia.
Qed.

(** What [match_number] scans: the text it consumed reads as the same number
    with nothing after it, and starts like a number. *)
Lemma match_number_inv (s : str) (v : pyval) (r : str) :
  match_number s = Scanned v r ->
  exists c l,
    s = (c :: l) ++ r /\
    match_number (c :: l) = Scanned v [] /\
    scan_atom (c :: l) = match_number (c :: l) /\
    is_ws c = false /\ c <> 0xfeff /\
    ((exists z, v = PInt z) \/ v = PFloat (FLit (c :: l))).
Proof.
  unfold match_number. intros H.
  destruct (scan_sign s) as [sign s1] eqn:Esign.
  destruct (scan_int s1) as [[ip s3]|] eqn:Eint; [|discriminate].
  destruct (scan_frac s3) as [frac s4] eqn:Efrac.
  destruct (scan_exp s4) as [ex s5] eqn:Eexp.
  destruct (scan_int_inv _ _ _ Eint) as (E1 & (d & ds & -> & Hd) & Hint).
  destruct (scan_frac_inv _ _ _ Efrac) as (E3 & Hfr & Hfrac).
  destruct (scan_exp_inv _ _ _ Eexp) as (E4 & Hexp & Hex1 & Hex2).
  subst s1 s3 s4.
  assert (Htail : nondigit_head (frac ++ ex) = true).
  { destruct Hfr as [-> | [t ->]]; [exact Hex1 | reflexivity]. }
  assert (Hminus := digit_not_minus _ Hd).
  assert (Hlit : forall sg,
             scan_sign (sg ++ (d :: ds) ++ frac ++ ex)
             = (sg, (d :: ds) ++ frac ++ ex) ->
             match_number (sg ++ (d :: ds) ++ frac ++ ex)
             = match frac ++ ex with
               | [] => Scanned (PInt (int_of_literal (sg ++ d :: ds))) []
               | _ :: _ =>
                   Scanned (PFloat (FLit (sg ++ (d :: ds) ++ frac ++ ex))) []
               end).
  { intros sg Hsg. apply match_number_literal; auto. }
  assert (Hv : match frac ++ ex with
               | [] => Scanned (PInt (int_of_literal (sign ++ d :: ds))) []
               | _ :: _ =>
                   Scanned (PFloat (FLit (sign ++ (d :: ds) ++ frac ++ ex))) []
               end = Scanned v [] /\ r = s5 /\
               ((exists z, v = PInt z) \/
                v = PFloat (FLit (sign ++ (d :: ds) ++ frac ++ ex)))).
  { destruct (frac ++ ex); injection H as <- <-; repeat split; eauto. }
  destruct Hv as (Hv & -> & Hkind).
  unfold scan_sign in Esign. destruct s as [|c s]; [discriminate Esign|].
  destruct (N.eqb_spec c 45) as [->|Hc].
  - injection Esign as <- Es.
    exists 45, ((d :: ds) ++ frac ++ ex).
    split; [cbn [app]; rewrite Es, <- !app_assoc; reflexivity|].
    split; [rewrite <- Hv; apply (Hlit [45]); reflexivity|].
    split; [apply scan_atom_number; right; now split|].
    split; [reflexivity|]. split; [discriminate|]. exact Hkind.
  - cbn [app] in Esign. injection Esign as <- -> ->.
    exists d, (ds ++ frac ++ ex).
    split; [cbn [app]; rewrite <- !app_assoc; reflexivity|].
    split.
    { rewrite <- Hv. apply (Hlit []). cbn [app scan_sign]. now rewrite Hminus. }
    split; [apply scan_atom_number; now left|].
    split; [apply (digit_not_ws _ Hd)|]. split; [apply (digit_not_ws _ Hd)|].
    exact Hkind.
Qed.

(** ** The strings the decoder builds *)

Lemma scalar_facts (c : N) :
  is_scalar c = true ->
  in_range c = true /\ is_high c = false /\ is_low c = false.
Proof.
  unfold is_scalar, is_surrogate, is_high, is_low. intros H.
  apply andb_true_iff in H as [H1 H2]. split; [exact H1|].
  apply negb_true_iff, andb_false_iff in H2.
  split; apply andb_false_iff;
    destruct H2 as [H2|H2]; apply N.leb_gt in H2;
    ((left; apply N.leb_gt; lia) || (right; apply N.leb_gt; lia)).
Qed.

Lemma backslash_in_range (e c : N) : backslash e = Some c -> in_range c = true.
Proof.
  unfold backslash.
  repeat (match goal with
          | |- context [if ?b then _ else _] => destruct b
          end; [now intros [= <-]|]).
  discriminate.
Qed.

Lemma join_in_range (hi lo : N) :
  is_high hi = true -> is_low lo = true ->
  in_range (join_surrogates hi lo) = true.
Proof.
  unfold is_high, is_low, in_range, join_surrogates. intros H1 H2.
  apply andb_true_iff in H1 as [H1 H1']. apply andb_true_iff in H2 as [H2 H2'].
  apply N.leb_le in H1, H1', H2, H2'. apply N.ltb_lt.
  rewrite lor_shiftl_add by (change (2 ^ 10) with 1024; lia).
  change (2 ^ 10) with 1024. lia.
Qed.

Lemma scanned_push (s s' a r : str) (c : N) :
  scanned_ok s' a r ->
  in_range c = true ->
  (is_high c = true -> low_follows s' = false) ->
  (is_low c = true -> low_follows s = true) ->
  scanned_ok s (c :: a) r.
Proof.
  intros (Hr & Hp & Hv & Hl) Hc Hhigh Hlow.
  repeat split; try assumption.
  - cbn [forallb]. now rewrite Hc, Hr.
  - cbn [no_pair]. rewrite Hp, andb_true_r.
    destruct a as [|b a']; [reflexivity|].
    destruct (is_high c) eqn:Eh; [|reflexivity].
    destruct (is_low b) eqn:El; [|reflexivity].
    rewrite (Hl eq_refl) in Hhigh. now specialize (Hhigh eq_refl).
Qed.

Lemma valid_text_app (a b : str) :
  valid_text (a ++ b) = true -> valid_text b = true.
Proof.
  unfold valid_text. rewrite forallb_app. intros H.
  now apply andb_true_iff in H as [_ H].
Qed.

Lemma scanstring_ok (n : nat) :
  forall b s a r,
    (length s <= n)%nat -> valid_text s = true ->
    scanstring b s = Scanned a r -> scanned_ok s a r.
Proof.
  induction n as [|n IH]; intros b s a r Hlen Hs H.
  - destruct s; [discriminate | simpl in Hlen; lia].
  - destruct s as [|c s1]; [discriminate|].
    rewrite scanstring_cons in H. simpl in Hlen.
    assert (Hs1 : valid_text s1 = true)
      by (apply (valid_text_app [c]); exact Hs).
    assert (step : forall x s' a' r',
               (length s' <= n)%nat -> valid_text s' = true ->
               scan_map (cons x) (scanstring b s') = Scanned a' r' ->
               in_range x = true ->
               (is_high x = true -> low_follows s' = false) ->
               (is_low x = true -> low_follows (c :: s1) = true) ->
               scanned_ok (c :: s1) a' r').
    { intros x s' a' r' Hl Hv Hm Hx Hh Hlo.
      destruct (scan_map_Scanned _ _ _ _ Hm) as (a0 & E & ->).
      exact (scanned_push _ _ _ _ _ (IH _ _ _ _ Hl Hv E) Hx Hh Hlo). }
    destruct (c =? 34) eqn:E34.
    { injection H as <- <-. repeat split. exact Hs1. }
    destruct (N.eqb_spec c 92) as [->|H92].
    + destruct s1 as [|e s2]; [discriminate|]. simpl in Hlen.
      assert (Hs2 : valid_text s2 = true)
        by (apply (valid_text_app [e]); exact Hs1).
      destruct (N.eqb_spec e 117) as [->|H117].
      * destruct (read_hex4 s2) as [[uni s6]|] eqn:E; [|discriminate].
        destruct (read_hex4_inv _ _ _ E) as (h1 & h2 & h3 & h4 & -> & Eh & Hne).
        assert (Hs6 : valid_text s6 = true)
          by (apply (valid_text_app [h1; h2; h3; h4]); exact Hs2).
        assert (Huni : in_range uni = true).
        { unfold in_range. apply N.ltb_lt.
          pose proof (hex4_lt _ _ _ _ _ Eh). lia. }
        simpl in Hlen.
        assert (Hlow : is_low uni = true ->
                       low_follows (92 :: 117 :: h1 :: h2 :: h3 :: h4 :: s6)
                       = true).
        { intros Hl. unfold low_follows. destruct s6 as [|x s6]; [congruence|].
          cbn [lookahead N.eqb Pos.eqb andb]. now rewrite Eh. }
        destruct (is_high uni) eqn:Ehigh.
        -- destruct (lookahead s6) as [|bad|uni2 s12] eqn:L.
           ++ apply (step uni s6); auto; try lia.
              intros _. unfold low_follows. now rewrite L.
           ++ discriminate.
           ++ destruct (is_low uni2) eqn:Elow.
              ** destruct (lookahead_Pair_inv _ _ _ L)
                   as (g1 & g2 & g3 & g4 & -> & _ & _).
                 simpl in Hlen.
                 destruct (join_not_surrogate uni uni2) as [J1 J2].
                 apply (step (join_surrogates uni uni2) s12); auto; try lia.
                 --- apply (valid_text_app [92; 117; g1; g2; g3; g4]).
                     exact Hs6.
                 --- now apply join_in_range.
                 --- congruence.
                 --- congruence.
              ** apply (step uni s6); auto; try lia.
                 intros _. unfold low_follows. now rewrite L.
        -- apply (step uni s6); auto; try lia. congruence.
      * destruct (backslash e) as [c'|] eqn:Eb; [|discriminate].
        destruct (backslash_not_surrogate _ _ Eb) as [B1 B2].
        apply (step c' s2); auto; try lia; try congruence.
        now apply (backslash_in_range e).
    + destruct (c <=? 31); [discriminate|].
      assert (Hc : is_scalar c = true).
      { unfold valid_text in Hs. cbn [forallb] in Hs.
        now apply andb_true_iff in Hs as [Hc _]. }
      destruct (scalar_facts _ Hc) as (C1 & C2 & C3).
      apply (step c s1); auto; try lia; congruence.
Qed.

Lemma scanstring_str_ok (b s a r : str) :
  valid_text s = true -> scanstring b s = Scanned a r ->
  str_ok a = true /\ valid_text r = true.
Proof.
  intros Hs H.
  destruct (scanstring_ok _ b s a r (Nat.le_refl _) Hs H) as (H1 & H2 & H3 & _).
  unfold str_ok. now rewrite H1, H2.
Qed.

(** ** The values the decoder builds *)

Lemma str_eqb_eq (a b : str) : str_eqb a b = true <-> a = b.
Proof.
  revert b; induction a as [|x a IH]; intros [|y b]; simpl;
    try (split; [discriminate | congruence]); try tauto.
  rewrite andb_true_iff, N.eqb_eq, IH. split.
  - now intros [-> ->].
  - now intros [= -> ->].
Qed.

Lemma str_eqb_refl (a : str) : str_eqb a a = true.
Proof. now apply str_eqb_eq. Qed.

Lemma dict_set_keys (k : str) (v : pyval) (d : list (str * pyval)) :
  List.map fst (dict_set k v d)
  = if existsb (str_eqb k) (List.map fst d)
    then List.map fst d
    else List.map fst d ++ [k].
Proof.
  induction d as [|[k' v'] d IH]; simpl; [reflexivity|].
  destruct (str_eqb k' k) eqn:E.
  - apply str_eqb_eq in E. subst k'. simpl. now rewrite str_eqb_refl.
  - assert (E' : str_eqb k k' = false).
    { destruct (str_eqb k k') eqn:E'; [|reflexivity].
      apply str_eqb_eq in E'. subst. now rewrite str_eqb_refl in E. }
    rewrite E'. simpl. rewrite IH.
    now destruct (existsb (str_eqb k) (List.map fst d)).
Qed.

Lemma existsb_str_eqb (k : str) (l : list str) :
  existsb (str_eqb k) l = true <-> In k l.
Proof.
  rewrite existsb_exists. split.
  - intros (x & Hx & E). apply str_eqb_eq in E. now subst.
  - intros H. exists k. split; [exact H | apply str_eqb_refl].
Qed.

Lemma dict_set_NoDup (k : str) (v : pyval) (d : list (str * pyval)) :
  NoDup (List.map fst d) -> NoDup (List.map fst (dict_set k v d)).
Proof.
  intros H. rewrite dict_set_keys.
  destruct (existsb (str_eqb k) (List.map fst d)) eqn:E; [exact H|].
  apply NoDup_app; [exact H | repeat constructor; intros [] |].
  intros x Hx [<-|[]].
  apply existsb_str_eqb in Hx. congruence.
Qed.

Lemma dict_set_wf (k : str) (v : pyval) (d : list (str * pyval)) :
  str_ok k = true -> wf v -> wf_items d -> wf_items (dict_set k v d).
Proof.
  intros Hk Hv Hd. induction Hd as [|k' v' d Hk' Hv' Hd IH]; simpl.
  - now repeat constructor.
  - destruct (str_eqb k' k); now constructor.
Qed.

(** A key that is not there yet goes to the end. *)
Lemma dict_set_fresh (k : str) (v : pyval) (d : list (str * pyval)) :
  ~ In k (List.map fst d) -> dict_set k v d = d ++ [(k, v)].
Proof.
  induction d as [|[k' v'] d IH]; simpl; [reflexivity|].
  intros H. destruct (str_eqb k' k) eqn:E.
  - apply str_eqb_eq in E. subst. tauto.
  - rewrite IH; [reflexivity | tauto].
Qed.

Lemma startswith_skipn (p s : str) :
  Str.startswith p s = true -> s = p ++ skipn (length p) s.
Proof.
  intros H. destruct (startswith_inv _ _ H) as [t ->].
  now rewrite skipn_app, skipn_all, Nat.sub_diag.
Qed.

(** What [scan_atom] scans: a named constant or a number, which the text it
    consumed gives again with nothing after it. *)
Lemma scan_atom_inv (s : str) (v : pyval) (r : str) :
  scan_atom s = Scanned v r ->
  exists c l,
    s = (c :: l) ++ r /\ scan_atom (c :: l) = Scanned v [] /\
    is_ws c = false /\ c <> 0xfeff /\ wf v.
Proof.
  unfold scan_atom at 1. intros H.
  repeat
    (match type of H with
     | context [Str.startswith (u ?lit) s] =>
         let E := fresh "E" in
         destruct (Str.startswith (u lit) s) eqn:E;
         [ injection H as <- <-;
           apply startswith_skipn in E;
           exists (hd 0 (u lit)), (tl (u lit));
           split; [exact E|]; split; [reflexivity|];
           split; [reflexivity|]; split; [discriminate|];
           repeat constructor
         | ]
     end).
  destruct (match_number_inv _ _ _ H) as (c & l & -> & Hm & Ha & Hw & Hb & Hk).
  exists c, l. split; [reflexivity|]. split; [now rewrite Ha|].
  split; [exact Hw|]. split; [exact Hb|].
  destruct Hk as [[z ->] | ->]; constructor.
  unfold float_ok. now rewrite Ha.
Qed.

Lemma valid_text_skip_ws (s : str) :
  valid_text s = true -> valid_text (skip_ws s) = true.
Proof.
  induction s as [|c s IH]; simpl; [trivial|].
  destruct (is_ws c); [|trivial].
  intros H. apply andb_true_iff in H as [_ H]. now apply IH.
Qed.

Lemma valid_text_tail (c : N) (s : str) :
  valid_text (c :: s) = true -> valid_text s = true.
Proof. apply (valid_text_app [c]). Qed.

(** The decoder builds well-formed values from a valid text. *)
Lemma scan_wf :
  forall fuel,
    (forall s v r,
        valid_text s = true -> scan_once fuel s = Scanned v r ->
        wf v /\ valid_text r = true) /\
    (forall s vs r,
        valid_text s = true -> array_loop fuel s = Scanned vs r ->
        wf_all vs /\ valid_text r = true) /\
    (forall d s kv r,
        valid_text s = true -> wf_items d -> NoDup (List.map fst d) ->
        object_loop fuel d s = Scanned kv r ->
        wf_items kv /\ NoDup (List.map fst kv) /\ valid_text r = true).
Proof.
  induction fuel as [|fuel (IHs & IHa & IHo)].
  { repeat split; intros; discriminate. }
  split; [|split].
  - intros s v r Hs H. rewrite scan_once_S in H.
    destruct s as [|c s']; [discriminate|].
    pose proof (valid_text_tail _ _ Hs) as Hs'.
    pose proof (valid_text_skip_ws _ Hs') as Hw.
    destruct (c =? 34).
    { destruct (scan_map_Scanned _ _ _ _ H) as (a & E & ->).
      destruct (scanstring_str_ok _ _ _ _ Hs' E) as [Ha Hr].
      split; [now constructor | exact Hr]. }
    destruct (c =? 123).
    { destruct (skip_ws s') as [|c1 r1] eqn:W.
      - destruct (scan_map_Scanned _ _ _ _ H) as (a & E & _).
        now apply object_loop_nil in E.
      - destruct (c1 =? 125).
        + injection H as <- <-. split; [repeat constructor|].
          now apply valid_text_tail in Hw.
        + destruct (scan_map_Scanned _ _ _ _ H) as (a & E & ->).
          destruct (IHo _ _ _ _ Hw wf_items_nil (NoDup_nil _) E)
            as (H1 & H2 & H3).
          split; [now constructor | exact H3]. }
    destruct (c =? 91).
    { destruct (skip_ws s') as [|c1 r1] eqn:W.
      - destruct (scan_map_Scanned _ _ _ _ H) as (a & E & _).
        now apply array_loop_nil in E.
      - destruct (c1 =? 93).
        + injection H as <- <-. split; [repeat constructor|].
          now apply valid_text_tail in Hw.
        + destruct (scan_map_Scanned _ _ _ _ H) as (a & E & ->).
          destruct (IHa _ _ _ Hw E) as (H1 & H2).
          split; [now constructor | exact H2]. }
    destruct (scan_atom_inv _ _ _ H) as (c0 & l & E & _ & _ & _ & Hv).
    split; [exact Hv|]. rewrite E in Hs. now apply valid_text_app in Hs.
  - intros s vs r Hs H. rewrite array_loop_S in H.
    destruct (scan_once fuel s) as [v r0| | |] eqn:E; try discriminate.
    destruct (IHs _ _ _ Hs E) as [Hv Hr0].
    pose proof (valid_text_skip_ws _ Hr0) as Hw.
    destruct (skip_ws r0) as [|c r'] eqn:W; [discriminate|].
    pose proof (valid_text_tail _ _ Hw) as Hr'.
    destruct (c =? 93).
    { injection H as <- <-. split; [repeat constructor; exact Hv | exact Hr']. }
    destruct (c =? 44); [|discriminate].
    destruct (scan_map_Scanned _ _ _ _ H) as (a & E' & ->).
    destruct (IHa _ _ _ (valid_text_skip_ws _ Hr') E') as [Ha Hr].
    split; [now constructor | exact Hr].
  - intros d s kv r Hs Hd Hnd H. rewrite object_loop_S in H.
    destruct s as [|c s1]; [discriminate|].
    destruct (c =? 34); [|discriminate].
    pose proof (valid_text_tail _ _ Hs) as Hs1.
    destruct (scanstring (c :: s1) s1) as [key r0| | |] eqn:E;
      try discriminate.
    destruct (scanstring_str_ok _ _ _ _ Hs1 E) as [Hkey Hr0].
    pose proof (valid_text_skip_ws _ Hr0) as Hw.
    destruct (skip_ws r0) as [|c1 r1] eqn:W; [discriminate|].
    pose proof (valid_text_tail _ _ Hw) as Hr1.
    destruct (c1 =? 58); [|discriminate].
    destruct (scan_once fuel (skip_ws r1)) as [v r2| | |] eqn:E2;
      try discriminate.
    destruct (IHs _ _ _ (valid_text_skip_ws _ Hr1) E2) as [Hv Hr2].
    pose proof (valid_text_skip_ws _ Hr2) as Hw2.
    destruct (skip_ws r2) as [|c2 r3] eqn:W2; [discriminate|].
    pose proof (valid_text_tail _ _ Hw2) as Hr3.
    pose proof (dict_set_wf key v d Hkey Hv Hd) as Hd'.
    pose proof (dict_set_NoDup key v d Hnd) as Hnd'.
    destruct (c2 =? 125).
    { injection H as <- <-. now repeat split. }
    destruct (c2 =? 44); [|discriminate].
    exact (IHo _ _ _ _ (valid_text_skip_ws _ Hr3) Hd' Hnd' H).
Qed.

(** A parsed valid text is a well-formed value. *)
Lemma loads_wf (s : str) (v : pyval) :
  valid_text s = true -> loads s = Parsed v -> wf v.
Proof.
  intros Hs H. apply loads_Parsed in H as (_ & r & Hscan & _).
  now apply (proj1 (scan_wf _) _ _ _ (valid_text_skip_ws _ Hs) Hscan).
Qed.

(** ** Round trip: the decoder reads back what the encoder writes *)

Scheme wf_mut := Minimality for wf Sort Prop
  with wf_all_mut := Minimality for wf_all Sort Prop
  with wf_items_mut := Minimality for wf_items Sort Prop.
Combined Scheme wf_mutind from wf_mut, wf_all_mut, wf_items_mut.

(** How a scanned atom starts: not like a string, an array or an object, not
    with anything that may follow a value. *)
Lemma scan_atom_start (c : N) (l : str) (v : pyval) (r : str) :
  scan_atom (c :: l) = Scanned v r ->
  is_stop c = false /\ (c =? 34) = false /\ (c =? 123) = false /\
  (c =? 91) = false /\ c <> 0xfeff.
Proof.
  intros H.
  assert (Hno : forall x, c = x ->
                          scan_atom (x :: l) = Stop (x :: l) -> False).
  { intros x -> E. rewrite E in H. discriminate. }
  unfold is_stop, is_ws.
  destruct (N.eqb_spec c 32) as [E|_]; [destruct (Hno 32 E eq_refl)|].
  destruct (N.eqb_spec c 9) as [E|_]; [destruct (Hno 9 E eq_refl)|].
  destruct (N.eqb_spec c 10) as [E|_]; [destruct (Hno 10 E eq_refl)|].
  destruct (N.eqb_spec c 13) as [E|_]; [destruct (Hno 13 E eq_refl)|].
  destruct (N.eqb_spec c 44) as [E|_]; [destruct (Hno 44 E eq_refl)|].
  destruct (N.eqb_spec c 93) as [E|_]; [destruct (Hno 93 E eq_refl)|].
  destruct (N.eqb_spec c 125) as [E|_]; [destruct (Hno 125 E eq_refl)|].
  destruct (N.eqb_spec c 34) as [E|_]; [destruct (Hno 34 E eq_refl)|].
  destruct (N.eqb_spec c 123) as [E|_]; [destruct (Hno 123 E eq_refl)|].
  destruct (N.eqb_spec c 91) as [E|_]; [destruct (Hno 91 E eq_refl)|].
  repeat (split; [reflexivity|]).
  intros E. exact (Hno 0xfeff E eq_refl).
Qed.

Lemma scan_once_atom (fuel : nat) (c : N) (l rest : str) (v : pyval) :
  scan_atom (c :: l) = Scanned v [] -> stop_head rest = true ->
  scan_once (S fuel) ((c :: l) ++ rest) = Scanned v rest.
Proof.
  intros H Hr. destruct (scan_atom_start _ _ _ _ H) as (_ & H1 & H2 & H3 & _).
  rewrite scan_once_S. cbn [app]. rewrite H1, H2, H3.
  change (c :: l ++ rest) with ((c :: l) ++ rest).
  now rewrite (scan_atom_app _ _ _ _ H Hr).
Qed.

Lemma int_repr_scan (z : Z) :
  exists c l, int_repr z = c :: l /\ scan_atom (c :: l) = Scanned (PInt z) [].
Proof.
  pose proof (scan_atom_int_repr z) as H.
  destruct (int_repr z) as [|c l] eqn:E; [discriminate H|]. eauto.
Qed.

(** What a well-formed atom or string is written as. *)
Lemma dumps_atom (v : pyval) :
  wf v ->
  match v with
  | PList _ | PDict _ | PStr _ => True
  | _ => exists c l, dumps v = c :: l /\ scan_atom (c :: l) = Scanned v []
  end.
Proof.
  intros H. destruct v as [| [|] | z | [| | |lit] | s | l | d]; trivial;
    try (eexists; eexists; split; reflexivity).
  - apply int_repr_scan.
  - inversion H as [| | | f Hf | | |]; subst. unfold float_ok in Hf.
    destruct (scan_atom_inv _ _ _ Hf) as (c & l & E & E' & _).
    rewrite app_nil_r in E. subst lit. exists c, l. now split.
Qed.

(** A value is never written starting with something that may follow a
    value. *)
Lemma dumps_head (v : pyval) :
  wf v -> exists c t, dumps v = c :: t /\ is_stop c = false /\ c <> 0xfeff.
Proof.
  intros H. pose proof (dumps_atom v H) as Ha.
  destruct v as [| b | z | f | s | [|x l] | [|kx d]];
    try (destruct Ha as (c & l & E & Hs);
         destruct (scan_atom_start _ _ _ _ Hs) as (H1 & _ & _ & _ & H5);
         exists c, l; now repeat split);
    eexists; eexists; (split; [reflexivity|]); split;
      try reflexivity; discriminate.
Qed.

Lemma skip_ws_dumps (v : pyval) (rest : str) :
  wf v -> skip_ws (dumps v ++ rest) = dumps v ++ rest.
Proof.
  intros H. destruct (dumps_head v H) as (c & t & -> & Hc & _).
  cbn [app skip_ws]. unfold is_stop in Hc.
  apply orb_false_iff in Hc as [Hc _]. apply orb_false_iff in Hc as [Hc _].
  apply orb_false_iff in Hc as [Hc _]. now rewrite Hc.
Qed.

Lemma encode_str_app (k rest : str) : encode_str k ++ rest = 34 :: enc k rest.
Proof.
  unfold encode_str, enc, dq. cbn [app]. now rewrite <- app_assoc.
Qed.

Lemma items_text_cons (x y : pyval) (ys : list pyval) (rest : str) :
  items_text (x :: y :: ys) ++ rest
  = dumps x ++ 44 :: 32 :: items_text (y :: ys) ++ rest.
Proof.
  unfold items_text. cbn [List.map concat]. now rewrite <- !app_assoc.
Qed.

Lemma pairs_text_one (k : str) (x : pyval) (rest : str) :
  pairs_text [(k, x)] ++ rest = 34 :: enc k (58 :: 32 :: dumps x ++ rest).
Proof.
  unfold pairs_text. cbn [List.map concat fst snd].
  rewrite app_nil_r, <- !app_assoc, encode_str_app. reflexivity.
Qed.

Lemma pairs_text_cons (k : str) (x : pyval) (ky : str * pyval)
      (kvs : list (str * pyval)) (rest : str) :
  pairs_text ((k, x) :: ky :: kvs) ++ rest
  = 34 :: enc k (58 :: 32 :: dumps x
                    ++ 44 :: 32 :: pairs_text (ky :: kvs) ++ rest).
Proof.
  unfold pairs_text. cbn [List.map concat fst snd].
  rewrite <- !app_assoc, encode_str_app. reflexivity.
Qed.

Lemma dumps_list (x : pyval) (xs : list pyval) (rest : str) :
  dumps (PList (x :: xs)) ++ rest = 91 :: items_text (x :: xs) ++ 93 :: rest.
Proof.
  cbn [dumps]. unfold items_text. now rewrite <- !app_assoc.
Qed.

Lemma dumps_dict (kx : str * pyval) (kvs : list (str * pyval)) (rest : str) :
  dumps (PDict (kx :: kvs)) ++ rest
  = 123 :: pairs_text (kx :: kvs) ++ 125 :: rest.
Proof.
  cbn [dumps]. unfold pairs_text. now rewrite <- !app_assoc.
Qed.

Lemma size_list (l : list pyval) : size (PList l) = S (size_all l).
Proof. reflexivity. Qed.

Lemma size_dict (d : list (str * pyval)) : size (PDict d) = S (size_items d).
Proof. reflexivity. Qed.

(** The scanners read back what [dumps] writes. *)
Lemma scan_dumps :
  (forall v, wf v ->
     forall rest fuel,
       stop_head rest = true -> (size v <= fuel)%nat ->
       scan_once fuel (dumps v ++ rest) = Scanned v rest) /\
  (forall l, wf_all l ->
     forall rest fuel,
       l <> [] -> (size_all l <= fuel)%nat ->
       array_loop fuel (items_text l ++ 93 :: rest) = Scanned l rest) /\
  (forall d, wf_items d ->
     forall acc rest fuel,
       d <> [] -> (size_items d <= fuel)%nat ->
       NoDup (List.map fst (acc ++ d)) ->
       object_loop fuel acc (pairs_text d ++ 125 :: rest)
       = Scanned (acc ++ d) rest).
Proof.
  apply wf_mutind.
  - (* None *)
    intros rest [|fuel] Hr Hf; [simpl in Hf; lia|].
    now apply (scan_once_atom fuel 110 [117; 108; 108]).
  - (* bool *)
    intros [|] rest [|fuel] Hr Hf; try (simpl in Hf; lia).
    + now apply (scan_once_atom fuel 116 [114; 117; 101]).
    + now apply (scan_once_atom fuel 102 [97; 108; 115; 101]).
  - (* int *)
    intros z rest [|fuel] Hr Hf; [simpl in Hf; lia|].
    destruct (int_repr_scan z) as (c & l & E & Hs).
    cbn [dumps]. rewrite E. now apply scan_once_atom.
  - (* float *)
    intros f Hok rest [|fuel] Hr Hf; [simpl in Hf; lia|].
    destruct (dumps_atom (PFloat f) (wf_Float f Hok)) as (c & l & E & Hs).
    rewrite E. now apply scan_once_atom.
  - (* str *)
    intros s Hs rest [|fuel] Hr Hf; [simpl in Hf; lia|].
    cbn [dumps]. rewrite encode_str_app, scan_once_S.
    cbn [N.eqb Pos.eqb]. now rewrite (scanstring_enc _ s rest Hs).
  - (* list *)
    intros l Hl IH rest [|fuel] Hr Hf; [simpl in Hf; lia|].
    rewrite size_list in Hf.
    destruct l as [|x xs]; [reflexivity|].
    rewrite dumps_list, scan_once_S. cbn [N.eqb Pos.eqb].
    inversion Hl as [|x' xs' Hx Hxs]; subst.
    assert (Hhead : exists c t, items_text (x :: xs) ++ 93 :: rest = c :: t /\
                                is_stop c = false).
    { destruct (dumps_head x Hx) as (c & t & E & Hc & _).
      unfold items_text. rewrite E. cbn [app]. eauto. }
    destruct Hhead as (c & t & E & Hc).
    assert (Hws : skip_ws (c :: t) = c :: t).
    { cbn [skip_ws]. unfold is_stop in Hc.
      apply orb_false_iff in Hc as [Hc _]. apply orb_false_iff in Hc as [Hc _].
      apply orb_false_iff in Hc as [Hc _]. now rewrite Hc. }
    assert (H93 : (c =? 93) = false).
    { unfold is_stop in Hc. apply orb_false_iff in Hc as [Hc _].
      now apply orb_false_iff in Hc as [_ Hc]. }
    rewrite E, Hws, H93, <- E.
    rewrite (IH rest fuel); [reflexivity | discriminate | lia].
  - (* dict *)
    intros d Hd IH Hnd rest [|fuel] Hr Hf; [simpl in Hf; lia|].
    rewrite size_dict in Hf.
    destruct d as [|[k x] kvs]; [reflexivity|].
    rewrite dumps_dict, scan_once_S. cbn [N.eqb Pos.eqb].
    assert (E : pairs_text ((k, x) :: kvs) ++ 125 :: rest
                = 34 :: tl (pairs_text ((k, x) :: kvs) ++ 125 :: rest))
      by (destruct kvs; [rewrite pairs_text_one | rewrite pairs_text_cons];
          reflexivity).
    rewrite E. cbn [skip_ws is_ws N.eqb Pos.eqb orb]. rewrite <- E.
    rewrite (IH [] rest fuel); [reflexivity | discriminate | lia | exact Hnd].
  - (* no item *)
    intros rest fuel Hne. congruence.
  - (* items *)
    intros x xs Hx IHx Hxs IHxs rest [|fuel] _ Hf; [simpl in Hf; lia|].
    unfold size_all in Hf. cbn [fold_right] in Hf. fold (size_all xs) in Hf.
    rewrite array_loop_S.
    destruct xs as [|y ys].
    + unfold items_text. cbn [List.map concat]. rewrite app_nil_r.
      rewrite (IHx (93 :: rest) fuel eq_refl ltac:(lia)).
      reflexivity.
    + rewrite items_text_cons.
      rewrite (IHx (44 :: 32 :: items_text (y :: ys) ++ 93 :: rest) fuel
                   eq_refl ltac:(lia)).
      cbn [skip_ws is_ws N.eqb Pos.eqb orb].
      inversion Hxs as [|y' ys' Hy Hys]; subst.
      assert (Hw : skip_ws (items_text (y :: ys) ++ 93 :: rest)
                   = items_text (y :: ys) ++ 93 :: rest).
      { unfold items_text. rewrite <- app_assoc. now apply skip_ws_dumps. }
      rewrite Hw, (IHxs rest fuel); [reflexivity | discriminate | lia].
  - (* no pair *)
    intros acc rest fuel Hne. congruence.
  - (* pairs *)
    intros k x kvs Hk Hx IHx Hkvs IHkvs acc rest [|fuel] _ Hf Hnd;
      [simpl in Hf; lia|].
    unfold size_items in Hf. cbn [fold_right snd] in Hf.
    fold (size_items kvs) in Hf.
    assert (Hfresh : dict_set k x acc = acc ++ [(k, x)]).
    { apply dict_set_fresh. rewrite map_app in Hnd. cbn [List.map fst] in Hnd.
      apply NoDup_remove_2 in Hnd. intros Hin. apply Hnd.
      apply in_or_app. now left. }
    rewrite object_loop_S.
    destruct kvs as [|ky kvs'].
    + rewrite pairs_text_one. cbn [N.eqb Pos.eqb].
      rewrite (scanstring_enc _ k _ Hk).
      cbn [skip_ws is_ws N.eqb Pos.eqb orb].
      rewrite (skip_ws_dumps x _ Hx).
      rewrite (IHx (125 :: rest) fuel eq_refl ltac:(lia)).
      cbn [skip_ws is_ws N.eqb Pos.eqb orb]. now rewrite Hfresh.
    + rewrite pairs_text_cons. cbn [N.eqb Pos.eqb].
      rewrite (scanstring_enc _ k _ Hk).
      cbn [skip_ws is_ws N.eqb Pos.eqb orb].
      rewrite (skip_ws_dumps x _ Hx).
      rewrite (IHx (44 :: 32 :: pairs_text (ky :: kvs') ++ 125 :: rest) fuel
                   eq_refl ltac:(lia)).
      cbn [skip_ws is_ws N.eqb Pos.eqb orb].
      assert (E : pairs_text (ky :: kvs') ++ 125 :: rest
                  = 34 :: tl (pairs_text (ky :: kvs') ++ 125 :: rest)).
      { destruct ky as [k' y]. destruct kvs';
          [rewrite pairs_text_one | rewrite pairs_text_cons]; reflexivity. }
      rewrite E. cbn [skip_ws is_ws N.eqb Pos.eqb orb]. rewrite <- E.
      rewrite Hfresh.
      rewrite (IHkvs (acc ++ [(k, x)]) rest fuel);
        [now rewrite <- app_assoc | discriminate | lia |].
      now rewrite <- app_assoc.
Qed.

Lemma dumps_list_length (x : pyval) (xs : list pyval) :
  length (dumps (PList (x :: xs)))
  = length (concat (List.map (fun y => u ", " ++ dumps y) (x :: xs))).
Proof.
  cbn [dumps List.map concat]. rewrite !length_app. simpl. lia.
Qed.

Lemma dumps_dict_length (kx : str * pyval) (kvs : list (str * pyval)) :
  length (dumps (PDict (kx :: kvs)))
  = length (concat (List.map
                      (fun ky => u ", " ++ encode_str (fst ky) ++ u ": "
                                   ++ dumps (snd ky)) (kx :: kvs))).
Proof.
  cbn [dumps List.map concat]. rewrite !length_app. simpl. lia.
Qed.

(** The fuel a value takes is within what [decode] gives for its text. *)
Lemma size_le_dumps :
  (forall v, wf v -> (size v <= 2 * length (dumps v))%nat) /\
  (forall l, wf_all l ->
     (size_all l + length l
      <= 2 * length (concat (List.map (fun y => u ", " ++ dumps y) l)))%nat) /\
  (forall d, wf_items d ->
     (size_items d + length d
      <= 2 * length (concat (List.map
                               (fun ky => u ", " ++ encode_str (fst ky)
                                            ++ u ": " ++ dumps (snd ky)) d)))%nat).
Proof.
  apply wf_mutind.
  - simpl. lia.
  - intros [|]; simpl; lia.
  - intros z. destruct (int_repr_scan z) as (c & l & E & _).
    cbn [dumps size]. rewrite E. simpl. lia.
  - intros f Hf.
    destruct (dumps_atom (PFloat f) (wf_Float f Hf)) as (c & l & E & _).
    rewrite E. simpl. lia.
  - intros s _. cbn [dumps size]. unfold encode_str. rewrite !length_app.
    simpl. lia.
  - intros l _ IH. destruct l as [|x xs]; [simpl; lia|].
    rewrite dumps_list_length, size_list. cbn [length] in IH. lia.
  - intros d _ IH _. destruct d as [|kx kvs]; [simpl; lia|].
    rewrite dumps_dict_length, size_dict. cbn [length] in IH. lia.
  - simpl. lia.
  - intros x xs _ IHx _ IHxs.
    unfold size_all in *. cbn [fold_right List.map concat length].
    rewrite !length_app. change (length (u ", ")) with 2%nat.
    set (A := fold_right _ _ xs) in *.
    set (B := length (concat _)) in *. clearbody A B. lia.
  - simpl. lia.
  - intros k x kvs _ _ IHx _ IHkvs.
    unfold size_items in *. cbn [fold_right List.map concat length fst snd].
    rewrite !length_app. change (length (u ", ")) with 2%nat.
    set (A := fold_right _ _ kvs) in *.
    set (B := length (concat _)) in *. clearbody A B. lia.
Qed.

(** [json.loads(json.dumps(v)) == v] for every well-formed value. *)
Theorem loads_dumps (v : pyval) : wf v -> loads (dumps v) = Parsed v.
Proof.
  intros Hv. apply loads_Parsed.
  destruct (dumps_head v Hv) as (c & t & E & _ & Hbom).
  split.
  - rewrite E. cbn [Str.startswith].
    destruct (N.eqb_spec 65279 c) as [<-|]; [congruence | reflexivity].
  - exists []. split; [|reflexivity].
    pose proof (skip_ws_dumps v [] Hv) as Hw. rewrite app_nil_r in Hw.
    rewrite Hw.
    pose proof (proj1 scan_dumps v Hv [] (S (2 * length (dumps v))) eq_refl)
      as H.
    rewrite app_nil_r in H. apply H.
    pose proof (proj1 size_le_dumps v Hv). lia.
Qed.

(** X17. What was parsed from a valid text is written and read back
    unchanged. *)
Theorem loads_dumps_loads (s : str) (v : pyval) :
  valid_text s = true -> loads s = Parsed v -> loads (dumps v) = Parsed v.
Proof. intros Hs H. apply loads_dumps. now apply (loads_wf s). Qed.

(** ** More on the fence stripping *)

Lemma before_prefix (sep s : str) : exists post, s = Str.before sep s ++ post.
Proof.
  unfold Str.before. destruct (Str.find sep s) as [i|].
  - exists (skipn i s). symmetry. apply firstn_skipn.
  - exists []. now rewrite app_nil_r.
Qed.

Lemma after_suffix (sep s : str) : exists pre, s = pre ++ Str.after sep s.
Proof.
  unfold Str.after. destruct (Str.find sep s) as [i|].
  - exists (firstn (i + length sep) s). symmetry. apply firstn_skipn.
  - exists s. now rewrite app_nil_r.
Qed.

(** X1. The fence stripping never raises, and what it gives is a part of the
    answer: nothing is added, nothing inside is dropped. *)
Theorem strip_fences_part (text : str) :
  exists pre t post,
    App.strip_fences text = Return t /\ text = pre ++ t ++ post.
Proof.
  rewrite strip_fences_eq.
  destruct (Str.contains App.fence_json text).
  - destruct (after_suffix App.fence_json text) as [pre Hpre].
    destruct (before_prefix App.fence_json (Str.after App.fence_json text))
      as [post1 H1].
    destruct (before_prefix App.fence
                (Str.before App.fence_json (Str.after App.fence_json text)))
      as [post2 H2].
    eexists pre, _, (post2 ++ post1). split; [reflexivity|].
    rewrite (app_assoc _ post2 post1), <- H2, <- H1. exact Hpre.
  - destruct (Str.contains App.fence text).
    + destruct (after_suffix App.fence text) as [pre Hpre].
      destruct (before_prefix App.fence (Str.after App.fence text))
        as [post H1].
      eexists pre, _, post. split; [reflexivity|].
      rewrite <- H1. exact Hpre.
    + exists [], text, []. split; [reflexivity|].
      now rewrite app_nil_r.
Qed.

Lemma contains_before (sep s : str) :
  sep <> [] -> Str.contains sep (Str.before sep s) = false.
Proof.
  intros H. unfold Str.contains. now rewrite find_before.
Qed.

(** X2. What is taken from an answer that holds a fence holds none: no backtick
    triple reaches the parser. *)
Theorem strip_fences_fence_free (text : str) :
  Str.contains App.fence text = true ->
  exists t, App.strip_fences text = Return t /\
            Str.contains App.fence t = false /\
            Str.contains App.fence_json t = false.
Proof.
  intros H. rewrite strip_fences_eq, H.
  assert (Hf : App.fence <> []) by discriminate.
  eexists. split; [reflexivity|].
  assert (G : forall t, Str.contains App.fence t = false ->
                        Str.contains App.fence_json t = false).
  { intros t Ht. destruct (Str.contains App.fence_json t) eqn:E; [|reflexivity].
    apply contains_fence_json_fence in E. congruence. }
  destruct (Str.contains App.fence_json text);
    (split; [|apply G]); now apply contains_before.
Qed.

Lemma strip_fences_fence_free_witness :
  Str.contains App.fence (u "Sure: ```[1]``` and ```json [2]```") = true /\
  exists t, App.strip_fences (u "Sure: ```[1]``` and ```json [2]```")
            = Return t /\
            Str.contains App.fence t = false /\
            Str.contains App.fence_json t = false.
Proof.
  split; [reflexivity|].
  apply (strip_fences_fence_free (u "Sure: ```[1]``` and ```json [2]```")).
  reflexivity.
Defined.

(** ** More on the flow *)

Section FlowExtras.

Variable generate_content : str -> str -> outcome App.Response.
Variable json_loads : str -> Json.json_result.

Local Abbreviation gen :=
  (App.generate_gemini_timeline generate_content json_loads).
Local Abbreviation post := (App.post_process json_loads).

(** The two outcomes of the post-processing. *)
Lemma post_cases (resp : App.Response) :
  (exists v, App.extract_json json_loads resp = (Return v, [])
             /\ post resp = (Return v, [])) \/
  (exists e, App.extract_json json_loads resp = (Raise e, []) /\
             post resp
             = if exc_is_Exception e
               then (Return (App.error_dict (exc_str e)),
                     [App.Print (u "Gemini Error: " ++ exc_str e)])
               else (Raise e, [])).
Proof.
  unfold App.post_process, App.extract_json, App.lift, App.loads.
  destruct (App.text resp) as [t|e]; cbn [App.bind].
  - destruct (App.strip_fences t) as [t'|e]; cbn [App.bind].
    + destruct (json_loads t') as [v|m]; cbn [App.try_except_Exception].
      * left. now exists v.
      * right. eexists. split; reflexivity.
    + right. exists e. split; [reflexivity|].
      cbn [App.try_except_Exception]. now destruct (exc_is_Exception e).
  - right. exists e. split; [reflexivity|].
    cbn [App.try_except_Exception]. now destruct (exc_is_Exception e).
Qed.

Lemma post_calls (resp : App.Response) : App.calls (snd (post resp)) = [].
Proof.
  destruct (post_cases resp) as [(v & _ & ->) | (e & _ & ->)];
    [reflexivity|].
  now destruct (exc_is_Exception e).
Qed.

(** The flow starts with the call to the primary model. *)
Lemma flow_log_head (d dl : str) :
  exists rest,
    snd (gen d dl) = App.Call App.primary_model (App.prompt d dl) :: rest.
Proof.
  destruct (generate_content App.primary_model (App.prompt d dl))
    as [resp|e1] eqn:H1.
  - rewrite (flow_primary _ _ _ _ _ H1). now eexists.
  - destruct (generate_content App.fallback_model (App.prompt d dl))
      as [resp|e2] eqn:H2.
    + rewrite (flow_fallback _ _ _ _ _ _ H1 H2). now eexists.
    + rewrite (flow_both_fail _ _ _ _ _ _ H1 H2).
      destruct (exc_is_Exception e2); now eexists.
Qed.

(** X3. The service is called once with the primary model and, only when that
    call raised, once more with the fallback model, on the same prompt; an
    answer that has no text or does not parse is not retried. *)
Theorem gemini_calls (d dl : str) :
  App.calls (snd (gen d dl))
  = App.Call App.primary_model (App.prompt d dl)
      :: match generate_content App.primary_model (App.prompt d dl) with
         | Return _ => []
         | Raise _ => [App.Call App.fallback_model (App.prompt d dl)]
         end.
Proof.
  destruct (generate_content App.primary_model (App.prompt d dl))
    as [resp|e1] eqn:H1.
  - rewrite (flow_primary _ _ _ _ _ H1). cbn [snd App.calls filter App.is_call].
    f_equal. apply post_calls.
  - destruct (generate_content App.fallback_model (App.prompt d dl))
      as [resp|e2] eqn:H2.
    + rewrite (flow_fallback _ _ _ _ _ _ H1 H2).
      cbn [snd App.calls filter App.is_call]. do 2 f_equal. apply post_calls.
    + rewrite (flow_both_fail _ _ _ _ _ _ H1 H2).
      now destruct (exc_is_Exception e2).
Qed.

(** X4. Nothing that derives from [Exception] leaves the flow. *)
Theorem gemini_raises_no_Exception (d dl : str) (e : BaseException) :
  fst (gen d dl) = Raise e -> exc_is_Exception e = false.
Proof.
  assert (P : forall resp, fst (post resp) = Raise e ->
                           exc_is_Exception e = false).
  { intros resp. destruct (post_cases resp) as [(v & _ & ->) | (e' & _ & ->)];
      [discriminate|].
    destruct (exc_is_Exception e') eqn:E; [discriminate|].
    cbn [fst]. now intros [= <-]. }
  destruct (generate_content App.primary_model (App.prompt d dl))
    as [resp|e1] eqn:H1.
  - rewrite (flow_primary _ _ _ _ _ H1). apply P.
  - destruct (generate_content App.fallback_model (App.prompt d dl))
      as [resp|e2] eqn:H2.
    + rewrite (flow_fallback _ _ _ _ _ _ H1 H2). apply P.
    + rewrite (flow_both_fail _ _ _ _ _ _ H1 H2).
      destruct (exc_is_Exception e2) eqn:E; [discriminate|].
      cbn [fst]. now intros [= <-].
Qed.


(** What the post-processing returns: the parsed text, or the dict of an
    error. *)
Lemma post_result_cases (resp : App.Response) (v : pyval) :
  fst (post resp) = Return v ->
  (exists t t', App.text resp = Return t /\
                App.strip_fences t = Return t' /\
                json_loads t' = Json.Parsed v) \/
  (exists m, v = App.error_dict m).
Proof.
  destruct (post_cases resp) as [(v' & Hx & ->) | (e' & _ & ->)].
  - cbn [fst]. intros [= ->]. left.
    unfold App.extract_json, App.lift, App.loads in Hx.
    destruct (App.text resp) as [t|e]; cbn [App.bind] in Hx;
      [|discriminate].
    destruct (App.strip_fences t) as [t'|e] eqn:S; cbn [App.bind] in Hx;
      [|discriminate].
    destruct (json_loads t') as [v'|m] eqn:J; [|discriminate].
    injection Hx as ->. now exists t, t'.
  - destruct (exc_is_Exception e'); [|discriminate].
    cbn [fst]. intros [= <-]. right. eexists; reflexivity.
Qed.

(** X6. What the flow returns is the parsed text of the answer it worked on, or
    a dict with the single key ["error"]. *)
Theorem gemini_result_cases (d dl : str) (v : pyval) :
  fst (gen d dl) = Return v ->
  (exists resp t t',
      App.answered generate_content d dl resp /\
      App.text resp = Return t /\ App.strip_fences t = Return t' /\
      json_loads t' = Json.Parsed v) \/
  (exists m, v = App.error_dict m).
Proof.
  destruct (generate_content App.primary_model (App.prompt d dl))
    as [resp|e1] eqn:H1.
  - rewrite (flow_primary _ _ _ _ _ H1). cbn [fst]. intros H.
    destruct (post_result_cases resp v H)
      as [(t & t' & Ha & Hb & Hc)|Hm]; [left|now right].
    exists resp, t, t'. repeat split; try assumption. now left.
  - destruct (generate_content App.fallback_model (App.prompt d dl))
      as [resp|e2] eqn:H2.
    + rewrite (flow_fallback _ _ _ _ _ _ H1 H2). cbn [fst]. intros H.
      destruct (post_result_cases resp v H)
        as [(t & t' & Ha & Hb & Hc)|Hm]; [left|now right].
      exists resp, t, t'. repeat split; try assumption.
      right. now exists e1.
    + rewrite (flow_both_fail _ _ _ _ _ _ H1 H2).
      destruct (exc_is_Exception e2); [|discriminate].
      cbn [fst]. intros [= <-]. right. eexists; reflexivity.
Qed.

End FlowExtras.

Lemma gemini_raises_no_Exception_witness :
  fst (App.generate_gemini_timeline
         (Scenario.service Scenario.unavailable Scenario.interrupted)
         Json.loads Scenario.description Scenario.deadline)
  = Raise (mkExc false (u "KeyboardInterrupt")) /\
  exc_is_Exception (mkExc false (u "KeyboardInterrupt")) = false.
Proof.
  split; [vm_compute; reflexivity|].
  refine (gemini_raises_no_Exception
            (Scenario.service Scenario.unavailable Scenario.interrupted)
            Json.loads Scenario.description Scenario.deadline
            (mkExc false (u "KeyboardInterrupt")) _).
  vm_compute; reflexivity.
Defined.


Lemma gemini_result_cases_witness :
  let gc := Scenario.service Scenario.unavailable
                             (Scenario.answers Scenario.plan_json) in
  (exists resp t t',
      App.answered gc Scenario.description Scenario.deadline resp /\
      App.text resp = Return t /\ App.strip_fences t = Return t' /\
      Json.loads t' = Json.Parsed Scenario.plan) \/
  (exists m, Scenario.plan = App.error_dict m).
Proof.
  cbv zeta.
  refine (gemini_result_cases
            (Scenario.service Scenario.unavailable
                              (Scenario.answers Scenario.plan_json))
            Json.loads Scenario.description Scenario.deadline
            Scenario.plan _).
  vm_compute; reflexivity.
Defined.

(** ** More on the handlers *)

Lemma next_id_gt (db : list App.Project) (p : App.Project) :
  In p db -> (App.id p < App.next_id db)%nat.
Proof.
  unfold App.next_id. induction db as [|x db IH]; [intros []|].
  cbn [fold_right]. intros [->|H]; [lia|]. specialize (IH H). lia.
Qed.

Lemma find_id_app_new (db : list App.Project) (p : App.Project) :
  App.id p = App.next_id db ->
  List.find (fun x => Nat.eqb (App.id x) (App.id p)) (db ++ [p]) = Some p.
Proof.
  intros Hp. rewrite Hp.
  assert (G : forall l, (forall x, In x l -> (App.id x < App.next_id db)%nat) ->
            List.find (fun x => Nat.eqb (App.id x) (App.next_id db)) (l ++ [p])
            = Some p).
  { induction l as [|x l IH]; intros Hl.
    - cbn. rewrite Hp, Nat.eqb_refl. reflexivity.
    - cbn [app List.find].
      destruct (Nat.eqb_spec (App.id x) (App.next_id db)) as [E|_].
      + specialize (Hl x (or_introl eq_refl)). lia.
      + apply IH. intros y Hy. apply Hl. now right. }
  apply G. intros x. apply next_id_gt.
Qed.

Lemma find_id_app_old (db new : list App.Project) (pid : nat) :
  In pid (List.map App.id db) ->
  List.find (fun x => Nat.eqb (App.id x) pid) (db ++ new)
  = List.find (fun x => Nat.eqb (App.id x) pid) db.
Proof.
  induction db as [|x db IH]; [intros []|].
  cbn [List.map app List.find]. intros [E|H].
  - rewrite E, Nat.eqb_refl. reflexivity.
  - destruct (Nat.eqb (App.id x) pid); [reflexivity|]. now apply IH.
Qed.

Section HandlerExtras.

Variable generate_content : str -> str -> outcome App.Response.
Variable json_loads : str -> Json.json_result.
Variable json_dumps : pyval -> str.
Variable commit_error : App.Project -> option str.

Local Abbreviation gen :=
  (App.generate_gemini_timeline generate_content json_loads).
Local Abbreviation generate :=
  (App.generate generate_content json_loads json_dumps commit_error).
Local Abbreviation get_project := (App.get_project json_loads).

(** What a request leaves in the table: nothing, or one row. *)
Lemma generate_cases (db : list App.Project) (cu : option nat) (now : N)
      (d dl : option str) :
  snd (generate db cu now d dl) = db \/
  exists uid items,
    cu = Some uid /\
    App.falsy d = false /\ App.falsy dl = false /\
    fst (gen (App.field d) (App.field dl)) = Return (PDict items) /\
    dict_has (u "error") items = false /\
    fst (fst (generate db cu now d dl)) = Return (App.Json 200 (PDict items)) /\
    snd (generate db cu now d dl)
    = db ++ [App.mkProject
               (App.next_id db)
               (match dict_get (u "project_title") items with
                | Some x => x
                | None => PStr (u "Untitled Project")
                end)
               (json_dumps (PDict items)) now uid].
Proof.
  unfold App.generate.
  destruct (App.falsy d) eqn:Fd; [now left|].
  destruct (App.falsy dl) eqn:Fdl; [now left|]. cbn [orb].
  destruct (gen (App.field d) (App.field dl)) as [[result|e] log];
    [|now left].
  destruct cu as [uid|]; [|now left].
  destruct (App.py_in (u "error") result) as [[|]|e] eqn:Hin;
    [now left| |now left].
  destruct result as [| | | | |l|items];
    try (cbn [App.py_get]; now left).
  cbn [App.py_in] in Hin. injection Hin as Hin.
  cbn [App.py_get].
  match goal with
  | |- context [commit_error ?p] => destruct (commit_error p)
  end; [now left|].
  right. exists uid, items. cbn [fst snd]. repeat split; assumption.
Qed.

Lemma app_one_neq {A} (l : list A) (x : A) : l <> l ++ [x].
Proof.
  intros H. apply (f_equal (@length _)) in H. rewrite length_app in H.
  cbn [length] in H. lia.
Qed.

Lemma generate_grows (db : list App.Project) (cu : option nat)
      (now : N) (d dl : option str) :
  exists new, snd (generate db cu now d dl) = db ++ new.
Proof.
  destruct (generate_cases db cu now d dl)
    as [H | (uid & items & _ & _ & _ & _ & _ & _ & H)].
  - exists []. now rewrite app_nil_r.
  - eexists. exact H.
Qed.

(** X7. A request never changes or removes a stored project; it adds at most
    one, and none for an anonymous user, for a request with a missing field
    or when the handler raises. *)
Theorem generate_append_only (db : list App.Project) (cu : option nat)
        (now : N) (d dl : option str) :
  exists new,
    snd (generate db cu now d dl) = db ++ new /\
    (length new <= 1)%nat /\
    (cu = None -> new = []) /\
    (App.falsy d || App.falsy dl = true -> new = []) /\
    (forall e, fst (fst (generate db cu now d dl)) = Raise e -> new = []).
Proof.
  destruct (generate_cases db cu now d dl)
    as [H | (uid & items & Hcu & Hd & Hdl & _ & _ & Hr & H)].
  - exists []. rewrite app_nil_r. repeat split; auto.
  - eexists. split; [exact H|]. cbn [length].
    split; [lia|]. split; [congruence|]. split.
    + rewrite Hd, Hdl. discriminate.
    + intros e He. congruence.
Qed.

(** X8. The row that is stored: the user's id, the current time, a fresh id,
    the serialised object that is sent back, and as title the
    [project_title] of the object when that is a string, the default one
    when the object has none. *)
Theorem generate_stored_row (db : list App.Project) (cu : option nat)
        (now : N) (d dl : option str) (p : App.Project) :
  snd (generate db cu now d dl) = db ++ [p] ->
  exists items,
    fst (fst (generate db cu now d dl)) = Return (App.Json 200 (PDict items)) /\
    dict_has (u "error") items = false /\
    App.data p = json_dumps (PDict items) /\
    cu = Some (App.user_id p) /\
    (forall s, dict_get (u "project_title") items = Some (PStr s) ->
               App.title p = PStr s) /\
    (dict_get (u "project_title") items = None ->
     App.title p = PStr (u "Untitled Project")) /\
    App.date p = now /\
    App.id p = App.next_id db.
Proof.
  intros Hs.
  destruct (generate_cases db cu now d dl)
    as [H | (uid & items & Hcu & Hd & Hdl & _ & He & Hr & H)].
  - rewrite H in Hs. now apply app_one_neq in Hs.
  - rewrite H in Hs. apply app_inv_head in Hs. injection Hs as <-.
    exists items. cbn [App.data App.user_id App.title App.date App.id].
    repeat split; try assumption.
    + intros s ->. reflexivity.
    + intros ->. reflexivity.
Qed.

(** X9. Primary keys stay distinct. *)
Theorem generate_ids_distinct (db : list App.Project) (cu : option nat)
        (now : N) (d dl : option str) :
  NoDup (List.map App.id db) ->
  NoDup (List.map App.id (snd (generate db cu now d dl))).
Proof.
  intros Hn.
  destruct (generate_cases db cu now d dl)
    as [-> | (uid & items & _ & _ & _ & _ & _ & _ & ->)]; [exact Hn|].
  rewrite map_app. cbn [List.map App.id].
  apply NoDup_app; [exact Hn | repeat constructor; intros [] |].
  intros x Hx [<-|[]]. apply in_map_iff in Hx as (q & Hq & Hin).
  apply next_id_gt in Hin. lia.
Qed.

(** X10. The service is called exactly when both fields are present and not
    empty; otherwise the answer is the status 400 and nothing is stored. *)
Theorem generate_missing_input (db : list App.Project) (cu : option nat)
        (now : N) (d dl : option str) :
  (App.falsy d || App.falsy dl = true <->
   App.calls (snd (fst (generate db cu now d dl))) = []) /\
  (App.falsy d || App.falsy dl = true ->
   generate db cu now d dl
   = ((Return (App.Json 400 (App.error_dict (u "Missing input"))), []), db)).
Proof.
  assert (A : App.falsy d || App.falsy dl = true ->
              generate db cu now d dl
              = ((Return (App.Json 400 (App.error_dict (u "Missing input"))),
                  []), db)).
  { intros H. unfold App.generate. now rewrite H. }
  split; [|exact A]. split.
  - intros H. now rewrite (A H).
  - destruct (App.falsy d || App.falsy dl) eqn:F; [reflexivity|].
    intros H. exfalso. revert H. unfold App.generate. rewrite F.
    destruct (flow_log_head generate_content json_loads
                (App.field d) (App.field dl)) as [rest C].
    destruct (gen (App.field d) (App.field dl)) as [[result|e] log].
    + cbn [snd] in C.
      assert (L : forall (r : outcome App.http_response)
                        (db' : list App.Project),
                 App.calls (snd (fst ((r, log), db'))) <> []).
      { intros r db'. cbn [fst snd]. rewrite C. discriminate. }
      destruct cu as [uid|]; [|apply L].
      destruct (App.py_in (u "error") result) as [[|]|e]; try apply L.
      destruct (App.py_get result (u "project_title")
                  (PStr (u "Untitled Project"))) as [t|e]; [|apply L].
      match goal with
      | |- context [commit_error ?p] => destruct (commit_error p)
      end; apply L.
    + cbn [fst snd] in C |- *. rewrite C. discriminate.
Qed.

(** X11. A stored project is shown to its owner only; an anonymous visitor is
    sent to the login page. *)
Theorem stored_project_private (db : list App.Project) (cu : option nat)
        (now : N) (d dl : option str) (p : App.Project) (other : nat) :
  snd (generate db cu now d dl) = db ++ [p] ->
  Some other <> cu ->
  get_project (db ++ [p]) (Some other) (App.id p)
  = Return (App.Json 403 (App.error_dict (u "Unauthorized"))) /\
  get_project (db ++ [p]) None (App.id p) = Return App.RedirectToLogin.
Proof.
  intros Hs Ho.
  destruct (generate_cases db cu now d dl)
    as [H | (uid & items & Hcu & _ & _ & _ & _ & _ & H)].
  { rewrite H in Hs. now apply app_one_neq in Hs. }
  rewrite H in Hs. apply app_inv_head in Hs. injection Hs as <-.
  split; [|reflexivity].
  unfold App.get_project. rewrite find_id_app_new by reflexivity.
  cbn [App.user_id].
  destruct (Nat.eqb_spec uid other) as [E|_]; [|reflexivity].
  subst. congruence.
Qed.

(** X12. Later requests do not change what a lookup of a stored project
    answers. *)
Theorem lookup_stable (db : list App.Project) (cu : option nat)
        (now : N) (d dl : option str) (visitor : option nat) (pid : nat) :
  In pid (List.map App.id db) ->
  get_project (snd (generate db cu now d dl)) visitor pid
  = get_project db visitor pid.
Proof.
  intros Hin.
  destruct (generate_grows db cu now d dl) as (new & ->).
  unfold App.get_project. destruct visitor as [uid|]; [|reflexivity].
  now rewrite find_id_app_old.
Qed.

End HandlerExtras.

Import AppInv.

(** ** Stored projects read back *)

Lemma valid_text_app_l (a b : str) :
  valid_text (a ++ b) = true -> valid_text a = true.
Proof.
  unfold valid_text. rewrite forallb_app. intros H.
  now apply andb_true_iff in H as [H _].
Qed.

Lemma valid_text_before (sep s : str) :
  valid_text s = true -> valid_text (Str.before sep s) = true.
Proof.
  intros H. destruct (before_prefix sep s) as [post E]. rewrite E in H.
  now apply valid_text_app_l in H.
Qed.

Lemma valid_text_after (sep s : str) :
  valid_text s = true -> valid_text (Str.after sep s) = true.
Proof.
  intros H. destruct (after_suffix sep s) as [pre E]. rewrite E in H.
  now apply valid_text_app in H.
Qed.

Lemma strip_fences_valid (t t' : str) :
  valid_text t = true -> App.strip_fences t = Return t' ->
  valid_text t' = true.
Proof.
  intros Ht Hs. rewrite strip_fences_eq in Hs. injection Hs as <-.
  destruct (Str.contains App.fence_json t);
    [|destruct (Str.contains App.fence t)];
    auto using valid_text_before, valid_text_after.
Qed.

(** What the flow returns from the texts of a service is a well-formed value,
    or the dict of an error. *)
Lemma flow_result_wf (gc : str -> str -> outcome App.Response)
      (d dl : str) (v : pyval) :
  service_texts_valid gc ->
  fst (App.generate_gemini_timeline gc loads d dl) = Return v ->
  wf v \/ exists m, v = App.error_dict m.
Proof.
  intros Hgc.
  assert (P : forall model resp,
             gc model (App.prompt d dl) = Return resp ->
             fst (App.post_process loads resp) = Return v ->
             wf v \/ exists m, v = App.error_dict m).
  { intros model resp Hm H.
    destruct (post_result_cases _ _ _ H)
      as [(t & t' & Ht & Hs & Hv) | Hx]; [left | now right].
    apply (loads_wf t'); [|exact Hv].
    apply (strip_fences_valid t); [|exact Hs].
    exact (Hgc _ _ _ _ Hm Ht). }
  destruct (gc App.primary_model (App.prompt d dl)) as [resp|e1] eqn:H1.
  - rewrite (flow_primary _ _ _ _ _ H1). now apply P with App.primary_model.
  - destruct (gc App.fallback_model (App.prompt d dl)) as [resp|e2] eqn:H2.
    + rewrite (flow_fallback _ _ _ _ _ _ H1 H2).
      now apply P with App.fallback_model.
    + rewrite (flow_both_fail _ _ _ _ _ _ H1 H2).
      destruct (exc_is_Exception e2); [|discriminate].
      cbn [fst]. intros [= <-]. right. eexists; reflexivity.
Qed.

Lemma generate_row_ok (gc : str -> str -> outcome App.Response)
      (ce : App.Project -> option str) (db : list App.Project)
      (cu : option nat) (now : N) (d dl : option str) :
  service_texts_valid gc ->
  snd (App.generate gc loads dumps ce db cu now d dl) = db \/
  exists p items,
    snd (App.generate gc loads dumps ce db cu now d dl) = db ++ [p] /\
    fst (fst (App.generate gc loads dumps ce db cu now d dl))
    = Return (App.Json 200 (PDict items)) /\
    App.data p = dumps (PDict items) /\ wf (PDict items) /\
    dict_has (u "error") items = false /\
    cu = Some (App.user_id p) /\ App.id p = App.next_id db.
Proof.
  intros Hgc.
  destruct (generate_cases gc loads dumps ce db cu now d dl)
    as [H | (uid & items & Hcu & _ & _ & Hg & He & Hr & H)]; [now left|].
  right. eexists. exists items. split; [exact H|]. cbn.
  repeat split; try assumption.
  destruct (flow_result_wf _ _ _ _ Hgc Hg) as [W | (m & Hm)]; [exact W|].
  injection Hm as ->. discriminate.
Qed.

Lemma get_project_row (db : list App.Project) (p : App.Project)
      (items : list (str * pyval)) :
  List.find (fun x => Nat.eqb (App.id x) (App.id p)) db = Some p ->
  App.data p = dumps (PDict items) -> wf (PDict items) ->
  App.get_project loads db (Some (App.user_id p)) (App.id p)
  = Return (App.Json 200 (PDict items)).
Proof.
  intros Hf Hd Hw. unfold App.get_project. rewrite Hf, Nat.eqb_refl.
  cbn [negb]. unfold App.loads. rewrite Hd, (loads_dumps _ Hw). reflexivity.
Qed.




(** X13. The owner who looks up the project that a request has just stored gets
    the object that the request was answered with: serialising and parsing
    give the value back (a float being the literal it was read from). *)
Theorem stored_project_lookup (gc : str -> str -> outcome App.Response)
        (ce : App.Project -> option str) (db : list App.Project)
        (cu : option nat) (now : N) (d dl : option str)
        (p : App.Project) (r : outcome App.http_response) :
  service_texts_valid gc ->
  snd (App.generate gc loads dumps ce db cu now d dl) = db ++ [p] ->
  fst (fst (App.generate gc loads dumps ce db cu now d dl)) = r ->
  App.get_project loads (db ++ [p]) cu (App.id p) = r.
Proof.
  intros Hgc Hs <-.
  destruct (generate_row_ok gc ce db cu now d dl Hgc)
    as [H | (p' & items & H & Hr & Hd & Hw & _ & Hcu & Hid)].
  - rewrite H in Hs. now apply app_one_neq in Hs.
  - rewrite H in Hs. apply app_inv_head in Hs. injection Hs as ->.
    rewrite Hr, Hcu. apply get_project_row; try assumption.
    now apply find_id_app_new.
Qed.

(** *** Every table that requests build *)

Lemma find_some_id (db : list App.Project) (pid : nat) (p : App.Project) :
  List.find (fun x => Nat.eqb (App.id x) pid) db = Some p ->
  In p db /\ App.id p = pid.
Proof.
  intros H. apply find_some in H as [H1 H2]. split; [exact H1|].
  now apply Nat.eqb_eq.
Qed.

Lemma reachable_rows (db : list App.Project) :
  reachable db -> Forall row_ok db /\ NoDup (List.map App.id db).
Proof.
  induction 1 as [|db gc ce cu now d dl _ [IH1 IH2] Hgc].
  - split; constructor.
  - destruct (generate_row_ok gc ce db cu now d dl Hgc)
      as [-> | (p & items & -> & _ & Hd & Hw & He & _ & Hid)];
      [now split|].
    split.
    + apply Forall_app. split; [exact IH1|].
      constructor; [|constructor]. now exists items.
    + rewrite map_app. cbn [List.map].
      apply NoDup_app; [exact IH2 | repeat constructor; intros [] |].
      intros x Hx [<-|[]]. apply in_map_iff in Hx as (q & Hq & Hin).
      apply next_id_gt in Hin. lia.
Qed.

(** X14. Whatever requests were made before, a lookup never raises: it answers
    with the login page, with 404, with 403, or with an object that parses
    from the stored text and has no key ["error"]. *)
Theorem lookup_never_raises (db : list App.Project) (visitor : option nat)
        (pid : nat) :
  reachable db ->
  App.get_project loads db visitor pid = Return App.RedirectToLogin \/
  App.get_project loads db visitor pid = Return App.NotFound \/
  App.get_project loads db visitor pid
  = Return (App.Json 403 (App.error_dict (u "Unauthorized"))) \/
  exists items,
    App.get_project loads db visitor pid
    = Return (App.Json 200 (PDict items)) /\
    dict_has (u "error") items = false.
Proof.
  intros Hr. destruct (reachable_rows db Hr) as [Hrows _].
  unfold App.get_project. destruct visitor as [uid|]; [|now left].
  destruct (List.find (fun x => Nat.eqb (App.id x) pid) db) as [p|] eqn:F;
    [|now right; left].
  destruct (negb (Nat.eqb (App.user_id p) uid)); [now right; right; left|].
  right; right; right.
  apply find_some_id in F as [Hin _].
  rewrite Forall_forall in Hrows.
  destruct (Hrows p Hin) as (items & Hd & Hw & He).
  exists items. split; [|exact He].
  unfold App.loads. rewrite Hd, (loads_dumps _ Hw). reflexivity.
Qed.

(** ** The database URI *)

Lemma find_startswith (p s : str) :
  Str.startswith p s = true -> Str.find p s = Some O.
Proof. intros H. destruct s; cbn [Str.find]; now rewrite H. Qed.

Lemma replace_first_prefix (old new s : str) :
  Str.startswith old s = true ->
  Str.replace_first old new s = new ++ skipn (length old) s.
Proof.
  intros H. unfold Str.replace_first. now rewrite (find_startswith _ _ H).
Qed.

(** X15. The URI handed to the engine never has the scheme [postgres://]. *)
Theorem database_uri_scheme (DATABASE_URL POSTGRES_URL : option str) :
  Str.startswith (u "postgres://")
                 (App.database_uri DATABASE_URL POSTGRES_URL) = false.
Proof.
  unfold App.database_uri.
  destruct (if App.env_truthy DATABASE_URL then DATABASE_URL
            else POSTGRES_URL) as [[|c url]|]; try reflexivity.
  destruct (Str.startswith (u "postgres://") (c :: url)) eqn:E;
    [|exact E].
  rewrite (replace_first_prefix _ _ _ E). reflexivity.
Qed.

(** X16. Only the scheme is rewritten: what follows it is kept as it is, also
    when [postgres://] occurs in it again; [DATABASE_URL] is preferred to
    [POSTGRES_URL] unless it is unset or empty. *)
Theorem database_uri_rewrite (DATABASE_URL POSTGRES_URL : option str)
        (rest : str) :
  (if App.env_truthy DATABASE_URL then DATABASE_URL else POSTGRES_URL)
  = Some (u "postgres://" ++ rest) ->
  App.database_uri DATABASE_URL POSTGRES_URL = u "postgresql://" ++ rest.
Proof.
  intros H. unfold App.database_uri. rewrite H.
  change (u "postgres://" ++ rest) with (112 :: (tl (u "postgres://") ++ rest)).
  change (112 :: (tl (u "postgres://") ++ rest))
    with (u "postgres://" ++ rest).
  rewrite startswith_app, replace_first_prefix by apply startswith_app.
  now rewrite skipn_app, skipn_all, Nat.sub_diag.
Qed.

Lemma database_uri_rewrite_witness :
  App.database_uri (Some [])
                   (Some (u "postgres://u:p@db/postgres://x"))
  = u "postgresql://u:p@db/postgres://x".
Proof.
  apply (database_uri_rewrite (Some []) (Some (u "postgres://u:p@db/postgres://x"))
                              (u "u:p@db/postgres://x")).
  reflexivity.
Defined.

(** ** The scenario of a stored plan *)

Lemma service_valid (a b : outcome App.Response) :
  (forall resp t, a = Return resp -> App.text resp = Return t ->
                  valid_text t = true) ->
  (forall resp t, b = Return resp -> App.text resp = Return t ->
                  valid_text t = true) ->
  service_texts_valid (Scenario.service a b).
Proof.
  intros Ha Hb model prompt resp t. unfold Scenario.service.
  destruct (str_eqb model App.primary_model); [apply Ha | apply Hb].
Qed.

Lemma planner_valid : service_texts_valid Scenario.planner.
Proof.
  apply service_valid.
  - intros resp t [= <-] [= <-]. vm_compute. reflexivity.
  - intros resp t H. discriminate H.
Qed.

Lemma planner_stores :
  App.generate Scenario.planner loads dumps Scenario.string_titles
    [] (Some 1%nat) 0 (Some Scenario.description) (Some Scenario.deadline)
  = ((Return (App.Json 200 Scenario.plan),
      [App.Call App.primary_model
         (App.prompt Scenario.description Scenario.deadline)]),
     [Scenario.stored]).
Proof. vm_compute. reflexivity. Qed.

Lemma generate_stored_row_witness :
  exists items,
    fst (fst (App.generate Scenario.planner loads dumps Scenario.string_titles
                [] (Some 1%nat) 0
                (Some Scenario.description) (Some Scenario.deadline)))
    = Return (App.Json 200 (PDict items)) /\
    dict_has (u "error") items = false /\
    App.data Scenario.stored = dumps (PDict items) /\
    Some 1%nat = Some (App.user_id Scenario.stored) /\
    (forall s, dict_get (u "project_title") items = Some (PStr s) ->
               App.title Scenario.stored = PStr s) /\
    (dict_get (u "project_title") items = None ->
     App.title Scenario.stored = PStr (u "Untitled Project")) /\
    App.date Scenario.stored = 0 /\
    App.id Scenario.stored = App.next_id [].
Proof.
  refine (generate_stored_row
            Scenario.planner loads dumps Scenario.string_titles
            [] (Some 1%nat) 0
            (Some Scenario.description) (Some Scenario.deadline)
            Scenario.stored _).
  vm_compute; reflexivity.
Defined.

Lemma generate_ids_distinct_witness :
  NoDup (List.map App.id
           (snd (App.generate Scenario.planner loads dumps
                   Scenario.string_titles
                   [Scenario.stored] (Some 2%nat) 5
                   (Some Scenario.description) (Some Scenario.deadline)))).
Proof.
  refine (generate_ids_distinct
            Scenario.planner loads dumps Scenario.string_titles
            [Scenario.stored] (Some 2%nat) 5
            (Some Scenario.description) (Some Scenario.deadline) _).
  repeat constructor. intros [].
Defined.

Lemma stored_project_private_witness :
  App.get_project loads ([] ++ [Scenario.stored]) (Some 2%nat)
                  (App.id Scenario.stored)
  = Return (App.Json 403 (App.error_dict (u "Unauthorized"))) /\
  App.get_project loads ([] ++ [Scenario.stored]) None
                  (App.id Scenario.stored)
  = Return App.RedirectToLogin.
Proof.
  refine (stored_project_private
            Scenario.planner loads dumps Scenario.string_titles
            [] (Some 1%nat) 0
            (Some Scenario.description) (Some Scenario.deadline)
            Scenario.stored 2%nat _ _).
  - vm_compute; reflexivity.
  - discriminate.
Defined.

Lemma lookup_stable_witness :
  App.get_project loads
    (snd (App.generate Scenario.planner loads dumps Scenario.string_titles
            [Scenario.stored] (Some 2%nat) 5
            (Some Scenario.description) (Some Scenario.deadline)))
    (Some 1%nat) 1%nat
  = App.get_project loads [Scenario.stored] (Some 1%nat) 1%nat.
Proof.
  refine (lookup_stable
            Scenario.planner loads dumps Scenario.string_titles
            [Scenario.stored] (Some 2%nat) 5
            (Some Scenario.description) (Some Scenario.deadline)
            (Some 1%nat) 1%nat _).
  left. reflexivity.
Defined.


Lemma stored_project_lookup_witness :
  App.get_project loads ([] ++ [Scenario.stored]) (Some 1%nat)
                  (App.id Scenario.stored)
  = Return (App.Json 200 Scenario.plan).
Proof.
  refine (stored_project_lookup
            Scenario.planner Scenario.string_titles
            [] (Some 1%nat) 0
            (Some Scenario.description) (Some Scenario.deadline)
            Scenario.stored (Return (App.Json 200 Scenario.plan)) _ _ _).
  - exact planner_valid.
  - vm_compute; reflexivity.
  - vm_compute; reflexivity.
Defined.

Lemma reachable_stored : reachable [Scenario.stored].
Proof.
  change [Scenario.stored]
    with (snd (Return (App.Json 200 Scenario.plan),
               [App.Call App.primary_model
                  (App.prompt Scenario.description Scenario.deadline)],
               [Scenario.stored])).
  rewrite <- planner_stores.
  apply reach_generate; [apply reach_init | exact planner_valid].
Qed.

Lemma lookup_never_raises_witness :
  App.get_project loads [Scenario.stored] (Some 1%nat) 1%nat
  = Return App.RedirectToLogin \/
  App.get_project loads [Scenario.stored] (Some 1%nat) 1%nat
  = Return App.NotFound \/
  App.get_project loads [Scenario.stored] (Some 1%nat) 1%nat
  = Return (App.Json 403 (App.error_dict (u "Unauthorized"))) \/
  exists items,
    App.get_project loads [Scenario.stored] (Some 1%nat) 1%nat
    = Return (App.Json 200 (PDict items)) /\
    dict_has (u "error") items = false.
Proof.
  apply (lookup_never_raises [Scenario.stored] (Some 1%nat) 1%nat).
  exact reachable_stored.
Defined.

Lemma loads_dumps_loads_witness :
  loads (dumps Scenario.plan) = Parsed Scenario.plan.
Proof.
  apply (loads_dumps_loads Scenario.plan_json Scenario.plan);
    vm_compute; reflexivity.
Defined.

(** ** The history *)

Section HistoryExtras.

Variable json_loads : str -> Json.json_result.
Variable strftime_ymd : N -> str.
Variable order_by_date_desc : list App.Project -> list App.Project.

(** The query gives the rows it selects, each once. *)
Hypothesis order_perm : forall l, Permutation (order_by_date_desc l) l.

Local Abbreviation history_entry := (App.history_entry json_loads strftime_ymd).
Local Abbreviation history_loop := (App.history_loop json_loads strftime_ymd).
Local Abbreviation get_history :=
  (App.get_history json_loads strftime_ymd order_by_date_desc).

Lemma history_loop_Return (ps : list App.Project) :
  forall acc h,
    history_loop ps acc = Return h ->
    exists es, h = acc ++ es /\
               Forall2 (fun p e => history_entry p = Return e) ps es.
Proof.
  induction ps as [|p ps IH]; intros acc h; cbn [App.history_loop].
  - intros [= <-]. exists []. now rewrite app_nil_r.
  - destruct (history_entry p) as [e|x] eqn:E; cbn [App.obind];
      [|discriminate].
    intros H. destruct (IH _ _ H) as (es & -> & F).
    exists (e :: es). rewrite <- app_assoc. split; [reflexivity|].
    now constructor.
Qed.

Lemma history_loop_Raise (ps : list App.Project) :
  forall acc x,
    history_loop ps acc = Raise x ->
    exists p, In p ps /\ history_entry p = Raise x.
Proof.
  induction ps as [|p ps IH]; intros acc x; cbn [App.history_loop].
  - discriminate.
  - destruct (history_entry p) as [e|y] eqn:E; cbn [App.obind].
    + intros H. destruct (IH _ _ H) as (p' & Hin & Hp').
      exists p'. split; [now right | exact Hp'].
    + intros [= ->]. exists p. split; [now left | exact E].
Qed.

Lemma history_loop_breaks (ps : list App.Project) (p : App.Project)
      (x : BaseException) :
  In p ps -> history_entry p = Raise x ->
  forall acc, exists y, history_loop ps acc = Raise y.
Proof.
  intros Hin Hp. induction ps as [|p' ps IH]; [destruct Hin|].
  intros acc. cbn [App.history_loop].
  destruct Hin as [->|Hin].
  - rewrite Hp. now exists x.
  - destruct (history_entry p') as [e|y]; cbn [App.obind].
    + now apply IH.
    + now exists y.
Qed.

Lemma Forall2_In_left {A B} (R : A -> B -> Prop) (l : list A) (l' : list B)
      (a : A) :
  Forall2 R l l' -> In a l -> exists b, R a b.
Proof.
  induction 1 as [|x y l l' Hxy F IH]; [intros []|].
  intros [<-|H]; [now exists y | now apply IH].
Qed.

Lemma in_query (db : list App.Project) (uid : nat) (p : App.Project) :
  In p (order_by_date_desc
          (List.filter (fun p => Nat.eqb (App.user_id p) uid) db)) <->
  In p db /\ App.user_id p = uid.
Proof.
  split.
  - intros H. apply (Permutation_in _ (order_perm _)) in H.
    apply filter_In in H as [H1 H2]. split; [exact H1|].
    now apply Nat.eqb_eq.
  - intros [H1 H2]. apply (Permutation_in _ (Permutation_sym (order_perm _))).
    apply filter_In. split; [exact H1|]. now apply Nat.eqb_eq.
Qed.

(** What an entry is made of. *)
Lemma history_entry_Return (p : App.Project) (e : pyval) :
  history_entry p = Return e ->
  exists items s,
    json_loads (App.data p) = Parsed (PDict items) /\
    match dict_get (u "executive_summary") items with
    | Some v => v = PStr s
    | None => s = []
    end /\
    e = PDict [(u "id", PInt (Z.of_nat (App.id p)));
               (u "title", App.title p);
               (u "date", PStr (strftime_ymd (App.date p)));
               (u "summary", PStr (firstn 100 s ++ u "..."))].
Proof.
  unfold App.history_entry, App.loads. cbn zeta.
  destruct (json_loads (App.data p)) as [v|m] eqn:L; cbn [App.obind];
    [|discriminate].
  destruct v as [| | | | | |items]; try discriminate.
  cbn [App.py_get App.obind].
  destruct (dict_get (u "executive_summary") items) as [v|] eqn:G.
  - destruct v as [| | | |s| |]; try discriminate.
    cbn [App.summary_of App.obind]. intros [= <-]. exists items, s.
    rewrite G. now repeat split.
  - cbn [App.summary_of App.obind]. intros [= <-]. exists items, [].
    rewrite G. now repeat split.
Qed.

(** X18. When the history is answered, it lists the projects of the user,
    each once and no other, with the id, the title, the day and, as summary,
    the first hundred characters of the [executive_summary] of the plan that
    the stored text parses to (none when the plan has no such key) followed
    by three dots. *)
Theorem history_own_projects (db : list App.Project) (uid : nat)
        (r : App.http_response) :
  get_history db (Some uid) = Return r ->
  exists projects history_data,
    r = App.Json 200 (PList history_data) /\
    Permutation projects
                (List.filter (fun p => Nat.eqb (App.user_id p) uid) db) /\
    Forall2
      (fun p e =>
         exists items s,
           json_loads (App.data p) = Parsed (PDict items) /\
           match dict_get (u "executive_summary") items with
           | Some v => v = PStr s
           | None => s = []
           end /\
           e = PDict [(u "id", PInt (Z.of_nat (App.id p)));
                      (u "title", App.title p);
                      (u "date", PStr (strftime_ymd (App.date p)));
                      (u "summary", PStr (firstn 100 s ++ u "..."))])
      projects history_data.
Proof.
  unfold App.get_history.
  set (ps := order_by_date_desc _).
  destruct (history_loop ps []) as [h|x] eqn:L; cbn [App.obind];
    [|discriminate].
  intros [= <-]. exists ps, h. split; [reflexivity|].
  split; [apply order_perm|].
  destruct (history_loop_Return _ _ _ L) as (es & -> & F).
  cbn [app]. clear L. induction F as [|p e ps' es' Hp F IH]; constructor.
  - exact (history_entry_Return _ _ Hp).
  - exact IH.
Qed.

(** X19. One plan whose [executive_summary] is not a string, stored for a user,
    and the history of that user is not answered any more. *)
Theorem history_breaks (db : list App.Project) (p : App.Project)
        (items : list (str * pyval)) (v : pyval) :
  In p db ->
  json_loads (App.data p) = Parsed (PDict items) ->
  dict_get (u "executive_summary") items = Some v ->
  (forall s, v <> PStr s) ->
  exists x, get_history db (Some (App.user_id p)) = Raise x.
Proof.
  intros Hin Hl Hg Hv. unfold App.get_history.
  assert (E : exists x, history_entry p = Raise x).
  { unfold App.history_entry, App.loads. cbn zeta. rewrite Hl.
    cbn [App.obind App.py_get]. rewrite Hg.
    destruct v as [| | | |s| |]; cbn [App.obind App.summary_of];
      try (eexists; reflexivity).
    now destruct (Hv s). }
  destruct E as [x E].
  destruct (history_loop_breaks _ p x (proj2 (in_query db _ p)
                                        (conj Hin eq_refl)) E [])
    as [y ->].
  now exists y.
Qed.

End HistoryExtras.

(** X20. On the tables that requests build, the history of a user is answered
    exactly when none of the user's plans has an [executive_summary] that is
    not a string: the stored texts always parse, and to objects. *)
Theorem history_answered_iff (strftime_ymd : N -> str)
        (order_by_date_desc : list App.Project -> list App.Project)
        (db : list App.Project) (uid : nat) :
  (forall l, Permutation (order_by_date_desc l) l) ->
  reachable db ->
  (exists r, App.get_history loads strftime_ymd order_by_date_desc
               db (Some uid) = Return r) <->
  (forall p items v,
      In p db -> App.user_id p = uid ->
      loads (App.data p) = Parsed (PDict items) ->
      dict_get (u "executive_summary") items = Some v ->
      exists s, v = PStr s).
Proof.
  intros Hperm Hr. split.
  - intros [r H] p items v Hin Hu Hl Hg. unfold App.get_history in H.
    destruct (App.history_loop loads strftime_ymd
                (order_by_date_desc
                   (filter (fun p => Nat.eqb (App.user_id p) uid) db)) [])
      as [h|x] eqn:L; [|discriminate].
    apply history_loop_Return in L as (es & _ & F).
    assert (Hq := proj2 (in_query order_by_date_desc Hperm db uid p)
                        (conj Hin Hu)).
    destruct (Forall2_In_left _ _ _ _ F Hq) as (e & He).
    destruct (history_entry_Return _ _ _ _ He) as (items' & s & Hl' & Hs & _).
    rewrite Hl in Hl'. injection Hl' as <-. rewrite Hg in Hs. now exists s.
  - intros H. destruct (reachable_rows db Hr) as [Hrows _].
    rewrite Forall_forall in Hrows. unfold App.get_history.
    destruct (App.history_loop loads strftime_ymd
                (order_by_date_desc
                   (filter (fun p => Nat.eqb (App.user_id p) uid) db)) [])
      as [h|x] eqn:L; cbn [App.obind]; [now eexists|].
    exfalso. apply history_loop_Raise in L as (p & Hin & Hp).
    apply (in_query order_by_date_desc Hperm) in Hin as [Hin Hu].
    destruct (Hrows p Hin) as (items & Hd & Hw & _).
    assert (Hl : loads (App.data p) = Parsed (PDict items))
      by now rewrite Hd, (loads_dumps _ Hw).
    revert Hp. unfold App.history_entry, App.loads. cbn zeta. rewrite Hl.
    cbn [App.obind App.py_get].
    destruct (dict_get (u "executive_summary") items) as [v|] eqn:G;
      [|discriminate].
    destruct (H p items v Hin Hu Hl G) as [s ->]. discriminate.
Qed.

Lemma newest_first_perm (l : list App.Project) :
  Permutation (Scenario.newest_first l) l.
Proof. apply Permutation_sym, Permutation_rev. Qed.

Lemma history_own_projects_witness :
  exists projects history_data,
    App.Json 200
      (PList [PDict [(u "id", PInt 1);
                     (u "title", PStr (u "Mobile App"));
                     (u "date", PStr (u "2025-01-01"));
                     (u "summary", PStr (u "......"))]])
    = App.Json 200 (PList history_data) /\
    Permutation projects
      (List.filter (fun p => Nat.eqb (App.user_id p) 1) [Scenario.stored]) /\
    Forall2
      (fun p e =>
         exists items s,
           loads (App.data p) = Parsed (PDict items) /\
           match dict_get (u "executive_summary") items with
           | Some v => v = PStr s
           | None => s = []
           end /\
           e = PDict [(u "id", PInt (Z.of_nat (App.id p)));
                      (u "title", App.title p);
                      (u "date", PStr (Scenario.same_day (App.date p)));
                      (u "summary", PStr (firstn 100 s ++ u "..."))])
      projects history_data.
Proof.
  refine (history_own_projects
            loads Scenario.same_day Scenario.newest_first newest_first_perm
            [Scenario.stored] 1%nat _ _).
  vm_compute; reflexivity.
Defined.

Lemma history_breaks_witness :
  exists x,
    App.get_history loads Scenario.same_day Scenario.newest_first
      [Scenario.stored; Scenario.vague_row]
      (Some (App.user_id Scenario.vague_row)) = Raise x.
Proof.
  refine (history_breaks
            loads Scenario.same_day Scenario.newest_first newest_first_perm
            [Scenario.stored; Scenario.vague_row] Scenario.vague_row
            [(u "project_title", PStr (u "Vague"));
             (u "executive_summary", PNone)]
            PNone _ _ _ _).
  - right; left; reflexivity.
  - vm_compute; reflexivity.
  - vm_compute; reflexivity.
  - discriminate.
Defined.

Lemma history_answered_iff_witness :
  (exists r, App.get_history loads Scenario.same_day Scenario.newest_first
               [Scenario.stored] (Some 1%nat) = Return r) <->
  (forall p items v,
      In p [Scenario.stored] -> App.user_id p = 1%nat ->
      loads (App.data p) = Parsed (PDict items) ->
      dict_get (u "executive_summary") items = Some v ->
      exists s, v = PStr s).
Proof.
  exact (history_answered_iff Scenario.same_day Scenario.newest_first
           [Scenario.stored] 1%nat newest_first_perm reachable_stored).
Defined.

(** ** Accounts and sessions *)

Section AuthExtras.

Import Auth AuthInv.

Lemma user_next_id_gt (l : list User) (x : User) :
  In x l -> (id x < next_id l)%nat.
Proof.
  unfold next_id. induction l as [|y l IH]; [intros []|].
  cbn [fold_right]. intros [->|H]; [lia|]. specialize (IH H). lia.
Qed.

Lemma next_id_fresh (l : list User) : ~ In (next_id l) (List.map id l).
Proof.
  intros H. apply in_map_iff in H as (x & E & H).
  apply user_next_id_gt in H. lia.
Qed.

Lemma find_app_None {A} (f : A -> bool) (l : list A) (x : A) :
  List.find f l = None -> List.find f (l ++ [x]) = if f x then Some x else None.
Proof.
  induction l as [|y l IH]; cbn [app List.find]; [reflexivity|].
  destruct (f y); [discriminate | exact IH].
Qed.

Lemma find_None_iff {A} (f : A -> bool) (l : list A) :
  List.find f l = None <-> forall x, In x l -> f x = false.
Proof.
  split.
  - intros H x Hx. exact (find_none f l H x Hx).
  - induction l as [|y l IH]; [reflexivity|]. intros H. cbn [List.find].
    rewrite (H y (or_introl eq_refl)). apply IH. intros x Hx. apply H.
    now right.
Qed.

Lemma load_user_new (l : list User) (x : User) :
  id x = next_id l -> load_user (l ++ [x]) (id x) = Some x.
Proof.
  intros E. unfold load_user. rewrite find_app_None.
  - now rewrite Nat.eqb_refl.
  - apply find_None_iff. intros y Hy. apply Nat.eqb_neq.
    apply user_next_id_gt in Hy. lia.
Qed.

Lemma by_username_None (l : list User) (n : str) :
  by_username l (Some n) = None <-> ~ In n (List.map username l).
Proof.
  unfold by_username. rewrite find_None_iff. split.
  - intros H Hin. apply in_map_iff in Hin as (x & <- & Hx).
    specialize (H x Hx). now rewrite str_eqb_refl in H.
  - intros H x Hx. destruct (str_eqb (username x) n) eqn:E; [|reflexivity].
    apply str_eqb_eq in E. elim H. apply in_map_iff. now exists x.
Qed.

Lemma by_username_Some (l : list User) (n : option str) (x : User) :
  by_username l n = Some x -> In x l /\ n = Some (username x).
Proof.
  destruct n as [n|]; [|discriminate]. cbn [by_username]. intros H.
  apply find_some in H as [H1 H2]. apply str_eqb_eq in H2. now subst.
Qed.

Lemma by_username_In (l : list User) (x : User) :
  In x l -> exists y, by_username l (Some (username x)) = Some y.
Proof.
  intros H. destruct (by_username l (Some (username x))) as [y|] eqn:E;
    [now exists y|].
  apply by_username_None in E. elim E. now apply in_map.
Qed.

Lemma by_google_id_None (l : list User) (g : str) :
  by_google_id l g = None -> ~ In g (google_ids l).
Proof.
  unfold by_google_id, google_ids. intros H Hin.
  apply in_flat_map in Hin as (x & Hx & Hg).
  pose proof (find_none _ _ H x Hx) as F. cbn beta in F.
  destruct (google_id x) as [g'|]; [|destruct Hg].
  destruct Hg as [->|[]]. now rewrite str_eqb_refl in F.
Qed.

Lemma by_google_id_Some (l : list User) (g : str) (x : User) :
  by_google_id l g = Some x -> In x l /\ google_id x = Some g.
Proof.
  unfold by_google_id. intros H. apply find_some in H as [H1 H2].
  split; [exact H1|]. destruct (google_id x) as [g'|]; [|discriminate].
  apply str_eqb_eq in H2. now subst.
Qed.

Lemma google_ids_app (l l' : list User) :
  google_ids (l ++ l') = google_ids l ++ google_ids l'.
Proof. apply flat_map_app. Qed.

Lemma update_map_id (user : User) (l : list User) :
  List.map id (update user l) = List.map id l.
Proof.
  unfold update. rewrite map_map. apply map_ext. intros x.
  destruct (Nat.eqb_spec (id x) (id user)) as [E|_]; [now rewrite E|].
  reflexivity.
Qed.

(** With distinct ids, an UPDATE changes the one row that has the id. *)
Lemma update_split (user old : User) (l : list User) :
  NoDup (List.map id l) -> In old l -> id user = id old ->
  exists l1 l2, l = l1 ++ old :: l2 /\ update user l = l1 ++ user :: l2.
Proof.
  intros Hn Hin E. apply in_split in Hin as (l1 & l2 & ->).
  exists l1, l2. split; [reflexivity|].
  rewrite map_app in Hn. cbn [List.map] in Hn.
  pose proof (NoDup_remove_2 _ _ _ Hn) as Hnot.
  assert (K : forall l', (forall x, In x l' -> id x <> id old) ->
                         update user l' = l').
  { intros l' H. unfold update. rewrite <- (map_id l') at 2.
    apply map_ext_in. intros x Hx.
    destruct (Nat.eqb_spec (id x) (id user)) as [E'|_]; [|reflexivity].
    elim (H x Hx). congruence. }
  unfold update in *. rewrite map_app. cbn [List.map].
  rewrite E, Nat.eqb_refl. rewrite <- E. f_equal; [|f_equal].
  - apply K. intros x Hx Ex. apply Hnot, in_or_app. left.
    rewrite <- Ex. now apply in_map.
  - apply K. intros x Hx Ex. apply Hnot, in_or_app. right.
    rewrite <- Ex. now apply in_map.
Qed.

Lemma table_ok_append (st : state) (x : User) :
  table_ok st ->
  id x = next_id (users st) ->
  ~ In (username x) (List.map username (users st)) ->
  match google_id x with
  | Some g => ~ In g (google_ids (users st))
  | None => True
  end ->
  table_ok (mkState (users st ++ [x]) (Some (id x))).
Proof.
  intros (H1 & H2 & H3 & _) Hid Hname Hg. unfold table_ok. cbn [users session].
  rewrite !map_app, google_ids_app. cbn [List.map]. repeat split.
  - apply NoDup_app; [exact H1 | repeat constructor; intros [] |].
    intros i Hi [<-|[]]. rewrite Hid in Hi. now apply next_id_fresh in Hi.
  - apply NoDup_app; [exact H2 | repeat constructor; intros [] |].
    intros n Hn [<-|[]]. now apply Hname.
  - unfold google_ids at 2. cbn [flat_map]. rewrite app_nil_r.
    destruct (google_id x) as [g|].
    + apply NoDup_app; [exact H3 | repeat constructor; intros [] |].
      intros n Hn [<-|[]]. now apply Hg.
    + now rewrite app_nil_r.
  - apply in_or_app. right. now left.
Qed.

Lemma table_ok_update (st : state) (user old : User) :
  table_ok st -> In old (users st) ->
  id user = id old -> username user = username old ->
  (google_id user = google_id old \/
   exists g, google_id user = Some g /\ ~ In g (google_ids (users st))) ->
  table_ok (mkState (update user (users st)) (Some (id user))).
Proof.
  intros (H1 & H2 & H3 & _) Hin Hid Hname Hg.
  destruct (update_split user old _ H1 Hin Hid) as (l1 & l2 & E & ->).
  unfold table_ok. cbn [users session]. rewrite E in *.
  rewrite !map_app in *. cbn [List.map] in *. rewrite Hid, Hname.
  repeat split; try assumption.
  - rewrite google_ids_app in *. change (user :: l2) with ([user] ++ l2).
    change (old :: l2) with ([old] ++ l2) in H3, Hg.
    rewrite google_ids_app in *. unfold google_ids at 2. cbn [flat_map].
    unfold google_ids at 2 in H3. cbn [flat_map] in H3.
    unfold google_ids at 2 in Hg. cbn [flat_map] in Hg.
    rewrite app_nil_r in *.
    destruct Hg as [->|(g & -> & Hg)]; [exact H3|].
    assert (H4 : NoDup (google_ids l1 ++ google_ids l2)).
    { destruct (google_id old) as [g0|].
      - now apply NoDup_remove_1 in H3.
      - exact H3. }
    cbn [app]. apply NoDup_Add with (a := g) (l := google_ids l1 ++ google_ids l2).
    + apply Add_app.
    + split; [exact H4|]. intros Hi. apply Hg.
      apply in_app_or in Hi as [Hi|Hi]; apply in_or_app; [now left|].
      right. apply in_or_app. now right.
  - apply in_or_app. right. now left.
Qed.

Lemma table_ok_session (st : state) (x : User) :
  table_ok st -> In x (users st) ->
  table_ok (mkState (users st) (Some (id x))).
Proof.
  intros (H1 & H2 & H3 & _) Hin. repeat split; try assumption.
  cbn [session users]. now apply in_map.
Qed.

Lemma table_ok_logout (st : state) :
  table_ok st -> table_ok (mkState (users st) None).
Proof. intros (H1 & H2 & H3 & _). now repeat split. Qed.

Lemma register_ok h c n (st : state) (name pw : option str) :
  table_ok st -> table_ok (snd (register h c n st name pw)).
Proof.
  intros H. unfold register.
  destruct (by_username (users st) name) as [x|] eqn:F; [exact H|].
  destruct (h pw) as [hashed|e]; [|exact H].
  destruct name as [name|]; [|exact H]. cbn zeta.
  destruct (c _); [exact H|]. cbn [snd].
  apply (table_ok_append st (mkUser (next_id (users st)) name (Some hashed)
                                    None None));
    [exact H | reflexivity | now apply by_username_None | exact I].
Qed.

Lemma login_ok c (st : state) (name pw : option str) :
  table_ok st -> table_ok (snd (login c st name pw)).
Proof.
  intros H. unfold login. cbn zeta.
  destruct (by_username (users st) name) as [x|] eqn:F; [|exact H].
  destruct (password x) as [[|a hash]|]; try exact H.
  destruct (c (a :: hash) pw) as [[|]|e]; try exact H.
  cbn [snd]. apply table_ok_session; [exact H|].
  now apply by_username_Some in F.
Qed.

Lemma google_sign_in_ok c (st st' : state) token info :
  table_ok st -> google_sign_in c st token info = Return st' -> table_ok st'.
Proof.
  intros H. unfold google_sign_in.
  destruct token as [[]|e]; cbn [App.obind]; [|discriminate].
  destruct info as [info|e]; cbn [App.obind]; [|discriminate].
  destruct (info_email info) as [email|]; cbn [getitem App.obind];
    [|discriminate].
  destruct (info_name info) as [name|]; cbn [getitem App.obind];
    [|discriminate].
  destruct (info_id info) as [g|]; cbn [getitem App.obind];
    [|discriminate].
  cbn zeta.
  destruct (by_google_id (users st) g) as [x|] eqn:G.
  - destruct (c _); [discriminate|]. intros [= <-].
    apply by_google_id_Some in G as [Hin _].
    apply (table_ok_update
             st (mkUser (id x) (username x) (password x) (google_id x)
                        (info_picture info)) x);
      try assumption; try reflexivity.
    now left.
  - apply by_google_id_None in G.
    destruct (by_username (users st) (Some email)) as [x|] eqn:F.
    + destruct (c _); [discriminate|]. intros [= <-].
      apply by_username_Some in F as [Hin _].
      apply (table_ok_update
               st (mkUser (id x) (username x) (password x) (Some g)
                          (info_picture info)) x);
        try assumption; try reflexivity.
      right. now exists g.
    + destruct (c _); [discriminate|]. intros [= <-].
      apply (table_ok_append
               st (mkUser (next_id (users st)) email (Some []) (Some g)
                          (info_picture info)));
        [exact H | reflexivity | now apply by_username_None | exact G].
Qed.

Lemma google_authorize_ok c (st : state) token info :
  table_ok st -> table_ok (snd (google_authorize c st token info)).
Proof.
  intros H. unfold google_authorize.
  destruct (google_sign_in c st token info) as [st'|e] eqn:G.
  - cbn [snd]. now apply (google_sign_in_ok c st st' token info).
  - now destruct (exc_is_Exception e).
Qed.

Lemma logout_ok (st : state) (method : str) :
  table_ok st -> table_ok (snd (logout st method)).
Proof.
  intros H. unfold logout. destruct (current_user st); [|exact H].
  cbn zeta. destruct (str_eqb method (u "GET")); now apply table_ok_logout.
Qed.

(** X21. Whatever requests are made to the auth routes, the ids, the user names
    and the Google ids of the accounts stay distinct, and the session names
    an account of the table. *)
Theorem auth_invariant (st : state) : reachable st -> table_ok st.
Proof.
  induction 1 as [|st r _ IH].
  - repeat split; constructor.
  - destruct r as [h c n name pw | c name pw | c token info | method];
      cbn [after].
    + now apply register_ok.
    + now apply login_ok.
    + now apply google_authorize_ok.
    + now apply logout_ok.
Qed.

(** X22. [/register] never changes or removes an account, adds at most one, and
    refuses a user name that an account has, whatever the password. *)
Theorem register_keeps_accounts h c n (st : state) (name pw : option str) :
  (exists new, users (snd (register h c n st name pw)) = users st ++ new /\
               (length new <= 1)%nat) /\
  (forall x, In x (users st) -> name = Some (username x) ->
             register h c n st name pw
             = (Return (Json 400 (App.error_dict (u "User already exists"))),
                st)).
Proof.
  split.
  - unfold register.
    destruct (by_username (users st) name) as [x|];
      [exists []; rewrite app_nil_r; split; [reflexivity | cbn; lia]|].
    destruct (h pw) as [hashed|e]; [|exists []; rewrite app_nil_r; split; [reflexivity | cbn; lia]].
    destruct name as [name|]; [|exists []; rewrite app_nil_r; split; [reflexivity | cbn; lia]].
    cbn zeta. destruct (c _); [exists []; rewrite app_nil_r; split; [reflexivity | cbn; lia]|].
    cbn [snd users]. eexists. split; [reflexivity|]. cbn. lia.
  - intros x Hx ->. unfold register.
    destruct (by_username_In _ _ Hx) as [y ->]. reflexivity.
Qed.

(** X23. [/login] answers 200 only for an account of that name whose stored hash
    is not empty and is the hash of the password sent; the session then
    names that account.  It never changes the table. *)
Theorem login_sound c (st : state) (name pw : option str) :
  users (snd (login c st name pw)) = users st /\
  (forall body, fst (login c st name pw) = Return (Json 200 body) ->
     exists user hash,
       In user (users st) /\ name = Some (username user) /\
       password user = Some hash /\ hash <> [] /\
       c hash pw = Return true /\
       session (snd (login c st name pw)) = Some (id user)).
Proof.
  unfold login. cbn zeta.
  destruct (by_username (users st) name) as [x|] eqn:F;
    [|split; [reflexivity | discriminate]].
  apply by_username_Some in F as [Hin Hn].
  destruct (password x) as [[|a hash]|] eqn:P;
    try (split; [reflexivity | discriminate]).
  destruct (c (a :: hash) pw) as [[|]|e] eqn:C;
    try (split; [reflexivity | discriminate]).
  split; [reflexivity|]. intros body _. exists x, (a :: hash).
  repeat split; try assumption. discriminate.
Qed.

(** X24. The outcomes of [/google/callback]: a redirect to the index with the
    session naming an account of the table, or the status 400 with one
    printed line and nothing changed; only an exception that does not derive
    from [Exception] is raised, and nothing is changed then either. *)
Theorem google_authorize_outcomes c (st : state) token info :
  (exists user,
      google_authorize c st token info
      = ((Return RedirectToIndex, []),
         snd (google_authorize c st token info)) /\
      In user (users (snd (google_authorize c st token info))) /\
      session (snd (google_authorize c st token info)) = Some (id user)) \/
  (exists e,
      exc_is_Exception e = true /\
      google_authorize c st token info
      = ((Return (Text 400 (u "Authentication failed.")),
          [u "Google Auth Error: " ++ exc_str e]), st)) \/
  (exists e,
      exc_is_Exception e = false /\
      google_authorize c st token info = ((Raise e, []), st)).
Proof.
  unfold google_authorize.
  destruct (google_sign_in c st token info) as [st'|e] eqn:G.
  - left. cbn [snd]. revert G. unfold google_sign_in.
    destruct token as [[]|e]; cbn [App.obind]; [|discriminate].
    destruct info as [info|e]; cbn [App.obind]; [|discriminate].
    destruct (info_email info) as [email|]; cbn [getitem App.obind];
      [|discriminate].
    destruct (info_name info) as [name|]; cbn [getitem App.obind];
      [|discriminate].
    destruct (info_id info) as [g|]; cbn [getitem App.obind];
      [|discriminate].
    cbn zeta.
    assert (U : forall user old l, In old l -> id user = id old ->
                                   In user (update user l)).
    { intros user old l Hin E. unfold update. apply in_map_iff.
      exists old. split; [|exact Hin]. now rewrite E, Nat.eqb_refl. }
    destruct (by_google_id (users st) g) as [x|] eqn:B.
    + destruct (c _); [discriminate|]. intros [= <-].
      exists (mkUser (id x) (username x) (password x) (google_id x)
                     (info_picture info)).
      split; [reflexivity|]. cbn [users session]. split; [|reflexivity].
      apply by_google_id_Some in B as [Hin _]. now apply (U _ x).
    + destruct (by_username (users st) (Some email)) as [x|] eqn:F.
      * destruct (c _); [discriminate|]. intros [= <-].
        exists (mkUser (id x) (username x) (password x) (Some g)
                       (info_picture info)).
        split; [reflexivity|]. cbn [users session]. split; [|reflexivity].
        apply by_username_Some in F as [Hin _]. now apply (U _ x).
      * destruct (c _); [discriminate|]. intros [= <-].
        exists (mkUser (next_id (users st)) email (Some []) (Some g)
                       (info_picture info)).
        split; [reflexivity|]. cbn [users session]. split; [|reflexivity].
        apply in_or_app. right. now left.
  - right. destruct (exc_is_Exception e) eqn:E; [left | right];
      now exists e.
Qed.

(** X25. The sign-in needs the [name] of the user info, which it does not use:
    without it the answer is the status 400. *)
Theorem google_requires_name c (st : state) (info : UserInfo) (email : str) :
  info_email info = Some email ->
  info_name info = None ->
  google_authorize c st (Return tt) (Return info)
  = ((Return (Text 400 (u "Authentication failed.")),
      [u "Google Auth Error: 'name'"]), st).
Proof.
  intros He Hn. unfold google_authorize, google_sign_in.
  cbn [App.obind]. rewrite He, Hn. reflexivity.
Qed.

(** X26. An account made by a Google sign-in has the empty string as password:
    [/login] refuses it, whatever password is sent and whatever the check
    would say. *)
Theorem google_account_no_password_login c (st st' : state)
        (email g : str) (name picture : option str) check (pw : option str) :
  by_google_id (users st) g = None ->
  by_username (users st) (Some email) = None ->
  name <> None ->
  google_sign_in c st (Return tt)
                 (Return (mkUserInfo (Some email) name (Some g) picture))
  = Return st' ->
  login check st' (Some email) pw
  = (Return (Json 401 (App.error_dict (u "Invalid credentials"))), st').
Proof.
  intros Hg Hu Hn. unfold google_sign_in. cbn [App.obind info_email getitem].
  destruct name as [name|]; [|now elim Hn].
  cbn [info_name info_id info_picture getitem App.obind]. cbn zeta.
  rewrite Hg, Hu. destruct (c _); [discriminate|]. intros [= <-].
  unfold login. cbn zeta. cbn [users by_username].
  rewrite find_app_None by exact Hu. cbn [username].
  rewrite str_eqb_refl. reflexivity.
Qed.

(** X27. A Google sign-in whose e-mail is the user name of an account, and whose
    Google id no account has, signs in as that account: the id and the
    password stay, the Google id and the picture are set. *)
Theorem google_links_account_by_email c (st : state) (acct : User)
        (email g : str) (name picture : option str) :
  table_ok st ->
  by_google_id (users st) g = None ->
  by_username (users st) (Some email) = Some acct ->
  name <> None ->
  c (mkUser (id acct) (username acct) (password acct) (Some g) picture)
  = None ->
  fst (google_authorize c st (Return tt)
         (Return (mkUserInfo (Some email) name (Some g) picture)))
  = (Return RedirectToIndex, []) /\
  current_user
    (snd (google_authorize c st (Return tt)
            (Return (mkUserInfo (Some email) name (Some g) picture))))
  = Some (mkUser (id acct) email (password acct) (Some g) picture).
Proof.
  intros Hok Hg Hu Hn Hc. unfold google_authorize, google_sign_in.
  cbn [App.obind info_email getitem].
  destruct name as [name|]; [|now elim Hn].
  cbn [info_name info_id info_picture getitem App.obind]. cbn zeta.
  rewrite Hg, Hu, Hc. cbn [fst snd]. split; [reflexivity|].
  unfold current_user, load_user. cbn [session users id].
  apply by_username_Some in Hu as [Hin [= ->]].
  destruct Hok as (H1 & _).
  destruct (update_split
              (mkUser (id acct) (username acct) (password acct) (Some g)
                      picture) acct _ H1 Hin eq_refl)
    as (l1 & l2 & E & ->).
  rewrite E, map_app in H1. cbn [List.map] in H1.
  apply NoDup_remove_2 in H1.
  assert (F : List.find (fun x => Nat.eqb (id x) (id acct)) l1 = None).
  { apply find_None_iff. intros x Hx. apply Nat.eqb_neq. intros Ex.
    apply H1, in_or_app. left. rewrite <- Ex. now apply in_map. }
  clear E. induction l1 as [|y l1 IH].
  - cbn. now rewrite Nat.eqb_refl.
  - cbn [app List.find] in F |- *.
    destruct (Nat.eqb (id y) (id acct)); [discriminate|].
    apply IH; [|exact F]. intros Hi. apply H1. cbn [app List.map].
    now right.
Qed.

(** X28. After a registration that is answered with 200, the visitor is logged
    in as the new account. *)
Theorem register_logs_in h c n (st : state) (name pw : option str)
        (body : pyval) :
  fst (register h c n st name pw) = Return (Json 200 body) ->
  exists user hashed,
    name = Some (username user) /\ h pw = Return hashed /\
    password user = Some hashed /\ google_id user = None /\
    current_user (snd (register h c n st name pw)) = Some user /\
    auth_status (snd (register h c n st name pw))
    = Json 200 (PDict [(u "logged_in", PBool true);
                       (u "username", PStr (username user));
                       (u "profile_pic", PNone)]).
Proof.
  unfold register.
  destruct (by_username (users st) name) as [x|]; [discriminate|].
  destruct (h pw) as [hashed|e]; [|discriminate].
  destruct name as [name|]; [|discriminate]. cbn zeta.
  destruct (c _); [discriminate|]. intros _. cbn [snd].
  exists (mkUser (next_id (users st)) name (Some hashed) None None), hashed.
  assert (E : current_user
                (mkState (users st ++ [mkUser (next_id (users st)) name
                                              (Some hashed) None None])
                         (Some (next_id (users st))))
              = Some (mkUser (next_id (users st)) name (Some hashed)
                             None None)).
  { unfold current_user. cbn [session users].
    exact (load_user_new (users st)
             (mkUser (next_id (users st)) name (Some hashed) None None)
             eq_refl). }
  cbn [id]. unfold auth_status. rewrite E. now repeat split.
Qed.

End AuthExtras.

Lemma auth_invariant_witness :
  AuthInv.table_ok (Auth.mkState [Scenario.ada] (Some 1%nat)).
Proof.
  apply (auth_invariant (Auth.mkState [Scenario.ada] (Some 1%nat))).
  exact (Auth.reach_after (Auth.mkState [] None) Scenario.register_ada
                          Auth.reach_init).
Defined.

Lemma google_requires_name_witness :
  Auth.google_authorize Scenario.stores_all
    (Auth.mkState [Scenario.ada] None) (Return tt)
    (Return (Auth.mkUserInfo (Some (u "ada@example.org")) None
                             (Some (u "1093")) None))
  = ((Return (Auth.Text 400 (u "Authentication failed.")),
      [u "Google Auth Error: 'name'"]),
     Auth.mkState [Scenario.ada] None).
Proof.
  apply (google_requires_name
           Scenario.stores_all (Auth.mkState [Scenario.ada] None)
           (Auth.mkUserInfo (Some (u "ada@example.org")) None
                            (Some (u "1093")) None)
           (u "ada@example.org"));
    reflexivity.
Defined.

Lemma google_account_no_password_login_witness :
  Auth.login Scenario.toy_check
    (Auth.mkState
       [Auth.mkUser 1 (u "ada@example.org") (Some []) (Some (u "1093"))
                    (Some (u "https://example.org/ada.png"))]
       (Some 1%nat))
    (Some (u "ada@example.org")) (Some [])
  = (Return (Auth.Json 401 (App.error_dict (u "Invalid credentials"))),
     Auth.mkState
       [Auth.mkUser 1 (u "ada@example.org") (Some []) (Some (u "1093"))
                    (Some (u "https://example.org/ada.png"))]
       (Some 1%nat)).
Proof.
  refine (google_account_no_password_login
            Scenario.stores_all (Auth.mkState [] None)
            (Auth.mkState
               [Auth.mkUser 1 (u "ada@example.org") (Some [])
                            (Some (u "1093"))
                            (Some (u "https://example.org/ada.png"))]
               (Some 1%nat))
            (u "ada@example.org") (u "1093") (Some (u "Ada"))
            (Some (u "https://example.org/ada.png"))
            Scenario.toy_check (Some []) _ _ _ _).
  - reflexivity.
  - reflexivity.
  - discriminate.
  - vm_compute; reflexivity.
Defined.

Lemma google_links_account_by_email_witness :
  fst (Auth.google_authorize Scenario.stores_all
         (Auth.mkState [Scenario.ada] None) (Return tt)
         (Return Scenario.ada_info))
  = (Return Auth.RedirectToIndex, []) /\
  Auth.current_user
    (snd (Auth.google_authorize Scenario.stores_all
            (Auth.mkState [Scenario.ada] None) (Return tt)
            (Return Scenario.ada_info)))
  = Some (Auth.mkUser 1 (u "ada@example.org") (Some (u "$2b$lovelace"))
                      (Some (u "1093"))
                      (Some (u "https://example.org/ada.png"))).
Proof.
  refine (google_links_account_by_email
            Scenario.stores_all (Auth.mkState [Scenario.ada] None)
            Scenario.ada (u "ada@example.org") (u "1093") (Some (u "Ada"))
            (Some (u "https://example.org/ada.png")) _ _ _ _ _).
  - repeat split; repeat constructor; intros [].
  - reflexivity.
  - vm_compute; reflexivity.
  - discriminate.
  - reflexivity.
Defined.

Lemma register_logs_in_witness :
  exists user hashed,
    Some (u "ada@example.org") = Some (Auth.username user) /\
    Scenario.toy_hash (Some (u "lovelace")) = Return hashed /\
    Auth.password user = Some hashed /\ Auth.google_id user = None /\
    Auth.current_user
      (snd (Auth.register Scenario.toy_hash Scenario.stores_all
              (u "NOT NULL constraint failed") (Auth.mkState [] None)
              (Some (u "ada@example.org")) (Some (u "lovelace"))))
    = Some user /\
    Auth.auth_status
      (snd (Auth.register Scenario.toy_hash Scenario.stores_all
              (u "NOT NULL constraint failed") (Auth.mkState [] None)
              (Some (u "ada@example.org")) (Some (u "lovelace"))))
    = Auth.Json 200 (PDict [(u "logged_in", PBool true);
                            (u "username", PStr (Auth.username user));
                            (u "profile_pic", PNone)]).
Proof.
  refine (register_logs_in
            Scenario.toy_hash Scenario.stores_all
            (u "NOT NULL constraint failed") (Auth.mkState [] None)
            (Some (u "ada@example.org")) (Some (u "lovelace"))
            (PDict [(u "message", PStr (u "Registered successfully"));
                    (u "username", PStr (u "ada@example.org"))]) _).
  vm_compute; reflexivity.
Defined.
